(** * SWAT [CASTable] / [CASColumn]: deferred query building

    A shallow embedding of [swat/cas/table.py].  Python objects that are
    mutated in place and may be aliased (the list-valued table parameters)
    live in an explicit store; remote actions are recorded in a trace, so
    that "performs no I/O" is a statement about that trace. *)

From Stdlib Require Import ZArith Ascii String.
From stdpp Require Import base tactics option list strings pretty.

Local Open Scope string_scope.
Local Open Scope list_scope.

(** ** Strings as Python uses them *)

(** A string is the sequence of its bytes; a character outside ASCII is
    the sequence of bytes that encodes it in UTF-8. *)

Module PyStr.

(** Lower-casing of the ASCII letters: [str.lower] on ASCII text, used for
    the names of parameters and in the worked examples. *)
Definition lower_ascii (c : ascii) : ascii :=
  let n := nat_of_ascii c in
  if (65 <=? n)%nat && (n <=? 90)%nat then ascii_of_nat (n + 32) else c.

Fixpoint lower (s : string) : string :=
  match s with
  | EmptyString => EmptyString
  | String c s' => String (lower_ascii c) (lower s')
  end.


(** White space is what [str.isspace] says, which [str.strip] and the
    regex [\s] go by.  In one byte: tab, line feed, vertical tab, form
    feed, carriage return, the four separators 28..31, space. *)
Definition is_space (c : ascii) : bool :=
  let n := nat_of_ascii c in
  ((9 <=? n)%nat && (n <=? 13)%nat) || ((28 <=? n)%nat && (n <=? 32)%nat).

(** In two bytes: U+0085 and U+00A0. *)
Definition is_space2 (c d : ascii) : bool :=
  let m := nat_of_ascii d in
  (nat_of_ascii c =? 194)%nat && ((m =? 133)%nat || (m =? 160)%nat).

(** In three bytes: U+1680; U+2000 to U+200A, U+2028, U+2029, U+202F;
    U+205F; U+3000. *)
Definition is_space3 (c d e : ascii) : bool :=
  let n := nat_of_ascii c in
  let m := nat_of_ascii d in
  let k := nat_of_ascii e in
  ((n =? 225)%nat && (m =? 154)%nat && (k =? 128)%nat) ||
  ((n =? 226)%nat && (m =? 128)%nat &&
   (((128 <=? k)%nat && (k <=? 138)%nat) ||
    (k =? 168)%nat || (k =? 169)%nat || (k =? 175)%nat)) ||
  ((n =? 226)%nat && (m =? 129)%nat && (k =? 159)%nat) ||
  ((n =? 227)%nat && (m =? 128)%nat && (k =? 128)%nat).

(** A byte that occurs in some white-space character. *)
Definition space_byte (c : ascii) : bool :=
  is_space c || (128 <=? nat_of_ascii c)%nat.

Definition is_alpha (c : ascii) : bool :=
  let n := nat_of_ascii c in
  ((65 <=? n)%nat && (n <=? 90)%nat) || ((97 <=? n)%nat && (n <=? 122)%nat).

Definition is_digit (c : ascii) : bool :=
  let n := nat_of_ascii c in (48 <=? n)%nat && (n <=? 57)%nat.

Definition is_alnum (c : ascii) : bool := is_alpha c || is_digit c.

(** Regex [\w] on an ASCII character.  (Outside ASCII [\w] follows the
    Unicode database; the pattern of generated names below is the only
    user.) *)
Definition is_word (c : ascii) : bool := is_alnum c || Ascii.eqb c "_".

(** [str.lstrip()] *)
Fixpoint lstrip (s : string) : string :=
  match s with
  | String c s1 =>
      if is_space c then lstrip s1
      else
        match s1 with
        | String d s2 =>
            if is_space2 c d then lstrip s2
            else
              match s2 with
              | String e s3 => if is_space3 c d e then lstrip s3 else s
              | EmptyString => s
              end
        | EmptyString => s
        end
  | EmptyString => EmptyString
  end.

(** Nothing but white space. *)
Definition all_space (s : string) : bool :=
  match lstrip s with EmptyString => true | _ => false end.

(** [str.rstrip()]: the string up to its last character that is not white
    space. *)
Fixpoint rstrip (s : string) : string :=
  match s with
  | EmptyString => EmptyString
  | String c s' => if all_space (String c s') then EmptyString
                   else String c (rstrip s')
  end.

Definition strip (s : string) : string := rstrip (lstrip s).

(** Truth value of a string: non-empty. *)
Definition truthy (s : string) : bool :=
  match s with EmptyString => false | _ => true end.

(** [re.search(r';\s*$', s)]: some semicolon is followed by white space
    only, up to the end. *)
Fixpoint ends_with_semicolon (s : string) : bool :=
  match s with
  | EmptyString => false
  | String c s' =>
      (Ascii.eqb c ";" && all_space s') || ends_with_semicolon s'
  end.

(** [sep.join(items)]. *)
Fixpoint join (sep : string) (items : list string) : string :=
  match items with
  | [] => ""
  | [x] => x
  | x :: rest => x ++ sep ++ join sep rest
  end.

(** [_escape_string]'s [val.replace]: every double-quote character is
    written twice. *)
Definition dquote : ascii := ascii_of_nat 34.

Fixpoint double_quotes (s : string) : string :=
  match s with
  | EmptyString => EmptyString
  | String c s' =>
      if Ascii.eqb c dquote
      then String dquote (String dquote (double_quotes s'))
      else String c (double_quotes s')
  end.

Fixpoint prefixb (p s : string) : bool :=
  match p, s with
  | EmptyString, _ => true
  | String a p', String b s' => Ascii.eqb a b && prefixb p' s'
  | String _ _, EmptyString => false
  end.

(** [sub in s]. *)
Fixpoint contains (sub s : string) : bool :=
  prefixb sub s ||
  match s with
  | EmptyString => false
  | String _ s' => contains sub s'
  end.

(** Number of (possibly overlapping) places where [sub] starts in [s]. *)
Fixpoint occurrences (sub s : string) : nat :=
  match s with
  | EmptyString => 0
  | String _ s' => (if prefixb sub s then 1 else 0) + occurrences sub s'
  end.

Fixpoint all_chars (p : ascii -> bool) (s : string) : bool :=
  match s with
  | EmptyString => true
  | String c s' => p c && all_chars p s'
  end.

End PyStr.

(** ** Exceptions, remote requests and the world *)

(** Argument carried by a [KeyError]. *)
Inductive payload :=
| PStr (s : string)
| PInt (z : Z)
| PObj.

Inductive exn :=
| TypeError (msg : string)
| KeyError (p : payload)
| IndexError (msg : string)
| ValueError (msg : string)
| AttributeError (name : string)
| SWATError (msg : string).

(** Keyword argument of an action call. *)
Inductive arg :=
| AInt (z : Z)
| ABool (b : bool)
| AStr (s : string).

(** One entry of a [sortby] list: [dict(name=..., order=..., formatted=...)]. *)
Record sortspec := mk_sortspec {
  sort_name : string;
  sort_order : string;
  sort_formatted : string }.

(** Value of an action parameter. *)
Inductive avalue :=
| ASorts (l : list sortspec)
| AArg (a : arg).

(** A table parameter as it is sent to the server: lists by content. *)
Inductive rvalue :=
| RStr (s : string)
| RList (l : list string).

(** A value of a group-by key as the server reports it. *)
Inductive gvalue :=
| GNull
| GStr (s : string)
| GNum (repr : string).

(** A fetched frame: rows of printed cells. *)
Definition frame := list (list string).

(** A remote action invocation: the connection it goes through, the action
    name, the table parameters, the handle's stored action parameters for
    that action and the keyword arguments of the call. *)
Record request := mk_request {
  req_conn : nat;
  req_action : string;
  req_table : list (string * rvalue);
  req_defaults : list (string * avalue);
  req_args : list (string * arg) }.

(** What an action returns: severity and status, and the named results the
    code reads. *)
Record response := mk_response {
  severity : nat;
  status : string;
  ColumnInfo : option (list (string * string));
  numrows : option Z;
  Groupby : option (list (list gvalue));
  tables : list frame }.

(** A connection object: whether it is still referenced by its owner, and
    the state of its identifier generator. *)
Record conn := mk_conn {
  alive : bool;
  next_id : nat }.

(** The world: the store of Python list objects (a location is an index),
    the connection objects, the remote actions invoked so far (oldest
    first) and the server. *)
Record world := mk_world {
  heap : list (list string);
  conns : list conn;
  trace : list request;
  server : request -> response }.

(** ** The state and exception monad *)

Inductive outcome (A : Type) :=
| Ok (a : A) (w : world)
| Raise (e : exn) (w : world).
Arguments Ok {A} a w.
Arguments Raise {A} e w.

Definition M (A : Type) : Type := world -> outcome A.

Definition ret {A} (a : A) : M A := fun w => Ok a w.

Definition bind {A B} (m : M A) (k : A -> M B) : M B :=
  fun w => match m w with
           | Ok a w' => k a w'
           | Raise e w' => Raise e w'
           end.

Definition raise {A} (e : exn) : M A := fun w => Raise e w.

Notation "x <- m ;; k" := (bind m (fun x => k))
  (at level 100, m at next level, right associativity).
Notation "m ;;; k" := (bind m (fun _ => k))
  (at level 100, right associativity).

(** Stepping through a computation. *)
Ltac mret := unfold bind at 1; unfold ret at 1; cbv beta iota.
Ltac mrun H := unfold bind at 1; rewrite H; cbv beta iota.
Ltac mcbv := cbv beta iota zeta delta [bind ret raise].

Definition world_of {A} (o : outcome A) : world :=
  match o with Ok _ w => w | Raise _ w => w end.

Definition is_swat_error (e : exn) : bool :=
  match e with SWATError _ => true | _ => false end.

(** [try: m  except SWATError: pass] *)
Definition try_swat (m : M unit) : M unit :=
  fun w => match m w with
           | Ok a w' => Ok a w'
           | Raise e w' => if is_swat_error e then Ok tt w' else Raise e w'
           end.

Fixpoint mapM {A B} (f : A -> M B) (l : list A) : M (list B) :=
  match l with
  | [] => ret []
  | x :: l' => y <- f x ;; ys <- mapM f l' ;; ret (y :: ys)
  end.

(** *** The store of list objects *)

(** [list(...)] or a list display: a new list object. *)
Definition alloc (l : list string) : M nat :=
  fun w => Ok (length (heap w))
              (mk_world (heap w ++ [l]) (conns w) (trace w) (server w)).

Definition heap_get (h : list (list string)) (r : nat) : list string :=
  default [] (h !! r).

Definition read (r : nat) : M (list string) :=
  fun w => Ok (heap_get (heap w) r) w.

Definition write (r : nat) (l : list string) : M unit :=
  fun w => Ok tt (mk_world (<[r := l]> (heap w)) (conns w) (trace w) (server w)).

(** ** More of Python's built-in behaviour *)

Module Py.

(** [seq[i]] with Python's negative positions; [None] is an [IndexError]. *)
Definition index {A} (l : list A) (i : Z) : option A :=
  let n := Z.of_nat (length l) in
  if (0 <=? i)%Z then l !! Z.to_nat i
  else if (0 <=? i + n)%Z then l !! Z.to_nat (i + n)
  else None.

(** [list(range(n))] *)
Definition range (n : Z) : list Z :=
  map Z.of_nat (seq 0 (Z.to_nat n)).

(** [seq[start:stop:step]], following [slice.indices]; [None] is the
    [ValueError] for a zero step. *)
Definition slice {A} (l : list A) (start stop step : option Z)
  : option (list A) :=
  let n := Z.of_nat (length l) in
  let st := default 1%Z step in
  if (st =? 0)%Z then None
  else
    let lower := if (st <? 0)%Z then (-1)%Z else 0%Z in
    let upper := if (st <? 0)%Z then (n - 1)%Z else n in
    let clip (x : Z) :=
      if (x <? 0)%Z then Z.max (x + n) lower else Z.min x upper in
    let a := match start with
             | None => if (st <? 0)%Z then upper else lower
             | Some x => clip x
             end in
    let b := match stop with
             | None => if (st <? 0)%Z then lower else upper
             | Some x => clip x
             end in
    let count :=
      if (st >? 0)%Z
      then (if (a <? b)%Z then (b - a + st - 1) / st else 0)%Z
      else (if (b <? a)%Z then (a - b - st - 1) / (- st) else 0)%Z in
    Some (omap (fun i => l !! Z.to_nat (a + Z.of_nat i * st))
               (seq 0 (Z.to_nat count))).

(** [lst.index(x)]; [None] is the [ValueError]. *)
Fixpoint find_index (x : string) (l : list string) : option Z :=
  match l with
  | [] => None
  | y :: l' => if String.eqb x y then Some 0%Z
               else option_map Z.succ (find_index x l')
  end.

(** [code.format] with keywords, for templates whose fields are plain names:
    a doubled brace is a literal brace, [{name}] is replaced by the
    keyword's value. *)
Fixpoint format_from (kw : list (string * string)) (s : string)
    (field : option string) : exn + string :=
  match s with
  | EmptyString =>
      match field with
      | None => inr ""
      | Some _ => inl (ValueError "expected '}' before end of string")
      end
  | String c s' =>
      match field with
      | None =>
          if Ascii.eqb c "{" then
            match s' with
            | String c' s'' =>
                if Ascii.eqb c' "{"
                then sum_map id (String "{") (format_from kw s'' None)
                else format_from kw s' (Some "")
            | EmptyString => inl (ValueError "Single '{' encountered in format string")
            end
          else if Ascii.eqb c "}" then
            match s' with
            | String c' s'' =>
                if Ascii.eqb c' "}"
                then sum_map id (String "}") (format_from kw s'' None)
                else inl (ValueError "Single '}' encountered in format string")
            | EmptyString => inl (ValueError "Single '}' encountered in format string")
            end
          else sum_map id (String c) (format_from kw s' None)
      | Some acc =>
          if Ascii.eqb c "}" then
            match acc with
            | EmptyString => inl (IndexError "Replacement index 0 out of range")
            | _ =>
                match list_find (fun kv => fst kv = acc) kw with
                | Some (_, (_, v)) =>
                    sum_map id (String.append v) (format_from kw s' None)
                | None => inl (KeyError (PStr acc))
                end
            end
          else format_from kw s' (Some (acc ++ String c "")%string)
      end
  end.

Definition format (code : string) (kw : list (string * string)) : M string :=
  match format_from kw code None with
  | inr s => ret s
  | inl e => raise e
  end.

Definition squote : ascii := ascii_of_nat 39.
Definition backslash : ascii := ascii_of_nat 92.

Definition hex_digit (n : nat) : ascii :=
  nth n (list_ascii_of_string "0123456789abcdef") "0"%char.

(** One character as [repr] writes it between quotes [q]: the quote and
    the backslash are escaped, tab, line feed and carriage return have
    their letter, another control character is written in hexadecimal;
    any other character is kept. *)
Definition escape_char (q c : ascii) : string :=
  let n := nat_of_ascii c in
  if Ascii.eqb c q || Ascii.eqb c backslash then String backslash (String c "")
  else if (n =? 9)%nat then String backslash "t"
  else if (n =? 10)%nat then String backslash "n"
  else if (n =? 13)%nat then String backslash "r"
  else if (n <? 32)%nat || (n =? 127)%nat
  then String backslash
         (String "x" (String (hex_digit (n / 16)) (String (hex_digit (n mod 16)) "")))
  else String c "".

Fixpoint escape (q : ascii) (s : string) : string :=
  match s with
  | EmptyString => EmptyString
  | String c s' => escape_char q c +:+ escape q s'
  end.

Definition has_char (c : ascii) (s : string) : bool :=
  existsb (Ascii.eqb c) (list_ascii_of_string s).

(** [repr] of a string of ASCII characters: single quotes, unless the
    text has a single quote and no double quote.  (Outside ASCII [repr]
    keeps the printable characters and escapes the others.) *)
Definition repr (s : string) : string :=
  if has_char squote s && negb (has_char PyStr.dquote s)
  then String PyStr.dquote (escape PyStr.dquote s +:+ String PyStr.dquote "")
  else String squote (escape squote s +:+ String squote "").

Definition chop_newline (s : string) : option string :=
  match rev (list_ascii_of_string s) with
  | c :: r => if Ascii.eqb c (ascii_of_nat 10)
              then Some (string_of_list_ascii (rev r)) else None
  | [] => None
  end.

Fixpoint take_while {A} (p : A -> bool) (l : list A) : list A :=
  match l with
  | x :: l' => if p x then x :: take_while p l' else []
  | [] => []
  end.

(** The pattern of generated column names, anchored at both ends: an
    underscore, word characters, an underscore, letters or digits, an
    underscore. *)
Definition generated_exact (s : string) : bool :=
  match list_ascii_of_string s with
  | c :: rest =>
      Ascii.eqb c "_" &&
      match rev rest with
      | u :: r =>
          Ascii.eqb u "_" &&
          let b := take_while PyStr.is_alnum r in
          match b, List.skipn (length b) r with
          | _ :: _, u' :: (_ :: _) as a =>
              Ascii.eqb u' "_" && forallb PyStr.is_word a
          | _, _ => false
          end
      | [] => false
      end
  | [] => false
  end.

(** [re.match(r'^_\w+_[A-Za-z0-9]+_$', name)]: the end anchor also holds
    just before a final line feed. *)
Definition generated_name (s : string) : bool :=
  generated_exact s ||
  match chop_newline s with
  | Some s' => generated_exact s'
  | None => false
  end.

End Py.

Example slice_examples :
  Py.slice ["a"; "b"; "c"; "d"] (Some 1%Z) (Some (-1)%Z) None = Some ["b"; "c"] /\
  Py.slice ["a"; "b"; "c"; "d"] None None (Some (-1)%Z) = Some ["d"; "c"; "b"; "a"] /\
  Py.slice ["a"; "b"; "c"; "d"] (Some 0%Z) (Some 9%Z) (Some 2%Z) = Some ["a"; "c"] /\
  Py.slice ["a"; "b"] None None (Some 0%Z) = None.
Proof. repeat split; reflexivity. Qed.

Example format_examples :
  Py.format_from [("value", "x"); ("other", "3")] "({value}) - ({other})" None
    = inr "(x) - (3)" /\
  Py.format_from [("value", "x")] "{out} = {value}" None = inl (KeyError (PStr "out")).
Proof. split; reflexivity. Qed.

Example generated_name_examples :
  Py.generated_name "_add_12_" = true /\
  Py.generated_name "_str_lower_3_" = true /\
  Py.generated_name "price" = false /\
  Py.generated_name "__1_" = false.
Proof. repeat split; reflexivity. Qed.

(** ** Parameter bundles *)

(** A table parameter: a string, or a reference to a list object. *)
Inductive pvalue :=
| VStr (s : string)
| VList (r : nat).

Module ParamManager.

(** Modelled from the spec: [ParamManager] ([swat/cas/utils/params.py]) is
    not part of the sources at hand.  The bundle is an ordered store; keys
    are compared without regard to case and keep the casing they were
    first set with.  The keys are names of parameters, ASCII identifiers:
    they are compared by [PyStr.lower]. *)
Definition key_eqb (a b : string) : bool :=
  String.eqb (PyStr.lower a) (PyStr.lower b).

Fixpoint get {V} (k : string) (p : list (string * V)) : option V :=
  match p with
  | [] => None
  | (k', v) :: p' => if key_eqb k k' then Some v else get k p'
  end.

Fixpoint set {V} (k : string) (v : V) (p : list (string * V))
  : list (string * V) :=
  match p with
  | [] => [(k, v)]
  | (k', v') :: p' =>
      if key_eqb k k' then (k', v) :: p' else (k', v') :: set k v p'
  end.

Definition has {V} (k : string) (p : list (string * V)) : bool :=
  match get k p with Some _ => true | None => false end.

Fixpoint del {V} (k : string) (p : list (string * V)) : list (string * V) :=
  match p with
  | [] => []
  | (k', v') :: p' => if key_eqb k k' then p' else (k', v') :: del k p'
  end.

(** Construction from keyword arguments, in order. *)
Definition of_kwargs {V} (kw : list (string * V)) : list (string * V) :=
  fold_left (fun p kv => set (fst kv) (snd kv) p) kw [].

End ParamManager.

(** ** Handles *)

Inductive kind := CASTable | CASColumn.

(** A [CASTable] or [CASColumn] object: its class, its parameter bundle,
    its action parameters and its weak reference to a connection. *)
Record handle := mk_handle {
  h_kind : kind;
  params : list (string * pvalue);
  _action_params : list (string * list (string * avalue));
  _connection : option nat }.

Definition is_column (h : handle) : bool :=
  match h_kind h with CASColumn => true | CASTable => false end.

Definition get_param (h : handle) (k : string) : option pvalue :=
  ParamManager.get k (params h).

Definition has_param (h : handle) (k : string) : bool :=
  ParamManager.has k (params h).

Definition set_param (h : handle) (k : string) (v : pvalue) : handle :=
  mk_handle (h_kind h) (ParamManager.set k v (params h))
            (_action_params h) (_connection h).

Definition del_param (h : handle) (k : string) : handle :=
  mk_handle (h_kind h) (ParamManager.del k (params h))
            (_action_params h) (_connection h).

(** Modelled from the spec: [ActionParamManager] is not part of the sources
    at hand.  [get_action_params(name, {})] yields the parameters stored for
    an action, [set_action_params(name, **kw)] stores each of them. *)
Definition get_action_params (h : handle) (name : string)
  : list (string * avalue) :=
  default [] (ParamManager.get name (_action_params h)).

Definition set_action_params (h : handle) (name : string)
    (kw : list (string * avalue)) : handle :=
  let cur := get_action_params h name in
  let new := fold_left (fun p kv => ParamManager.set (fst kv) (snd kv) p) kw cur in
  mk_handle (h_kind h) (params h)
            (ParamManager.set name new (_action_params h)) (_connection h).

(** Truth value of a parameter value: a non-empty string or list. *)
Definition truthy (v : option pvalue) : M bool :=
  match v with
  | None => ret false
  | Some (VStr s) => ret (PyStr.truthy s)
  | Some (VList r) => l <- read r ;; ret (match l with [] => false | _ => true end)
  end.

(** The parameters as the server receives them. *)
Definition resolve (hp : list (list string)) (v : pvalue) : rvalue :=
  match v with
  | VStr s => RStr s
  | VList r => RList (heap_get hp r)
  end.

Definition snapshot (hp : list (list string)) (p : list (string * pvalue))
  : list (string * rvalue) :=
  map (fun kv => (fst kv, resolve hp (snd kv))) p.

(** ** Connections *)

(** Calling a weak reference: the connection if it is still alive. *)
Definition deref (c : nat) : M (option nat) :=
  fun w => Ok (match conns w !! c with
               | Some cn => if alive cn then Some c else None
               | None => None
               end) w.

(** [CASTable.set_connection]: [None] clears the reference, a connection
    is kept as a weak reference. *)
Definition set_connection (h : handle) (connection : option nat) : handle :=
  mk_handle (h_kind h) (params h) (_action_params h) connection.

(** [CASTable.get_connection] *)
Definition get_connection (h : handle) : M nat :=
  conn <- match _connection h with
          | Some r => deref r
          | None => ret None
          end ;;
  match conn with
  | None => raise (SWATError "No connection is currently registered")
  | Some c => ret c
  end.

(** Modelled from the spec: the connection's generator of unique suffixes
    ([_gen_id]) is a counter owned by the connection. *)
Definition _gen_id (c : nat) : M string :=
  fun w => match conns w !! c with
           | Some cn =>
               Ok (pretty (next_id cn))
                  (mk_world (heap w)
                            (<[c := mk_conn (alive cn) (S (next_id cn))]> (conns w))
                            (trace w) (server w))
           | None => Ok (pretty 0%nat) w
           end.

(** ** Remote actions *)

(** The action call itself: the request is recorded and answered.  The
    action object receives a deep copy of the table; the request holds
    that copy's content. *)
Definition invoke (c : nat) (h : handle) (name : string)
    (kwargs : list (string * arg)) : M response :=
  fun w =>
    let rq := mk_request c name (snapshot (heap w) (params h))
                         (get_action_params h name) kwargs in
    Ok (server w rq)
       (mk_world (heap w) (conns w) (trace w ++ [rq]) (server w)).

(** [CASTable.retrieve]: attribute lookup of a dotted action name resolves
    the connection first ([__getattr__]), then runs the action. *)
Definition retrieve (h : handle) (name : string)
    (kwargs : list (string * arg)) : M response :=
  c <- get_connection h ;;
  invoke c h name kwargs.

(** [CASTable._retrieve] *)
Definition _retrieve (h : handle) (name : string)
    (kwargs : list (string * arg)) : M response :=
  out <- retrieve h name
           (("_apptag", AStr "UI") :: ("_messagelevel", AStr "none") :: kwargs) ;;
  if (1 <? severity out)%nat then raise (SWATError (status out)) else ret out.

(** [CASTable._columninfo] *)
Definition _columninfo (h : handle) : M (list (string * string)) :=
  out <- _retrieve h "table.columninfo" [] ;;
  match ColumnInfo out with
  | Some ci => ret ci
  | None => raise (KeyError (PStr "ColumnInfo"))
  end.

(** [CASTable._numrows] *)
Definition _numrows (h : handle) : M Z :=
  out <- _retrieve h "simple.numrows" [] ;;
  match numrows out with
  | Some n => ret n
  | None => raise (KeyError (PStr "numrows"))
  end.

(** [CASTable.columns]: the stored [varlist] when it is non-empty (a bare
    string is refused by [pd.Index]), the server's column names otherwise.
    A parameter that is not set is not truthy. *)
Definition columns (h : handle) : M (list string) :=
  v <- truthy (get_param h "varlist") ;;
  if v then
    match get_param h "varlist" with
    | Some (VList r) => read r
    | Some (VStr s) =>
        raise (TypeError
                 ("Index(...) must be called with a collection of some kind, "
                  +:+ Py.repr s +:+ " was passed"))
    | None => ret []
    end
  else
    ci <- _columninfo h ;;
    ret (map fst ci).

(** ** Lower-casing *)

(** [str.lower].  Python lower-cases a string by the Unicode character
    database; the methods below use it as a function on strings and are
    modelled for any such function.  The worked examples at the end are
    evaluated with [PyStr.lower], which is [str.lower] on ASCII text. *)
Class StrLower := str_lower : string -> string.

Section Model.

Context {lowering : StrLower}.

(** ** Module-level helpers *)

(** [_escape_string] *)
Definition _escape_string (val : string) : string := PyStr.double_quotes val.

(** [_nlit]: [re.match] only looks at the beginning of the name, and the
    pattern's [\w*] may be empty, so a name passes as soon as its first
    character is a letter or an underscore. *)
Definition _nlit (name : string) : string :=
  match name with
  | String c _ =>
      if PyStr.is_alpha c || Ascii.eqb c "_" then name
      else String PyStr.dquote (_escape_string name ++ String PyStr.dquote "n")
  | EmptyString => String PyStr.dquote (String PyStr.dquote "n")
  end.

(** An argument of the [append_*] methods: a string, a stored list, or a
    list or tuple built by the caller. *)
Inductive item :=
| IStr (s : string)
| IRef (r : nat)
| IList (l : list item).

Definition item_of (v : pvalue) : item :=
  match v with VStr s => IStr s | VList r => IRef r end.

(** [_flatten]: all the leaves, in order. *)
Fixpoint flatten_item (hp : list (list string)) (it : item) : list string :=
  match it with
  | IStr s => [s]
  | IRef r => heap_get hp r
  | IList l => concat (map (flatten_item hp) l)
  end.

Definition _flatten (items : list item) : M (list string) :=
  fun w => Ok (concat (map (flatten_item (heap w)) items)) w.

Definition mem (x : string) (l : list string) : bool :=
  existsb (String.eqb x) l.

(** [_get_unique]: the comprehension keeps an item unless it (or, with
    [lowercase], its lower-case form) has been seen; what is remembered is
    the item as written. *)
Fixpoint get_unique_from (lowercase : bool) (seen : list string)
    (seq : list string) : list string :=
  match seq with
  | [] => []
  | x :: rest =>
      if mem x seen || (lowercase && mem (str_lower x) seen)
      then get_unique_from lowercase seen rest
      else x :: get_unique_from lowercase (x :: seen) rest
  end.

Definition _get_unique (seq : list string) (lowercase : bool) : list string :=
  get_unique_from lowercase [] seq.

(** ** The [append_*] methods *)

(** The list object a method works on: the stored list itself when the
    parameter holds one, a new one-element list for a scalar
    ([code = [code]]), a new empty list for the default value. *)
Definition as_list (v : option pvalue) : M nat :=
  match v with
  | Some (VList r) => ret r
  | Some (VStr s) => alloc [s]
  | None => alloc []
  end.

(** [for item in _flatten(items): if item: lst.append(item)]: the list
    object is extended in place. *)
Definition extend (r : nat) (items : list item) : M unit :=
  new <- _flatten items ;;
  old <- read r ;;
  write r (old ++ List.filter PyStr.truthy new).

(** [append_varlist(..., inplace=False)]: the new list. *)
Definition append_varlist_value (h : handle) (items : list item) : M nat :=
  v <- truthy (get_param h "varlist") ;;
  r <- (if v then as_list (get_param h "varlist")
        else cols <- columns h ;; alloc cols) ;;
  extend r items ;;;
  l <- read r ;;
  alloc (_get_unique l true).

(** [CASTable.append_varlist] with the default [inplace=True] *)
Definition append_varlist (h : handle) (items : list item) : M handle :=
  r <- append_varlist_value h items ;;
  ret (set_param h "varlist" (VList r)).

(** The common body of [append_compvars] and [append_groupby]. *)
Definition append_names_value (key : string) (h : handle) (items : list item)
  : M nat :=
  r <- as_list (get_param h key) ;;
  extend r items ;;;
  l <- read r ;;
  alloc (_get_unique l true).

(** [CASTable.append_compvars] *)
Definition append_compvars (h : handle) (items : list item) : M handle :=
  r <- append_names_value "compvars" h items ;;
  ret (set_param h "compvars" (VList r)).

(** [CASTable.append_groupby] *)
Definition append_groupby (h : handle) (items : list item) : M handle :=
  r <- append_names_value "groupby" h items ;;
  ret (set_param h "groupby" (VList r)).

Definition terminate (block : string) : string :=
  if PyStr.ends_with_semicolon block then block
  else PyStr.rstrip block ++ "; ".

(** [append_comppgm(..., inplace=False)]: the new code. *)
Definition append_comppgm_value (h : handle) (items : list item) : M string :=
  r <- as_list (get_param h "comppgm") ;;
  extend r items ;;;
  code <- read r ;;
  write r (map terminate code) ;;;
  code <- read r ;;
  ret (PyStr.join "" (_get_unique code false)).

(** [CASTable.append_comppgm] *)
Definition append_comppgm (h : handle) (items : list item) : M handle :=
  code <- append_comppgm_value h items ;;
  ret (set_param h "comppgm" (VStr code)).

(** [CASTable.append_computed_columns] *)
Definition append_computed_columns (h : handle) (names code : item) : M handle :=
  h1 <- append_compvars h [names] ;;
  append_comppgm h1 [code].

Definition parenthesize (x : string) : string := "(" ++ x ++ ")".

(** [append_where(..., inplace=False)]: the new predicate. *)
Definition append_where_value (h : handle) (items : list item) : M string :=
  r <- as_list (get_param h "where") ;;
  extend r items ;;;
  code <- read r ;;
  ret (PyStr.join " and "
         (_get_unique
            (map parenthesize
                 (List.filter (fun x => PyStr.truthy (PyStr.strip x)) code))
            false)).

(** [CASTable.append_where] *)
Definition append_where (h : handle) (items : list item) : M handle :=
  code <- append_where_value h items ;;
  ret (set_param h "where" (VStr code)).

(** ** Construction and copies *)

Fixpoint pop_exact {V} (k : string) (kw : list (string * V))
  : option (V * list (string * V)) :=
  match kw with
  | [] => None
  | (k', v) :: kw' =>
      if String.eqb k k' then Some (v, kw')
      else match pop_exact k kw' with
           | Some (x, rest) => Some (x, (k', v) :: rest)
           | None => None
           end
  end.

(** [type(self)] called with keywords: [__init__] needs the keyword
    [name]; the bundle is built from [name] and then the other
    keywords; the new object has no action parameters and no connection.
    The values are stored as they are passed: a list is the same object. *)
Definition init (k : kind) (kwargs : list (string * pvalue)) : M handle :=
  match pop_exact "name" kwargs with
  | Some (name, rest) =>
      ret (mk_handle k (ParamManager.of_kwargs (("name", name) :: rest)) [] None)
  | None =>
      raise (TypeError "__init__() missing 1 required positional argument: 'name'")
  end.

(** [try: tbl.set_connection(self.get_connection())  except SWATError: pass] *)
Definition share_connection (self tbl : handle) : M handle :=
  fun w => match get_connection self w with
           | Ok c w' => Ok (set_connection tbl (Some c)) w'
           | Raise e w' =>
               if is_swat_error e then Ok tbl w' else Raise e w'
           end.

(** [CASTable.__copy__].  The action parameters are kept by value: the
    copy has those of the source as they are when it is made.  ([copy.copy]
    of the parameters of an action leaves a list held in them, the sort
    keys, the same object for both handles; the store of this model holds
    the lists of the table parameters only.) *)
Definition __copy__ (self : handle) : M handle :=
  tbl <- init (h_kind self) (params self) ;;
  let tbl := mk_handle (h_kind tbl) (params tbl) (_action_params self) None in
  share_connection self tbl.

(** [copy.deepcopy] of one value, with the memo of the objects already
    copied, so that sharing inside the copied bundle is kept. *)
Definition deepcopy_value (memo : list (nat * nat)) (v : pvalue)
  : M (pvalue * list (nat * nat)) :=
  match v with
  | VStr s => ret (VStr s, memo)
  | VList r =>
      match list_find (fun m => fst m = r) memo with
      | Some (_, (_, r')) => ret (VList r', memo)
      | None =>
          l <- read r ;;
          r' <- alloc l ;;
          ret (VList r', (r, r') :: memo)
      end
  end.

Fixpoint deepcopy_params (memo : list (nat * nat)) (p : list (string * pvalue))
  : M (list (string * pvalue)) :=
  match p with
  | [] => ret []
  | (k, v) :: p' =>
      vm <- deepcopy_value memo v ;;
      rest <- deepcopy_params (snd vm) p' ;;
      ret ((k, fst vm) :: rest)
  end.

(** [CASTable.__deepcopy__] *)
Definition __deepcopy__ (self : handle) : M handle :=
  p <- deepcopy_params [] (params self) ;;
  tbl <- init (h_kind self) p ;;
  let tbl := mk_handle (h_kind tbl) (params tbl) (_action_params self) None in
  share_connection self tbl.

(** [CASTable.copy] *)
Definition copy (self : handle) (deep : bool) : M handle :=
  if deep then __deepcopy__ self else __copy__ self.

(** ** [CASTable] methods *)

(** [CASColumn.name]: the single entry of [varlist]. *)
Definition name (self : handle) : M string :=
  match get_param self "varlist" with
  | None => raise (KeyError (PStr "varlist"))
  | Some (VStr s) => ret s
  | Some (VList r) =>
      l <- read r ;;
      match l with
      | x :: _ => ret x
      | [] => raise (IndexError "list index out of range")
      end
  end.

(** [CASTable._to_column] *)
Definition _to_column (self : handle) (varname : option string) : M handle :=
  table <- __deepcopy__ self ;;
  p <- match varname with
       | Some v =>
           r <- alloc [v] ;;
           ret (ParamManager.set "varlist" (VList r) (params table))
       | None =>
           match ParamManager.get "varlist" (params table) with
           | Some (VList r) =>
               l <- read r ;;
               match l with
               | x :: _ =>
                   r' <- alloc [x] ;;
                   ret (ParamManager.set "varlist" (VList r') (params table))
               | [] => ret (params table)
               end
           | _ => ret (params table)
           end
       end ;;
  column <- init CASColumn p ;;
  let column :=
    mk_handle CASColumn (params column) (_action_params table) None in
  share_connection table column.

(** [CASTable.query]; the handle that carries the new filter is returned
    in both modes. *)
Definition query (self : handle) (expr : string) (inplace : bool)
    (engine : string) : M handle :=
  if negb (String.eqb engine "cas")
  then raise (SWATError "Only CAS queries are supported at this time.")
  else
    tbl <- (if inplace then ret self else copy self true) ;;
    append_where tbl [IStr expr].

(** One turn of the loop of [sort_values]. *)
Definition sort_step (out : handle) (col_asc : string * bool) : M handle :=
  let fetch := get_action_params out "table.fetch" in
  let spec := mk_sortspec (fst col_asc)
                (if snd col_asc then "ASCENDING" else "DESCENDING") "RAW" in
  match ParamManager.get "sortby" fetch with
  | None =>
      ret (set_action_params out "table.fetch"
             (ParamManager.set "sortby" (ASorts [spec]) fetch))
  | Some (ASorts l) =>
      ret (set_action_params out "table.fetch"
             (ParamManager.set "sortby" (ASorts (l ++ [spec])) fetch))
  | Some (AArg _) => raise (AttributeError "append")
  end.

Fixpoint foldM {A B} (f : A -> B -> M A) (a : A) (l : list B) : M A :=
  match l with
  | [] => ret a
  | x :: l' => a' <- f a x ;; foldM f a' l'
  end.

Fixpoint zip {A B} (l : list A) (l' : list B) : list (A * B) :=
  match l, l' with
  | x :: t, y :: t' => (x, y) :: zip t t'
  | _, _ => []
  end.

(** [CASTable.sort_values]: [ascending] is one flag for all the columns or
    a list of flags; the handle that carries the sort order is returned. *)
Definition sort_values (self : handle) (by_ : list string)
    (ascending : bool + list bool) (inplace : bool) : M handle :=
  out <- (if inplace then ret self else __deepcopy__ self) ;;
  let asc := match ascending with
             | inl b => repeat b (length by_)
             | inr l => l
             end in
  foldM sort_step out (zip by_ asc).

(** [CASTable.get_groupby_vars] *)
Definition get_groupby_vars (self : handle) : M (list string) :=
  v <- truthy (get_param self "groupby") ;;
  if v then
    match get_param self "groupby" with
    | Some (VList r) => l <- read r ;; ret (List.filter PyStr.truthy l)
    | Some (VStr s) => ret (List.filter PyStr.truthy [s])
    | None => ret []
    end
  else ret [].

(** *** Keys of [__getitem__] and of the location accessors *)

(** An entry of a column list or an end of a column slice. *)
Inductive colkey :=
| CInt (z : Z)
| CName (s : string).

Record rowslice := mk_rowslice {
  rstart : option Z;
  rstop : option Z;
  rstep : option Z }.

Record colslice := mk_colslice {
  cstart : option colkey;
  cstop : option colkey;
  cstep : option Z }.

(** The rows and the columns of a [(rows, cols)] position.  Of an object
    of another type the code only uses the text [str] gives of it, for
    the message of the [TypeError]. *)
Inductive rowsel :=
| RowList
| RowSlice (s : rowslice)
| RowInt (z : Z)
| RowOther (shown : string).

Inductive colsel :=
| ColList (l : list colkey)
| ColSlice (s : colslice)
| ColInt (z : Z)
| ColName (s : string)
| ColOther (shown : string).

(** The argument of an accessor's [__getitem__]. *)
Inductive position :=
| PosTuple (rows : rowsel) (cols : colsel)
| PosSlice (s : rowslice)
| PosInt (z : Z)
| PosList (shown : string)
| PosOther (shown : string).

Inductive outtype := OutTable | OutRow | OutColumn | OutScalar.

(** The dictionary [_get_table_selection] returns. *)
Record selection := mk_selection {
  sel_start : Z;
  sel_stop : Z;
  sel_varlist : option (list colkey);
  sel_computed : option (list string * list string) }.

Definition bad_step (step : option Z) : bool :=
  match step with
  | Some s => negb (s =? 0)%Z && negb (s =? 1)%Z
  | None => false
  end.

Definition missing_stmt (col : string) : string := _nlit col ++ " = .; ".

(** The loop over a list of columns: names that are not visible columns
    are declared as computed columns holding a missing value. *)
Fixpoint unknown_names (colset : list string) (cols : list colkey)
  : list string :=
  match cols with
  | [] => []
  | CInt _ :: rest => unknown_names colset rest
  | CName col :: rest =>
      if mem (str_lower col) colset then unknown_names colset rest
      else col :: unknown_names colset rest
  end.

Definition column_names (table : handle) (known : list string)
  : M (list string) :=
  match known with
  | [] => columns table
  | _ => ret known
  end.

(** The column-slice branch. *)
Definition select_colslice (table : handle) (cols : colslice)
  : M (list colkey) :=
  cs <- match cstart cols with
        | Some (CName s) =>
            columns <- column_names table [] ;;
            match Py.find_index (str_lower s) (map str_lower columns) with
            | Some i => ret (columns, Some i, true)
            | None => raise (ValueError "is not in list")
            end
        | Some (CInt i) => ret ([], Some i, false)
        | None => ret ([], None, false)
        end ;;
  let '(columns, colstart, use_names) := cs in
  ce <- match cstop cols with
        | Some (CName s) =>
            columns' <- column_names table columns ;;
            match Py.find_index (str_lower s) (map str_lower columns') with
            | Some i => ret (columns', Some (i + 1)%Z, true)
            | None => raise (ValueError "is not in list")
            end
        | Some (CInt i) => ret (columns, Some i, use_names)
        | None => ret (columns, None, use_names)
        end ;;
  let '(columns, colend, use_names) := ce in
  if use_names then
    match Py.slice columns colstart colend (cstep cols) with
    | Some l => ret (map CName l)
    | None => raise (ValueError "slice step cannot be zero")
    end
  else
    colend' <- match colend with
               | None =>
                   columns' <- column_names table columns ;;
                   ret (Z.of_nat (length columns'))
               | Some e =>
                   if (e <? 0)%Z then
                     columns' <- column_names table columns ;;
                     ret (Z.of_nat (length columns') + e)%Z
                   else ret e
               end ;;
    match Py.slice (Py.range colend') colstart (Some colend') (cstep cols) with
    | Some l => ret (map CInt l)
    | None => raise (ValueError "slice step cannot be zero")
    end.

(** The column part of a [(rows, cols)] position: the selected columns,
    the computed columns to declare, and the change of output type. *)
Definition select_cols (table : handle) (cols : colsel) (outtype_ : outtype)
  : M (list colkey * (list string * list string) * outtype) :=
  match cols with
  | ColList l =>
      columns <- columns table ;;
      let colset := map str_lower columns in
      let compvars := unknown_names colset l in
      ret (l, (compvars, map missing_stmt compvars), outtype_)
  | ColSlice s =>
      l <- select_colslice table s ;;
      ret (l, ([], []), outtype_)
  | ColInt i =>
      ret ([CInt i], ([], []),
           match outtype_ with
           | OutRow => OutScalar
           | OutTable => OutColumn
           | o => o
           end)
  | ColName s =>
      ret ([CName s], ([], []),
           match outtype_ with
           | OutRow => OutScalar
           | OutTable => OutColumn
           | o => o
           end)
  | ColOther shown =>
      raise (TypeError ("Unknown type for column indexing: " +:+ shown))
  end.

(** [x or y] on an optional integer: [None] and zero give [y]. *)
Definition or_else (x : option Z) (y : M Z) : M Z :=
  match x with
  | Some v => if (v =? 0)%Z then y else ret v
  | None => y
  end.

Definition last_row (table : handle) : M Z :=
  n <- _numrows table ;; ret (n - 1)%Z.

(** [_get_table_selection] *)
Definition _get_table_selection (table : handle) (args : position)
  : M (selection * outtype) :=
  r <- match args with
       | PosTuple rows cols =>
           rr <- match rows with
                 | RowList =>
                     raise (TypeError "Selecting and array of indexes is not supported")
                 | RowSlice s =>
                     if bad_step (rstep s)
                     then raise (TypeError "Step values in slices are not supported")
                     else ret (rstart s, rstop s, OutTable)
                 | RowInt i => ret (Some i, Some i, OutRow)
                 | RowOther shown =>
                     raise (TypeError ("Unknown type for row indexing: " +:+ shown))
                 end ;;
           let '(rowstart, rowend, outtype_) := rr in
           cc <- select_cols table cols outtype_ ;;
           let '(cols', computed, outtype') := cc in
           ret (rowstart, rowend, Some cols', computed, outtype')
       | PosSlice s =>
           if bad_step (rstep s)
           then raise (TypeError "Step values in row slices are not supported")
           else
             rowstart <- or_else (rstart s) (ret 0%Z) ;;
             rowend <- or_else (rstop s) (last_row table) ;;
             ret (Some rowstart, Some rowend, None, ([], []), OutTable)
       | PosInt i => ret (Some i, Some i, None, ([], []), OutRow)
       | PosList shown | PosOther shown =>
           raise (TypeError ("Unknown type for table indexing: " +:+ shown))
       end ;;
  let '(rowstart, rowend, cols, computed, outtype_) := r in
  let rowstart := default 0%Z rowstart in
  rowend <- match rowend with
            | Some e => ret e
            | None => last_row table
            end ;;
  ret (mk_selection rowstart rowend
         (match cols with
          | Some (c :: l) => Some (c :: l)
          | _ => None
          end)
         (match computed with
          | (v :: vs, p :: ps) => Some (v :: vs, p :: ps)
          | _ => None
          end),
       outtype_).

(** *** The location accessors ([ix], [iloc], [loc]) *)

Inductive accessor := ix | iloc | loc.

(** What an accessor hands to pandas: the row label and the frames that
    [table.fetch] returned. *)
Record fetched := mk_fetched {
  f_outtype : outtype;
  f_from : Z;
  f_frames : list frame }.

Definition fetch_kwargs (from_ to : Z) : list (string * arg) :=
  [("sastypes", ABool false); ("noindex", ABool true);
   ("from", AInt from_); ("to", AInt to)].

(** Resolution of the entries of [table.varlist] into names. *)
Fixpoint build_varlist (tbl : handle) (known : list string)
    (items : list colkey) : M (list string) :=
  match items with
  | [] => ret []
  | CName s :: rest =>
      l <- build_varlist tbl known rest ;; ret (s :: l)
  | CInt i :: rest =>
      columns <- column_names tbl known ;;
      match Py.index columns i with
      | Some c => l <- build_varlist tbl columns rest ;; ret (c :: l)
      | None => raise (IndexError "list index out of range")
      end
  end.

(** [CASTableAnyLocationAccessor.__getitem__]; [Some] result is the fetch
    handed to pandas.  The final [return tbl] of the source cannot be
    reached: the output type is a scalar or a row once the first test is
    passed, and both branches return. *)
Definition accessor_getitem (acc : accessor) (table : handle)
    (pos : position) : M fetched :=
  pos <- (if is_column table then
            match pos with
            | PosTuple _ _ => raise (TypeError "Too many indexers")
            | PosSlice s => ret (PosTuple (RowSlice s) (ColInt 0))
            | PosInt i => ret (PosTuple (RowInt i) (ColInt 0))
            | PosList _ => ret (PosTuple RowList (ColInt 0))
            | PosOther shown => ret (PosTuple (RowOther shown) (ColInt 0))
            end
          else ret pos) ;;
  sd <- _get_table_selection table pos ;;
  let '(sel, dtype) := sd in
  match dtype with
  | OutColumn | OutTable =>
      raise (TypeError "Index must result in either a scalar or a row")
  | _ =>
      (match acc with
       | ix =>
           if (sel_start sel <? 0)%Z then raise (KeyError (PInt (sel_start sel)))
           else if (sel_stop sel <? 0)%Z then raise (KeyError (PInt (sel_stop sel)))
           else ret tt
       | _ => ret tt
       end) ;;;
      sn <- (if (sel_start sel <? 0)%Z
             then n <- _numrows table ;; ret (sel_start sel + n, Some n)%Z
             else ret (sel_start sel, None)) ;;
      let '(start, numrows_) := sn in
      stop <- (if (sel_stop sel <? 0)%Z
               then
                 n <- match numrows_ with
                      | Some n => ret n
                      | None => _numrows table
                      end ;;
                 ret (sel_stop sel + n)%Z
               else ret (sel_stop sel)) ;;
      tbl <- (match sel_varlist sel, sel_computed sel with
              | None, None => ret table
              | _, _ => copy table false
              end) ;;
      tbl <- (match sel_varlist sel with
              | Some items =>
                  varlist <- build_varlist tbl [] items ;;
                  r <- alloc varlist ;;
                  ret (set_param tbl "varlist" (VList r))
              | None => ret tbl
              end) ;;
      tbl <- (match sel_computed sel with
              | Some (compvars, comppgm) =>
                  append_computed_columns tbl
                    (IList (map IStr compvars)) (IList (map IStr comppgm))
              | None => ret tbl
              end) ;;
      out <- _retrieve tbl "table.fetch" (fetch_kwargs (start + 1) stop) ;;
      ret (mk_fetched dtype start (tables out))
  end.

(** *** [CASTable.__getitem__] *)

Inductive key :=
| KName (s : string)
| KList (l : list colkey)
| KColumn (c : handle)
| KSlice (s : rowslice)
| KInt (z : Z)
| KOther.

Inductive selected :=
| Handle (h : handle)
| Fetched (f : fetched).

(** The names a list of keys stands for; [None] is the [IndexError] of a
    position outside the columns. *)
Fixpoint resolve_keys (columns : list string) (keys : list colkey)
  : option (list string) :=
  match keys with
  | [] => Some []
  | CName s :: rest => option_map (cons s) (resolve_keys columns rest)
  | CInt i :: rest =>
      match Py.index columns i with
      | Some c => option_map (cons c) (resolve_keys columns rest)
      | None => None
      end
  end.

Definition unknown (colset : list string) (names : list string) : list string :=
  List.filter (fun k => negb (mem (str_lower k) colset)) names.

(** [CASColumn._to_expression] *)
Definition _to_expression (self : handle) : M (string * item * item) :=
  n <- name self ;;
  ret (_nlit n,
       match get_param self "compvars" with
       | Some v => item_of v
       | None => IList []
       end,
       match get_param self "comppgm" with
       | Some v => item_of v
       | None => IStr ""
       end).

(** Truth value of an argument. *)
Definition item_truthy (it : item) : M bool :=
  match it with
  | IStr s => ret (PyStr.truthy s)
  | IRef r => l <- read r ;; ret (match l with [] => false | _ => true end)
  | IList l => ret (match l with [] => false | _ => true end)
  end.

Definition key_payload (k : key) : payload :=
  match k with
  | KName s => PStr s
  | KInt i => PInt i
  | _ => PObj
  end.

Definition __getitem__ (self : handle) (k : key) : M selected :=
  match k, is_column self with
  | KName s, false =>
      cols <- columns self ;;
      if mem (str_lower s) (map str_lower cols)
      then c <- _to_column self (Some s) ;; ret (Handle c)
      else raise (KeyError (PStr s))
  | KList keys, false =>
      out <- __deepcopy__ self ;;
      cols <- columns out ;;
      let colset := map str_lower cols in
      match resolve_keys cols keys with
      | None => raise (IndexError "list index out of range")
      | Some varlist =>
          let compvars := unknown colset varlist in
          r <- alloc varlist ;;
          let out := set_param out "varlist" (VList r) in
          match compvars with
          | [] => ret (Handle out)
          | _ =>
              out <- append_computed_columns out
                       (IList (map IStr compvars))
                       (IList (map IStr (map missing_stmt compvars))) ;;
              ret (Handle out)
          end
      end
  | KColumn c, _ =>
      out <- __deepcopy__ self ;;
      e <- _to_expression c ;;
      let '(expr, ecompvars, ecomppgm) := e in
      out <- append_where out [IStr expr] ;;
      t <- item_truthy ecompvars ;;
      out <- (if t then append_compvars out [ecompvars] else ret out) ;;
      t <- item_truthy ecomppgm ;;
      out <- (if t then append_comppgm out [ecomppgm] else ret out) ;;
      match get_param out "varlist" with
      | None =>
          cols <- columns self ;;
          r <- alloc cols ;;
          ret (Handle (set_param out "varlist" (VList r)))
      | Some _ => ret (Handle out)
      end
  | KSlice s, _ =>
      f <- accessor_getitem ix self (PosSlice s) ;; ret (Fetched f)
  | KInt i, true =>
      f <- accessor_getitem ix self (PosInt i) ;; ret (Fetched f)
  | _, _ => raise (KeyError (key_payload k))
  end.

(** *** Groups *)

Definition group_where (key_ : string) (value : gvalue) : string :=
  match value with
  | GNull => _nlit key_ ++ " = ."
  | GStr s =>
      _nlit key_ ++ " = " ++
      String PyStr.dquote (_escape_string s ++ String PyStr.dquote "")
  | GNum r => _nlit key_ ++ " = " ++ r
  end.

(** [CASTableGroupBy.get_group] on the grouped table [_table]. *)
Definition get_group (_table : handle) (_by : list string)
    (name_ : list gvalue) : M handle :=
  grptbl <- copy _table false ;;
  foldM (fun g kv => append_where g [IStr (group_where (fst kv) (snd kv))])
        grptbl (zip _by name_).

(** [[x[1] for x in tbl.groupby(groups)]]: the constructor of
    [CASTableGroupBy] followed by its [__iter__]. *)
Definition groupby_tables (tbl : handle) (by_ : list string)
  : M (list handle) :=
  _table <- copy tbl true ;;
  _table <- append_groupby _table [IList (map IStr by_)] ;;
  sel <- __getitem__ _table (KList (map CName by_)) ;;
  match sel with
  | Fetched _ => raise (AttributeError "simple")
  | Handle keyed =>
      out <- retrieve keyed "simple.groupby" [] ;;
      match Groupby out with
      | None => raise (KeyError (PStr "Groupby"))
      | Some rows => mapM (get_group _table by_) rows
      end
  end.

(** *** [head], [tail], [slice] *)

Definition slice_kwargs (start stop : Z) : list (string * arg) :=
  [("sastypes", ABool false); ("from_", AInt (start + 1));
   ("to", AInt (stop + 1))].

(** One turn of the loop over the groups; [start] and [stop] are the
    loop's variables and keep their new values for the next group. *)
Definition slice_group (st : Z * option Z * list frame) (group : handle)
  : M (Z * option Z * list frame) :=
  let '(start, stop, out) := st in
  let stop := default (start + 5)%Z stop in
  ss <- (if (start <? 0)%Z || (stop <? 0)%Z then
           n <- _numrows group ;;
           ret (if (start <? 0)%Z then (n + start)%Z else start,
                if (stop <? 0)%Z then (n + stop)%Z else stop)
         else ret (start, stop)) ;;
  let '(start, stop) := ss in
  r <- _retrieve group "table.fetch" (slice_kwargs start stop) ;;
  ret (start, Some stop, out ++ tables r).

(** [CASTable.slice]: the frames handed to [pd.concat]. *)
Definition slice (self : handle) (start : Z) (stop : option Z)
    (columns_ : option (list string)) : M (list frame) :=
  tbl <- match columns_ with
         | Some cols =>
             t <- copy self false ;;
             r <- alloc cols ;;
             ret (set_param t "varlist" (VList r))
         | None => ret self
         end ;;
  groups <- get_groupby_vars self ;;
  groups <- match groups with
            | [] => ret [tbl]
            | _ => groupby_tables tbl groups
            end ;;
  st <- foldM slice_group (start, stop, []) groups ;;
  ret (snd st).


(** [CASTable.tail] *)
Definition tail (self : handle) (n : Z) (columns_ : option (list string))
  : M (list frame) :=
  slice self (- n) (Some (-1)%Z) columns_.

(** [CASColumn.slice]: the fetch of [CASTable.slice], then the selection
    of the column by its name. *)
Definition column_slice (self : handle) (start : Z) (stop : option Z)
  : M (list frame) :=
  out <- slice self start stop None ;;
  _ <- name self ;;
  ret out.

(** [CASColumn.head] *)
Definition column_head (self : handle) (n : Z) : M (list frame) :=
  column_slice self 0 (Some (n - 1)%Z).

(** [CASColumn.tail] *)
Definition column_tail (self : handle) (n : Z) : M (list frame) :=
  column_slice self (- n) (Some (-1)%Z).

(** ** [CASColumn] methods *)

(** An operand of a column operator: a [CASColumn]; a [CASTable] that is
    not a column, or any other object, of which the code only uses the
    text [str] gives; a string. *)
Inductive pyobj :=
| Column (c : handle)
| Table (t : handle) (printed : string)
| Text (s : string)
| Other (printed : string).

Inductive operand :=
| Scalar (x : pyobj)
| Items (l : list pyobj).

(** [CASColumn.dtype] *)
Definition dtype (self : handle) : M string :=
  ci <- _columninfo self ;;
  match ci with
  | (_, t) :: _ => ret t
  | [] => raise (KeyError (PInt 0))
  end.

Definition character_types : list string :=
  ["char"; "varchar"; "binary"; "varbinary"].

(** [CASColumn._is_numeric] *)
Definition _is_numeric (self : handle) : M bool :=
  t <- dtype self ;; ret (negb (mem t character_types)).

(** [CASColumn._is_character] *)
Definition _is_character (self : handle) : M bool :=
  t <- dtype self ;; ret (mem t character_types).

Definition quoted (s : string) : string :=
  String PyStr.dquote (_escape_string s +:+ String PyStr.dquote "").

(** What one keyword of [_compute] contributes: computed variables,
    code, and the text that replaces the keyword in the template. *)
Definition render_item (x : pyobj) : M (list item * list item * string) :=
  match x with
  | Column c =>
      e <- _to_expression c ;;
      let '(aexpr, acompvars, acomppgm) := e in
      ret ([acompvars], [acomppgm], aexpr)
  | Text s => ret ([], [], quoted s)
  | Table _ p | Other p => ret ([], [], p)
  end.

Fixpoint render_items (l : list pyobj)
  : M (list item * list item * list string) :=
  match l with
  | [] => ret ([], [], [])
  | x :: rest =>
      a <- render_item x ;;
      b <- render_items rest ;;
      let '(v, p, s) := a in
      let '(vs, ps, ss) := b in
      ret (v ++ vs, p ++ ps, s :: ss)
  end.

Definition render_operand (use_quotes : bool) (value : operand)
  : M (list item * list item * string) :=
  match value with
  | Scalar (Column c) => render_item (Column c)
  | Scalar (Text s) => ret ([], [], if use_quotes then quoted s else s)
  | Scalar (Table _ p) | Scalar (Other p) => ret ([], [], p)
  | Items l =>
      r <- render_items l ;;
      let '(v, p, items) := r in
      ret (v, p, match items with
                 | [] => "[]"
                 | _ => "(" +:+ PyStr.join ", " items +:+ ")"
                 end)
  end.

Fixpoint render_kwargs (use_quotes : bool) (kwargs : list (string * operand))
  : M (list item * list item * list (string * string)) :=
  match kwargs with
  | [] => ret ([], [], [])
  | (k, value) :: rest =>
      a <- render_operand use_quotes value ;;
      b <- render_kwargs use_quotes rest ;;
      let '(v, p, s) := a in
      let '(vs, ps, kw) := b in
      ret (v ++ vs, p ++ ps, (k, s) :: kw)
  end.

(** [outname in self.get_param('compvars', [])] *)
Definition in_compvars (self : handle) (outname : string) : M bool :=
  match get_param self "compvars" with
  | None => ret false
  | Some (VStr s) => ret (PyStr.contains outname s)
  | Some (VList r) => l <- read r ;; ret (mem outname l)
  end.

(** [CASColumn._compute] *)
Definition _compute (self : handle) (funcname code : string)
    (use_quotes : bool) (extra_compvars extra_comppgm : list item)
    (add_length : bool) (dtype_ : option string)
    (kwargs : list (string * operand)) : M handle :=
  out <- __deepcopy__ self ;;
  c <- get_connection self ;;
  id_ <- _gen_id c ;;
  let outname := "_" +:+ funcname +:+ "_" +:+ id_ +:+ "_" in
  r <- alloc [outname] ;;
  let out := set_param out "varlist" (VList r) in
  present <- in_compvars self outname ;;
  if present then ret out
  else
    let length_stmt :=
      match dtype_ with
      | Some (String a d) => [IStr ("length " +:+ _nlit outname +:+ " " +:+ String a d)]
      | _ => if add_length
             then [IStr ("length " +:+ _nlit outname +:+ " varchar(*)")]
             else []
      end in
    let compvars := IStr outname ::
      match extra_compvars with [] => [] | _ => [IList extra_compvars] end in
    let comppgm := length_stmt ++
      match extra_comppgm with [] => [] | _ => [IList extra_comppgm] end in
    rk <- render_kwargs use_quotes kwargs ;;
    let '(vars, pgm, kw) := rk in
    n <- name self ;;
    let kw := ("value", _nlit n) :: ("out", _nlit outname) :: kw in
    let code := if PyStr.contains "{out}" code then code
                else "{out} = " +:+ code in
    let code := if PyStr.ends_with_semicolon code then code
                else code +:+ "; " in
    stmt <- Py.format code kw ;;
    append_computed_columns out
      (IList (compvars ++ vars)) (IList (comppgm ++ pgm ++ [IStr stmt])).

(** [OPERATOR_NAMES.get(operator, operator)] *)
Definition operator_name (operator : string) : string :=
  match list_find (fun kv => fst kv = operator)
          [("+", "add"); ("-", "sub"); ("*", "mul"); ("/", "truediv");
           ("//", "floordiv"); ("**", "pow"); ("%", "mod"); ("||", "cat");
           (">", "gt"); ("<", "lt"); (">=", "ge"); ("<=", "le");
           ("==", "eq"); ("=", "eq"); ("^=", "ne"); ("!=", "ne")] with
  | Some (_, (_, n)) => n
  | None => operator
  end.

(** [CASColumn._compare] *)
Definition _compare (self : handle) (operator : string) (other : pyobj)
  : M handle :=
  l <- _to_expression self ;;
  let '(left_, _, _) := l in
  r <- match other with
       | Column c =>
           e <- _to_expression c ;;
           let '(right_, rcompvars, rcomppgm) := e in
           ret (right_, [rcompvars], [rcomppgm])
       | Text s => ret (Py.repr s, [], [])
       | Table _ p | Other p => ret (p, [], [])
       end ;;
  let '(right_, compvars, comppgm) := r in
  _compute self (operator_name operator)
    ("(" +:+ left_ +:+ " " +:+ operator +:+ " " +:+ right_ +:+ ")")
    true compvars comppgm false None [].

Definition lt (self : handle) (other : pyobj) := _compare self "<" other.
Definition le (self : handle) (other : pyobj) := _compare self "<=" other.
Definition ge (self : handle) (other : pyobj) := _compare self ">=" other.
Definition ne (self : handle) (other : pyobj) := _compare self "^=" other.
Definition eq (self : handle) (other : pyobj) := _compare self "=" other.
Definition __and__ (self : handle) (arg_ : pyobj) := _compare self "and" arg_.
Definition __or__ (self : handle) (arg_ : pyobj) := _compare self "or" arg_.

(** The shape shared by [sub], [div], [floordiv], [mod] and [pow]: a
    character column refuses the operator. *)
Definition numeric_only (self : handle) (error funcname code : string)
    (other : pyobj) : M handle :=
  ch <- _is_character self ;;
  if ch then raise (AttributeError error)
  else _compute self funcname code true [] [] false None
         [("other", Scalar other)].

(** [CASColumn.sub] *)
Definition sub (self : handle) (other : pyobj) : M handle :=
  numeric_only self "sub" "sub" "({value}) - ({other})" other.

(** [CASColumn.div]; [truediv] calls it. *)
Definition div (self : handle) (other : pyobj) : M handle :=
  numeric_only self "div" "div" "({value}) / ({other})" other.

Definition truediv (self : handle) (other : pyobj) : M handle :=
  div self other.

(** [CASColumn.floordiv] *)
Definition floordiv (self : handle) (other : pyobj) : M handle :=
  numeric_only self "floordiv" "div" "floor(({value}) / ({other}))" other.

(** [CASColumn.mod] *)
Definition mod_ (self : handle) (other : pyobj) : M handle :=
  numeric_only self "mod" "mod" "mod({value}, {other})" other.

(** [CASColumn.pow] *)
Definition pow (self : handle) (other : pyobj) : M handle :=
  numeric_only self "pow" "pow" "({value})**({other})" other.

Definition trim_for (n : string) : string :=
  if Py.generated_name n then "" else "trim".

(** [CASColumn.add] *)
Definition add (self : handle) (other : pyobj) : M handle :=
  ch <- _is_character self ;;
  if ch then
    n <- name self ;;
    trim_other <- match other with
                  | Column c => on <- name c ;; ret (trim_for on)
                  | _ => ret ""
                  end ;;
    _compute self "add"
      (trim_for n +:+ "({value}) || " +:+ trim_other +:+ "({other})")
      true [] [] true None [("other", Scalar other)]
  else
    _compute self "add" "({value}) + ({other})" true [] [] false None
      [("other", Scalar other)].

(** [CASColumn.str] followed by [repeat]: the accessor is refused on a
    numeric column. *)
Definition str_repeat (self : handle) (repeats : pyobj) : M handle :=
  num <- _is_numeric self ;;
  if num then raise (TypeError "string methods are not usable on numeric columns")
  else
    n <- name self ;;
    _compute self "repeat"
      ("repeat(" +:+ trim_for n +:+ "({value}), {repeats}-1)")
      true [] [] true None [("repeats", Scalar repeats)].

(** [CASColumn.mul] *)
Definition mul (self : handle) (other : pyobj) : M handle :=
  ch <- _is_character self ;;
  if ch then str_repeat self other
  else _compute self "mul" "({value}) * ({other})" true [] [] false None
         [("other", Scalar other)].

(** ** Equality *)

Definition rvalue_eqb (a b : rvalue) : bool :=
  match a, b with
  | RStr x, RStr y => String.eqb x y
  | RList x, RList y => bool_decide (x = y)
  | _, _ => false
  end.

Definition same_at (p q : list (string * rvalue)) (k : string) : bool :=
  match ParamManager.get k p, ParamManager.get k q with
  | Some a, Some b => rvalue_eqb a b
  | None, None => true
  | _, _ => false
  end.

(** Modelled from the spec: equality of two bundles is the agreement of
    their key sets and of the values under each key, in any order. *)
Definition params_eqb (p q : list (string * rvalue)) : bool :=
  forallb (same_at p q) (map fst p) && forallb (same_at p q) (map fst q).

(** [CASTable.__eq__] *)
Definition CASTable___eq__ (self : handle) (other : pyobj) : M bool :=
  fun w =>
    Ok (match other with
        | Column o | Table o _ =>
            params_eqb (snapshot (heap w) (params self))
                       (snapshot (heap w) (params o))
        | _ => false
        end) w.

(** [CASColumn.__eq__] *)
Definition CASColumn___eq__ (self : handle) (other : pyobj) : M handle :=
  eq self other.

Inductive eq_value :=
| EqBool (b : bool)
| EqColumn (c : handle).

(** The expression [a == b] for a handle [a]: Python calls the method of
    the class of [a], except that a right operand whose class is a proper
    subclass of the class of [a] is asked first. *)
Definition equals (a : handle) (printed_a : string) (b : pyobj) : M eq_value :=
  if is_column a then
    c <- CASColumn___eq__ a b ;; ret (EqColumn c)
  else
    match b with
    | Column cb =>
        c <- CASColumn___eq__ cb (Table a printed_a) ;; ret (EqColumn c)
    | _ => r <- CASTable___eq__ a b ;; ret (EqBool r)
    end.

(** ** Columns as items of the table *)

(** [CASTable.__delitem__]: the handle with its new list of columns. *)
Definition __delitem__ (self : handle) (colname : string) : M handle :=
  varlist <- columns self ;;
  let lcolname := str_lower colname in
  let newvarlist :=
    List.filter (fun x => negb (String.eqb (str_lower x) lcolname)) varlist in
  if (length newvarlist =? length varlist)%nat
  then raise (KeyError (PStr colname))
  else
    r <- alloc newvarlist ;;
    ret (set_param self "varlist" (VList r)).

(** [CASTable.pop]: the column, and the handle without it. *)
Definition pop (self : handle) (colname : string) : M (handle * handle) :=
  cp <- copy self true ;;
  out <- _to_column cp (Some colname) ;;
  self <- __delitem__ self colname ;;
  ret (out, self).

(** [CASTable.__setitem__]: a column's computed variables are not taken
    over, only its code. *)
Definition __setitem__ (self : handle) (key_ : string) (value : pyobj)
  : M handle :=
  comppgm <- match value with
             | Column c =>
                 e <- _to_expression c ;;
                 let '(cexpr, _, cpgm) := e in
                 ret [cpgm; IStr (key_ +:+ " = " +:+ cexpr +:+ "; ")]
             | Text s => ret [IStr (key_ +:+ " = " +:+ quoted s +:+ "; ")]
             | Table _ p | Other p => ret [IStr (key_ +:+ " = " +:+ p +:+ "; ")]
             end ;;
  h <- append_computed_columns self (IList [IStr key_]) (IList comppgm) ;;
  append_varlist h [IStr key_].

(** ** Single values *)

(** [CASTable._fetch] without grouping, for a call that gives [to]: the
    frames handed to [pd.concat]. *)
Definition _fetch (self : handle) (kwargs : list (string * arg))
  : M (list frame) :=
  out <- _retrieve self "table.fetch"
           (("noindex", ABool true) :: ("sastypes", ABool false) :: kwargs) ;;
  _ <- get_groupby_vars self ;;
  ret (tables out).

Definition out_of_bounds (index numrows : Z) : exn :=
  IndexError ("index " +:+ pretty index +:+
              " is out of bounds for axis 0 with size " +:+ pretty numrows).

(** [CASTable.get_value]: the frames fetched and the name of the column
    that pandas then looks up in them.  A column given by its position is
    looked up in the [pd.Index] of the columns.  The copy restricted to the column
    is built and left aside: the rows are fetched through [self]. *)
Definition get_value (self : handle) (index : Z) (col : colkey)
  : M (list frame * string) :=
  col <- match col with
         | CName s => ret s
         | CInt i =>
             cols <- columns self ;;
             match Py.index cols i with
             | Some c => ret c
             | None => raise (out_of_bounds i (Z.of_nat (length cols)))
             end
         end ;;
  tbl <- copy self false ;;
  r <- alloc [col] ;;
  let _tbl := set_param tbl "varlist" (VList r) in
  numrows <- _numrows self ;;
  if (numrows <=? Z.abs index)%Z then raise (out_of_bounds index numrows)
  else
    let index := if (index <? 0)%Z then (index + numrows)%Z else index in
    out <- _fetch self [("from_", AInt (index + 1)); ("to", AInt (index + 1))] ;;
    ret (out, col).

(** [CASTableRowScalarAccessor.__getitem__] ([iat]): the position is a
    row for a column and a pair of a row and a column for a table. *)
Definition iat (tbl : handle) (row : Z) (col : colkey)
  : M (list frame * string) :=
  if is_column tbl then get_value tbl row (CInt 0) else get_value tbl row col.

(** [CASTableLabelScalarAccessor.__getitem__] ([at]) *)
Definition at_ (tbl : handle) (row : Z) (col : colkey)
  : M (list frame * string) :=
  let pos := if is_column tbl then PInt row else PObj in
  (if (row <? 0)%Z then raise (KeyError pos)
   else
     n <- _numrows tbl ;;
     if (n <=? row)%Z then raise (KeyError pos) else ret tt) ;;;
  if is_column tbl then get_value tbl row (CInt 0) else get_value tbl row col.

(** [CASColumn.sort_values]: [CASTable.sort_values] by the column's own
    name. *)
Definition column_sort_values (self : handle) (ascending : bool + list bool)
    (inplace : bool) : M handle :=
  n <- name self ;;
  sort_values self [n] ascending inplace.

(** [CASColumn.isnull] and [CASColumn.notnull] *)
Definition isnull (self : handle) : M handle :=
  _compute self "isnull" "missing({value})" true [] [] false None [].

Definition notnull (self : handle) : M handle :=
  _compute self "notnull" "(missing({value}) = 0)" true [] [] false None [].

(** * Properties *)

(** ** Reasoning about the monad *)

Lemma bind_ok {A B} (m : M A) (k : A -> M B) w a w' :
  m w = Ok a w' -> bind m k w = k a w'.
Proof. intros H. unfold bind. now rewrite H. Qed.

Lemma bind_raise {A B} (m : M A) (k : A -> M B) w e w' :
  m w = Raise e w' -> bind m k w = Raise e w'.
Proof. intros H. unfold bind. now rewrite H. Qed.

Lemma bind_ret {A B} (a : A) (k : A -> M B) w : bind (ret a) k w = k a w.
Proof. reflexivity. Qed.

(** A world in which one more action has been invoked. *)
Definition record (rq : request) (w : world) : world :=
  mk_world (heap w) (conns w) (trace w ++ [rq]) (server w).

(** ** The connection reference (C7) *)

Definition no_connection : exn :=
  SWATError "No connection is currently registered".

(** The connection object [c] is gone: unknown to the world, or no longer
    alive. *)
Definition released (w : world) (c : nat) : Prop :=
  match conns w !! c with
  | Some cn => alive cn = false
  | None => True
  end.


(** The handle has nothing to resolve: no reference, or a reference to a
    released connection. *)
Definition unconnected (w : world) (h : handle) : Prop :=
  match _connection h with
  | None => True
  | Some c => released w c
  end.

Lemma get_connection_unconnected h w :
  unconnected w h -> get_connection h w = Raise no_connection w.
Proof.
  unfold unconnected, released, get_connection, bind, deref.
  destruct (_connection h) as [c|]; [|reflexivity].
  destruct (conns w !! c) as [cn|]; [|reflexivity].
  now intros ->.
Qed.





(** ** Remote requests *)

Definition ui_kwargs (kwargs : list (string * arg)) : list (string * arg) :=
  ("_apptag", AStr "UI") :: ("_messagelevel", AStr "none") :: kwargs.

(** The request [_retrieve] sends for handle [h] in world [w]. *)
Definition request_of (c : nat) (h : handle) (w : world) (action : string)
    (kwargs : list (string * arg)) : request :=
  mk_request c action (snapshot (heap w) (params h))
             (get_action_params h action) (ui_kwargs kwargs).

Lemma get_connection_world h w :
  world_of (get_connection h w) = w.
Proof.
  unfold get_connection, bind, deref.
  destruct (_connection h) as [c|]; simpl; [|reflexivity].
  destruct (conns w !! c) as [cn|]; simpl; [|reflexivity].
  now destruct (alive cn).
Qed.

Lemma get_connection_record h w rq c :
  get_connection h w = Ok c w ->
  get_connection h (record rq w) = Ok c (record rq w).
Proof.
  unfold get_connection, bind, deref. simpl.
  destruct (_connection h) as [c'|]; simpl; [|discriminate].
  destruct (conns w !! c') as [cn|]; simpl; [|discriminate].
  destruct (alive cn); simpl; [|discriminate].
  now intros [= ->].
Qed.

Lemma _retrieve_ok h w c action kwargs :
  get_connection h w = Ok c w ->
  (severity (server w (request_of c h w action kwargs)) <= 1)%nat ->
  _retrieve h action kwargs w
  = Ok (server w (request_of c h w action kwargs))
       (record (request_of c h w action kwargs) w).
Proof.
  intros Hc Hs. unfold _retrieve, retrieve.
  unfold bind at 1. unfold bind at 1. rewrite Hc. simpl.
  fold (ui_kwargs kwargs). fold (request_of c h w action kwargs).
  destruct (Nat.ltb_spec 1 (severity (server w (request_of c h w action kwargs))));
    [lia | reflexivity].
Qed.

Lemma _retrieve_failed h w c action kwargs :
  get_connection h w = Ok c w ->
  (1 < severity (server w (request_of c h w action kwargs)))%nat ->
  _retrieve h action kwargs w
  = Raise (SWATError (status (server w (request_of c h w action kwargs))))
          (record (request_of c h w action kwargs) w).
Proof.
  intros Hc Hs. unfold _retrieve, retrieve.
  unfold bind at 1. unfold bind at 1. rewrite Hc. simpl.
  fold (ui_kwargs kwargs). fold (request_of c h w action kwargs).
  destruct (Nat.ltb_spec 1 (severity (server w (request_of c h w action kwargs))));
    [reflexivity | lia].
Qed.

Lemma _numrows_ok h w c n :
  get_connection h w = Ok c w ->
  (severity (server w (request_of c h w "simple.numrows" [])) <= 1)%nat ->
  numrows (server w (request_of c h w "simple.numrows" [])) = Some n ->
  _numrows h w = Ok n (record (request_of c h w "simple.numrows" []) w).
Proof.
  intros Hc Hs Hn. unfold _numrows.
  rewrite (bind_ok _ _ _ _ _ (_retrieve_ok _ _ _ _ _ Hc Hs)).
  now rewrite Hn.
Qed.

(** ** Row ranges of [head], [tail] and [slice] (C3) *)

(** The [table.fetch] request for the rows at zero-based positions
    [first] to [last]: the server counts rows from one. *)
Definition fetch_rows (c : nat) (h : handle) (w : world) (first last : Z)
  : request :=
  request_of c h w "table.fetch"
    [("sastypes", ABool false); ("from_", AInt (first + 1));
     ("to", AInt (last + 1))].


(** [slice] with non-negative bounds on a handle without group-by
    variables: one fetch, no other request. *)
Lemma slice_positive h w c (start stop : Z) :
  get_groupby_vars h w = Ok [] w ->
  get_connection h w = Ok c w ->
  (0 <= start)%Z -> (0 <= stop)%Z ->
  (severity (server w (fetch_rows c h w start stop)) <= 1)%nat ->
  slice h start (Some stop) None w
  = Ok (tables (server w (fetch_rows c h w start stop)))
       (record (fetch_rows c h w start stop) w).
Proof.
  intros Hg Hc H0 H1 Hs. unfold slice.
  mret. mrun Hg. mret.
  simpl foldM. unfold slice_group. simpl default.
  destruct (Z.ltb_spec start 0); [lia|].
  destruct (Z.ltb_spec stop 0); [lia|]. simpl orb. cbv iota.
  unfold bind at 1. unfold bind at 1. mret.
  unfold fetch_rows in *. fold (slice_kwargs start stop) in *.
  mrun (_retrieve_ok _ _ _ _ _ Hc Hs). reflexivity.
Qed.

(** [slice] with two negative bounds: the row count is asked for first
    and added to both. *)
Lemma slice_negative h w c (start stop n : Z) :
  get_groupby_vars h w = Ok [] w ->
  get_connection h w = Ok c w ->
  (start < 0)%Z -> (stop < 0)%Z ->
  let ask := request_of c h w "simple.numrows" [] in
  let w1 := record ask w in
  let rq := fetch_rows c h w (n + start) (n + stop) in
  (severity (server w ask) <= 1)%nat ->
  numrows (server w ask) = Some n ->
  (severity (server w rq) <= 1)%nat ->
  slice h start (Some stop) None w = Ok (tables (server w rq)) (record rq w1).
Proof.
  intros Hg Hc H0 H1 ask w1 rq Hs Hn Hs'. unfold slice.
  mret. mrun Hg. mret.
  simpl foldM. unfold slice_group. simpl default.
  destruct (Z.ltb_spec start 0); [|lia].
  destruct (Z.ltb_spec stop 0); [|lia]. simpl orb. cbv iota.
  unfold bind at 1. unfold bind at 1. unfold bind at 1.
  mrun (_numrows_ok _ _ _ _ Hc Hs Hn).
  unfold ret at 1. cbv beta iota. fold ask. fold w1.
  assert (Hrq : request_of c h w1 "table.fetch" (slice_kwargs (n + start) (n + stop)) = rq)
    by reflexivity.
  assert (Hc1 : get_connection h w1 = Ok c w1) by now apply get_connection_record.
  assert (Hs1 : (severity (server w1 (request_of c h w1 "table.fetch"
                   (slice_kwargs (n + start) (n + stop)))) <= 1)%nat)
    by (rewrite Hrq; exact Hs').
  mrun (_retrieve_ok _ _ _ _ _ Hc1 Hs1). rewrite Hrq. reflexivity.
Qed.


(** ** A concrete session *)

(** A server with a ten-row table whose columns are [a], [b] (numbers)
    and [name] (text). *)
Definition cars_server (rq : request) : response :=
  if String.eqb (req_action rq) "table.columninfo" then
    match ParamManager.get "varlist" (req_table rq) with
    | Some (RList ["name"]) =>
        mk_response 0 "" (Some [("name", "varchar")]) None None []
    | Some (RList [x]) =>
        mk_response 0 "" (Some [(x, "double")]) None None []
    | _ =>
        mk_response 0 ""
          (Some [("a", "double"); ("b", "double"); ("name", "varchar")])
          None None []
    end
  else if String.eqb (req_action rq) "simple.numrows" then
    mk_response 0 "" None (Some 10%Z) None []
  else mk_response 0 "" None None None [[["row"]]].

(** One live connection, nothing in the store, nothing sent yet. *)
Definition session : world := mk_world [] [mk_conn true 0] [] cars_server.

(** The same after the connection object has been released. *)
Definition closed_session : world :=
  mk_world [] [mk_conn false 0] [] cars_server.

(** [CASTable('cars')], bound to the connection. *)
Definition cars : handle :=
  mk_handle CASTable [("name", VStr "cars")] [] (Some 0).


(** ** Slices of rows and negative positions (C4) *)

Definition unsupported_index : exn :=
  TypeError "Index must result in either a scalar or a row".

(** A slice with both ends given, whatever their sign, never reaches the
    server through the brackets. *)
Lemma getitem_slice_refused h w (a b : Z) :
  a <> 0%Z -> b <> 0%Z ->
  __getitem__ h (KSlice (mk_rowslice (Some a) (Some b) None)) w
  = Raise unsupported_index w.
Proof.
  intros Ha Hb. unfold __getitem__, accessor_getitem.
  destruct (is_column h) eqn:Hk.
  - reflexivity.
  - unfold _get_table_selection, or_else. mcbv. simpl.
    destruct (Z.eqb_spec a 0); [contradiction|].
    destruct (Z.eqb_spec b 0); [contradiction|]. reflexivity.
Qed.

Lemma select_cols_outtype table cols w r w' :
  select_cols table cols OutTable w = Ok r w' ->
  snd r = OutTable \/ snd r = OutColumn.
Proof.
  unfold select_cols. destruct cols as [l|s|i|s|]; unfold bind, ret, raise.
  - destruct (columns table w); [|discriminate]. intros [= <- _]. now left.
  - destruct (select_colslice table s w); [|discriminate].
    intros [= <- _]. now left.
  - intros [= <- _]. now right.
  - intros [= <- _]. now right.
  - discriminate.
Qed.

Lemma selection_of_slice table s cols w sel dt w' :
  _get_table_selection table (PosTuple (RowSlice s) cols) w = Ok (sel, dt) w' ->
  dt = OutTable \/ dt = OutColumn.
Proof.
  unfold _get_table_selection.
  unfold bind at 1. unfold bind at 1. unfold bind at 1.
  destruct (bad_step (rstep s)); [discriminate|].
  unfold ret at 1. cbv beta iota.
  destruct (select_cols table cols OutTable w) as [[[c p] o] w1|e w1] eqn:E;
    [|discriminate].
  apply select_cols_outtype in E. simpl in E.
  unfold ret at 1. cbv beta iota.
  unfold bind, ret.
  destruct (rstop s).
  - intros [= _ <- _]. exact E.
  - destruct (last_row table w1); [|discriminate]. intros [= _ <- _]. exact E.
Qed.

Lemma selection_of_rows table s w sel dt w' :
  _get_table_selection table (PosSlice s) w = Ok (sel, dt) w' ->
  dt = OutTable.
Proof.
  unfold _get_table_selection.
  unfold bind at 1.
  destruct (bad_step (rstep s)); [discriminate|].
  unfold bind at 1.
  destruct (or_else (rstart s) (ret 0%Z) w) as [a w1|e w1]; [|discriminate].
  unfold bind at 1.
  destruct (or_else (rstop s) (last_row table) w1) as [b w2|e w2];
    [|discriminate].
  unfold ret at 1. cbv beta iota. unfold bind, ret.
  now intros [= _ <- _].
Qed.

(** No accessor returns for a slice of rows: the selection has the
    output type of a table, or of a column on a column handle. *)
Lemma accessor_refuses_slice acc table s w r w' :
  accessor_getitem acc table (PosSlice s) w <> Ok r w'.
Proof.
  intros H. unfold accessor_getitem in H.
  destruct (is_column table) eqn:Hk.
  - revert H. mret. unfold bind at 1.
    destruct (_get_table_selection table (PosTuple (RowSlice s) (ColInt 0)) w)
      as [[sel dt] w1|e w1] eqn:E; [|discriminate].
    apply selection_of_slice in E. now destruct E as [-> | ->].
  - revert H. mret. unfold bind at 1.
    destruct (_get_table_selection table (PosSlice s) w)
      as [[sel dt] w1|e w1] eqn:E; [|discriminate].
    apply selection_of_rows in E. now subst dt.
Qed.

(** C4.  The brackets hand a slice of rows to the [ix] accessor, which
    refuses it.  [tbl[a:b]] with both ends given raises
    [TypeError('Index must result in either a scalar or a row')] in the
    world it started from, whatever the signs of [a] and [b]: no row
    count is asked for, no fetch is sent, no position is resolved.  And
    no slice of rows, whatever its ends, makes the brackets return. *)
Theorem row_slice_refused (h : handle) (w : world) :
  (forall a b, a <> 0%Z -> b <> 0%Z ->
     __getitem__ h (KSlice (mk_rowslice (Some a) (Some b) None)) w
     = Raise unsupported_index w) /\
  (forall s r w', __getitem__ h (KSlice s) w <> Ok r w').
Proof.
  split.
  - intros a b Ha Hb. now apply getitem_slice_refused.
  - intros s r w' H.
    assert (E : __getitem__ h (KSlice s) w
                = (f <- accessor_getitem ix h (PosSlice s) ;; ret (Fetched f)) w).
    { unfold __getitem__. now destruct (is_column h). }
    rewrite E in H. unfold bind in H.
    destruct (accessor_getitem ix h (PosSlice s) w) as [f w1|e w1] eqn:F;
      [|discriminate].
    now apply accessor_refuses_slice in F.
Qed.

(** The fetch an accessor sends for one row position of a table. *)
Definition row_request (c : nat) (h : handle) (w : world) (row : Z) : request :=
  request_of c h w "table.fetch" (fetch_kwargs (row + 1) row).

Lemma ix_negative_row h w (z : Z) :
  (z < 0)%Z ->
  accessor_getitem ix h (PosInt z) w = Raise (KeyError (PInt z)) w.
Proof.
  intros Hz. unfold accessor_getitem.
  destruct (is_column h); mcbv; simpl;
    destruct (Z.ltb_spec z 0); try lia; reflexivity.
Qed.

Lemma positional_row acc h w c (z : Z) :
  acc <> ix ->
  is_column h = false ->
  get_connection h w = Ok c w ->
  (0 <= z)%Z ->
  (severity (server w (row_request c h w z)) <= 1)%nat ->
  accessor_getitem acc h (PosInt z) w
  = Ok (mk_fetched OutRow z (tables (server w (row_request c h w z))))
       (record (row_request c h w z) w).
Proof.
  intros Ha Hk Hc Hz Hs. unfold accessor_getitem. rewrite Hk.
  unfold _get_table_selection. mcbv. simpl.
  destruct (Z.ltb_spec z 0); [lia|].
  unfold row_request in *.
  destruct acc; [contradiction| |];
    rewrite (_retrieve_ok _ _ _ _ _ Hc Hs); reflexivity.
Qed.

Lemma positional_negative_row acc h w c (z n : Z) :
  acc <> ix ->
  is_column h = false ->
  get_connection h w = Ok c w ->
  (z < 0)%Z ->
  let ask := request_of c h w "simple.numrows" [] in
  let rq := row_request c h w (z + n) in
  (severity (server w ask) <= 1)%nat ->
  numrows (server w ask) = Some n ->
  (severity (server w rq) <= 1)%nat ->
  accessor_getitem acc h (PosInt z) w
  = Ok (mk_fetched OutRow (z + n) (tables (server w rq)))
       (record rq (record ask w)).
Proof.
  intros Ha Hk Hc Hz ask rq Hs Hn Hs'. unfold accessor_getitem. rewrite Hk.
  unfold _get_table_selection. mcbv. simpl.
  destruct (Z.ltb_spec z 0); [|lia].
  assert (Hc1 : get_connection h (record ask w) = Ok c (record ask w))
    by now apply get_connection_record.
  assert (Hs1 : (severity (server (record ask w)
             (request_of c h (record ask w) "table.fetch"
                (fetch_kwargs (z + n + 1) (z + n)))) <= 1)%nat) by exact Hs'.
  destruct acc; [contradiction| |];
    rewrite (_numrows_ok _ _ _ _ Hc Hs Hn); fold ask;
    rewrite (_retrieve_ok _ _ _ _ _ Hc1 Hs1); reflexivity.
Qed.

(** X28.  Where negative positions are resolved.  On a handle without
    group-by variables whose row count the server reports as [n],
    [slice(start, stop)] with two negative ends asks for the row count and
    then sends the fetch that [slice(n + start, n + stop)] sends.  On a
    table the positional accessors [iloc] and [loc] do the same for a
    negative row; the label accessor [ix] raises [KeyError] for a negative
    row without asking the server. *)
Theorem negative_positions (h : handle) (w : world) (c : nat) (n : Z) :
  get_groupby_vars h w = Ok [] w ->
  get_connection h w = Ok c w ->
  let ask := request_of c h w "simple.numrows" [] in
  (severity (server w ask) <= 1)%nat ->
  numrows (server w ask) = Some n ->
  (forall start stop,
     (start < 0)%Z -> (stop < 0)%Z -> (0 <= n + start)%Z -> (0 <= n + stop)%Z ->
     let rq := fetch_rows c h w (n + start) (n + stop) in
     (severity (server w rq) <= 1)%nat ->
     slice h start (Some stop) None w
     = Ok (tables (server w rq)) (record rq (record ask w)) /\
     slice h (n + start) (Some (n + stop)%Z) None w
     = Ok (tables (server w rq)) (record rq w)) /\
  (is_column h = false ->
   forall acc z, acc <> ix -> (z < 0)%Z -> (0 <= z + n)%Z ->
     let rq := row_request c h w (z + n) in
     (severity (server w rq) <= 1)%nat ->
     accessor_getitem acc h (PosInt z) w
     = Ok (mk_fetched OutRow (z + n) (tables (server w rq)))
          (record rq (record ask w)) /\
     accessor_getitem acc h (PosInt (z + n)) w
     = Ok (mk_fetched OutRow (z + n) (tables (server w rq))) (record rq w)) /\
  (forall z, (z < 0)%Z ->
     accessor_getitem ix h (PosInt z) w = Raise (KeyError (PInt z)) w).
Proof.
  intros Hg Hc ask Hs Hn. split; [|split].
  - intros start stop H1 H2 H3 H4 rq Hs'. split.
    + exact (slice_negative h w c start stop n Hg Hc H1 H2 Hs Hn Hs').
    + now apply (slice_positive h w c (n + start) (n + stop) Hg Hc).
  - intros Hk acc z Ha Hz Hz' rq Hs'. split.
    + exact (positional_negative_row acc h w c z n Ha Hk Hc Hz Hs Hn Hs').
    + now apply (positional_row acc h w c (z + n) Ha Hk Hc).
  - intros z Hz. now apply ix_negative_row.
Qed.

(** ** Subtraction on a character column (C5) *)

(** The column [name] of the table, a character column, in a store that
    holds its [varlist]. *)
Definition name_column : handle :=
  mk_handle CASColumn [("name", VStr "cars"); ("varlist", VList 0)] [] (Some 0).

Definition name_session : world :=
  mk_world [["name"]] [mk_conn true 0] [] cars_server.

Lemma _columninfo_ok h w c ci :
  get_connection h w = Ok c w ->
  (severity (server w (request_of c h w "table.columninfo" [])) <= 1)%nat ->
  ColumnInfo (server w (request_of c h w "table.columninfo" [])) = Some ci ->
  _columninfo h w = Ok ci (record (request_of c h w "table.columninfo" []) w).
Proof.
  intros Hc Hs Hn. unfold _columninfo.
  rewrite (bind_ok _ _ _ _ _ (_retrieve_ok _ _ _ _ _ Hc Hs)).
  now rewrite Hn.
Qed.

(** C5 (amended).  For every column that the server reports as
    character-typed, [sub] raises [AttributeError('sub')] after exactly
    one remote call, the [table.columninfo] request that tells the type;
    nothing else has changed: no computed column was built and no
    identifier was drawn. *)
Theorem sub_character_column (self : handle) (other : pyobj) (w : world)
    (c : nat) (col type_ : string) (rest : list (string * string)) :
  get_connection self w = Ok c w ->
  let ask := request_of c self w "table.columninfo" [] in
  (severity (server w ask) <= 1)%nat ->
  ColumnInfo (server w ask) = Some ((col, type_) :: rest) ->
  In type_ ["char"; "varchar"; "binary"; "varbinary"] ->
  sub self other w = Raise (AttributeError "sub") (record ask w) /\
  req_action ask = "table.columninfo".
Proof.
  intros Hc ask Hs Hci Ht. split; [|reflexivity].
  unfold sub, numeric_only, _is_character, dtype.
  unfold bind at 1. unfold bind at 1. unfold bind at 1.
  rewrite (_columninfo_ok _ _ _ _ Hc Hs Hci). mcbv.
  simpl in Ht. destruct Ht as [<-|[<-|[<-|[<-|[]]]]]; reflexivity.
Qed.

(** ** Which requests a computation sends (C1) *)

(** Every request sent by [m], from any world, satisfies [P]. *)
Definition emits {A} (P : request -> Prop) (m : M A) : Prop :=
  forall w, exists l, trace (world_of (m w)) = trace w ++ l /\ Forall P l.

(** [m] sends nothing. *)
Definition silent {A} (m : M A) : Prop := emits (fun _ => False) m.

Lemma silent_trace {A} (m : M A) w :
  silent m -> trace (world_of (m w)) = trace w.
Proof.
  intros H. destruct (H w) as (l & Hl & HF). destruct l as [|x l].
  - now rewrite app_nil_r in Hl.
  - now inversion HF.
Qed.

Lemma emits_mono {A} (P Q : request -> Prop) (m : M A) :
  (forall rq, P rq -> Q rq) -> emits P m -> emits Q m.
Proof.
  intros HPQ H w. destruct (H w) as (l & Hl & HF). exists l. split; [easy|].
  eapply Forall_impl; eauto.
Qed.

Lemma silent_emits {A} P (m : M A) : silent m -> emits P m.
Proof. apply emits_mono. intros _ []. Qed.

Lemma emits_same {A} P (m : M A) :
  (forall w, trace (world_of (m w)) = trace w) -> emits P m.
Proof. intros H w. exists []. rewrite app_nil_r. split; [apply H | constructor]. Qed.

Lemma emits_ret {A} P (a : A) : emits P (ret a).
Proof. now apply emits_same. Qed.

Lemma emits_raise {A} P e : emits P (@raise A e).
Proof. now apply emits_same. Qed.

Lemma emits_bind {A B} P (m : M A) (k : A -> M B) :
  emits P m -> (forall a, emits P (k a)) -> emits P (bind m k).
Proof.
  intros Hm Hk w. unfold bind. destruct (Hm w) as (l & Hl & HF).
  destruct (m w) as [a w'|e w']; simpl in *.
  - destruct (Hk a w') as (l' & Hl' & HF'). exists (l ++ l').
    rewrite Hl', Hl, app_assoc. split; [reflexivity|]. now apply Forall_app.
  - now exists l.
Qed.

Create HintDb emits.

Ltac emits_step :=
  match goal with
  | |- emits _ (bind _ _) => apply emits_bind; [|intros]
  | |- emits _ (ret _) => apply emits_ret
  | |- emits _ (raise _) => apply emits_raise
  | |- emits _ (match ?x with _ => _ end) => destruct x
  | |- emits _ (let '(_, _) := ?x in _) => destruct x
  | |- silent _ => unfold silent
  | |- _ => solve [eauto with emits]
  end.

Ltac emits_auto := repeat emits_step.

Lemma emits_read P r : emits P (read r).
Proof. now apply emits_same. Qed.
Lemma emits_write P r l : emits P (write r l).
Proof. now apply emits_same. Qed.
Lemma emits_alloc P l : emits P (alloc l).
Proof. now apply emits_same. Qed.
Lemma emits_deref P c : emits P (deref c).
Proof. now apply emits_same. Qed.
Lemma emits__gen_id P c : emits P (_gen_id c).
Proof.
  apply emits_same. intros w. unfold _gen_id. now destruct (conns w !! c).
Qed.
Lemma emits__flatten P items : emits P (_flatten items).
Proof. now apply emits_same. Qed.
#[local] Hint Resolve emits_read emits_write emits_alloc emits_deref
  emits__gen_id emits__flatten : emits.

Lemma emits_get_connection P h : emits P (get_connection h).
Proof. unfold get_connection. emits_auto. Qed.
#[local] Hint Resolve emits_get_connection : emits.

Lemma emits_truthy P v : emits P (truthy v).
Proof. unfold truthy. emits_auto. Qed.
Lemma emits_as_list P v : emits P (as_list v).
Proof. unfold as_list. emits_auto. Qed.
Lemma emits_extend P r items : emits P (extend r items).
Proof. unfold extend. emits_auto. Qed.
#[local] Hint Resolve emits_truthy emits_as_list emits_extend : emits.

Lemma emits_init P k kw : emits P (init k kw).
Proof. unfold init. emits_auto. Qed.
Lemma emits_share_connection P a b : emits P (share_connection a b).
Proof.
  apply emits_same. intros w. unfold share_connection.
  pose proof (get_connection_world a w) as H.
  destruct (get_connection a w) as [c w'|e w']; simpl in *; [now subst|].
  destruct (is_swat_error e); simpl; now subst.
Qed.
#[local] Hint Resolve emits_init emits_share_connection : emits.

Lemma emits_deepcopy_value P memo v : emits P (deepcopy_value memo v).
Proof. unfold deepcopy_value. emits_auto. Qed.
#[local] Hint Resolve emits_deepcopy_value : emits.

Lemma emits_deepcopy_params P p : forall memo, emits P (deepcopy_params memo p).
Proof.
  induction p as [|[k v] p IH]; intros memo; simpl; emits_auto.
Qed.
#[local] Hint Resolve emits_deepcopy_params : emits.

Lemma emits___copy__ P h : emits P (__copy__ h).
Proof. unfold __copy__. emits_auto. Qed.
Lemma emits___deepcopy__ P h : emits P (__deepcopy__ h).
Proof. unfold __deepcopy__. emits_auto. Qed.
#[local] Hint Resolve emits___copy__ emits___deepcopy__ : emits.
Lemma emits_copy P h deep : emits P (copy h deep).
Proof. unfold copy. emits_auto. Qed.
#[local] Hint Resolve emits_copy : emits.

Lemma emits_append_where P h items : emits P (append_where h items).
Proof. unfold append_where, append_where_value. emits_auto. Qed.
Lemma emits_append_compvars P h items : emits P (append_compvars h items).
Proof. unfold append_compvars, append_names_value. emits_auto. Qed.
Lemma emits_append_groupby P h items : emits P (append_groupby h items).
Proof. unfold append_groupby, append_names_value. emits_auto. Qed.
Lemma emits_append_comppgm P h items : emits P (append_comppgm h items).
Proof. unfold append_comppgm, append_comppgm_value. emits_auto. Qed.
#[local] Hint Resolve emits_append_where emits_append_compvars
  emits_append_groupby emits_append_comppgm : emits.
Lemma emits_append_computed_columns P h n c :
  emits P (append_computed_columns h n c).
Proof. unfold append_computed_columns. emits_auto. Qed.
#[local] Hint Resolve emits_append_computed_columns : emits.

Lemma emits_foldM {A B} P (f : A -> B -> M A) l :
  (forall a b, emits P (f a b)) -> forall a, emits P (foldM f a l).
Proof. intros Hf. induction l; intros a0; simpl; emits_auto. Qed.

Lemma emits_query P h expr inplace engine : emits P (query h expr inplace engine).
Proof. unfold query. emits_auto. Qed.

Lemma emits_sort_values P h by_ asc inplace :
  emits P (sort_values h by_ asc inplace).
Proof.
  unfold sort_values. emits_auto; apply emits_foldM; intros;
    unfold sort_step; emits_auto.
Qed.

Lemma emits_name P h : emits P (name h).
Proof. unfold name. emits_auto. Qed.
#[local] Hint Resolve emits_name : emits.
Lemma emits__to_expression P h : emits P (_to_expression h).
Proof. unfold _to_expression. emits_auto. Qed.
#[local] Hint Resolve emits__to_expression : emits.

Lemma emits_render_item P x : emits P (render_item x).
Proof. unfold render_item. emits_auto. Qed.
#[local] Hint Resolve emits_render_item : emits.
Lemma emits_render_items P l : emits P (render_items l).
Proof. induction l; simpl; emits_auto. Qed.
#[local] Hint Resolve emits_render_items : emits.
Lemma emits_render_operand P q v : emits P (render_operand q v).
Proof. unfold render_operand. emits_auto. Qed.
#[local] Hint Resolve emits_render_operand : emits.
Lemma emits_render_kwargs P q kw : emits P (render_kwargs q kw).
Proof. induction kw as [|[k v] kw IH]; simpl; emits_auto. Qed.
#[local] Hint Resolve emits_render_kwargs : emits.

Lemma emits_format P code kw : emits P (Py.format code kw).
Proof. unfold Py.format. emits_auto. Qed.
Lemma emits_in_compvars P h o : emits P (in_compvars h o).
Proof. unfold in_compvars. emits_auto. Qed.
#[local] Hint Resolve emits_format emits_in_compvars : emits.

Lemma emits__compute P self f code q ev ep al dt kw :
  emits P (_compute self f code q ev ep al dt kw).
Proof. unfold _compute. emits_auto. Qed.
#[local] Hint Resolve emits__compute : emits.

Lemma emits__compare P self op other : emits P (_compare self op other).
Proof. unfold _compare. emits_auto. Qed.

Definition is_columninfo (rq : request) : Prop :=
  req_action rq = "table.columninfo".

Lemma emits_invoke (P : request -> Prop) c h action kwargs :
  (forall rq, req_action rq = action -> P rq) ->
  emits P (invoke c h action kwargs).
Proof.
  intros HP w. eexists [_]. split; [reflexivity|].
  constructor; [|constructor]. now apply HP.
Qed.

Lemma emits__retrieve (P : request -> Prop) h action kwargs :
  (forall rq, req_action rq = action -> P rq) ->
  emits P (_retrieve h action kwargs).
Proof.
  intros HP. unfold _retrieve, retrieve.
  emits_auto. now apply emits_invoke.
Qed.

Lemma emits__columninfo h : emits is_columninfo (_columninfo h).
Proof.
  unfold _columninfo. emits_auto. now apply emits__retrieve.
Qed.
#[local] Hint Resolve emits__columninfo : emits.

Lemma emits_columns h : emits is_columninfo (columns h).
Proof. unfold columns. emits_auto. Qed.
#[local] Hint Resolve emits_columns : emits.

Lemma emits_dtype h : emits is_columninfo (dtype h).
Proof. unfold dtype. emits_auto. Qed.
#[local] Hint Resolve emits_dtype : emits.

Lemma emits__is_character h : emits is_columninfo (_is_character h).
Proof. unfold _is_character. emits_auto. Qed.
Lemma emits__is_numeric h : emits is_columninfo (_is_numeric h).
Proof. unfold _is_numeric. emits_auto. Qed.
#[local] Hint Resolve emits__is_character emits__is_numeric : emits.

Lemma emits_numeric_only h e f code other :
  emits is_columninfo (numeric_only h e f code other).
Proof. unfold numeric_only. emits_auto. Qed.
#[local] Hint Resolve emits_numeric_only : emits.

Lemma emits_add h other : emits is_columninfo (add h other).
Proof. unfold add. emits_auto. Qed.
Lemma emits_str_repeat h other : emits is_columninfo (str_repeat h other).
Proof. unfold str_repeat. emits_auto. Qed.
#[local] Hint Resolve emits_str_repeat : emits.
Lemma emits_mul h other : emits is_columninfo (mul h other).
Proof. unfold mul. emits_auto. Qed.

Lemma emits__to_column P h v : emits P (_to_column h v).
Proof. unfold _to_column. emits_auto. Qed.
#[local] Hint Resolve emits__to_column : emits.
Lemma emits_item_truthy P it : emits P (item_truthy it).
Proof. unfold item_truthy. emits_auto. Qed.
#[local] Hint Resolve emits_item_truthy : emits.

Lemma emits_getitem_list h keys :
  emits is_columninfo (__getitem__ h (KList keys)).
Proof. unfold __getitem__. emits_auto. Qed.

Lemma emits_getitem_column h c :
  emits is_columninfo (__getitem__ h (KColumn c)).
Proof. unfold __getitem__. emits_auto. Qed.

Lemma emits_getitem_name h s :
  emits is_columninfo (__getitem__ h (KName s)).
Proof. unfold __getitem__. emits_auto. Qed.

(** The numeric column [a] of the table. *)
Definition a_column : handle :=
  mk_handle CASColumn [("name", VStr "cars"); ("varlist", VList 0)] [] (Some 0).

Definition a_session : world :=
  mk_world [["a"]] [mk_conn true 0] [] cars_server.

(** C1 (amended).  Filtering by [append_where] or [query], sorting by
    [sort_values] and the comparison operators send no request at all.
    Selection by a list, selection by a boolean column and the arithmetic
    operators send no request other than [table.columninfo], the
    metadata request that tells the column names and types: none of them
    fetches rows or runs another action. *)
Theorem construction_requests :
  (forall h items, silent (append_where h items)) /\
  (forall h expr inplace engine, silent (query h expr inplace engine)) /\
  (forall h by_ ascending inplace, silent (sort_values h by_ ascending inplace)) /\
  (forall self operator other, silent (_compare self operator other)) /\
  (forall h keys, emits is_columninfo (__getitem__ h (KList keys))) /\
  (forall h c, emits is_columninfo (__getitem__ h (KColumn c))) /\
  (forall self other,
     emits is_columninfo (add self other) /\
     emits is_columninfo (sub self other) /\
     emits is_columninfo (mul self other) /\
     emits is_columninfo (div self other) /\
     emits is_columninfo (truediv self other) /\
     emits is_columninfo (floordiv self other) /\
     emits is_columninfo (mod_ self other) /\
     emits is_columninfo (pow self other)).
Proof.
  repeat split; intros.
  - apply emits_append_where.
  - apply emits_query.
  - apply emits_sort_values.
  - apply emits__compare.
  - apply emits_getitem_list.
  - apply emits_getitem_column.
  - apply emits_add.
  - apply emits_numeric_only.
  - apply emits_mul.
  - apply emits_numeric_only.
  - apply emits_numeric_only.
  - apply emits_numeric_only.
  - apply emits_numeric_only.
  - apply emits_numeric_only.
Qed.

(** ** The store *)

Lemma heap_get_alloc hp l : heap_get (hp ++ [l]) (length hp) = l.
Proof.
  unfold heap_get. rewrite lookup_app_r by lia.
  now rewrite Nat.sub_diag.
Qed.

Lemma heap_get_alloc_old hp l r :
  r < length hp -> heap_get (hp ++ [l]) r = heap_get hp r.
Proof. intros H. unfold heap_get. now rewrite lookup_app_l. Qed.

Lemma heap_get_write hp r l :
  r < length hp -> heap_get (<[r := l]> hp) r = l.
Proof. intros H. unfold heap_get. now rewrite list_lookup_insert_eq. Qed.

Lemma heap_get_write_other hp r r' l :
  r <> r' -> heap_get (<[r := l]> hp) r' = heap_get hp r'.
Proof. intros H. unfold heap_get. now rewrite list_lookup_insert_ne. Qed.

(** ** Parameter bundles *)

Lemma get_set_same {V} k (v : V) p :
  ParamManager.get k (ParamManager.set k v p) = Some v.
Proof.
  induction p as [|[k' v'] p IH]; simpl.
  - unfold ParamManager.key_eqb. now rewrite String.eqb_refl.
  - destruct (ParamManager.key_eqb k k') eqn:E; simpl; now rewrite E.
Qed.

Lemma get_param_set_param h k v :
  get_param (set_param h k v) k = Some v.
Proof. apply get_set_same. Qed.

(** ** Accumulated filters (C2) *)

(** What [append_where] computes, spelled out on the store. *)
Definition where_store (h : handle) (hp : list (list string))
  : nat * list (list string) :=
  match get_param h "where" with
  | Some (VList r) => (r, hp)
  | Some (VStr s) => (length hp, hp ++ [[s]])
  | None => (length hp, hp ++ [[]])
  end.

Definition nonblank (x : string) : bool := PyStr.truthy (PyStr.strip x).

Definition conjunction (code : list string) : string :=
  PyStr.join " and "
    (_get_unique (map parenthesize (List.filter nonblank code)) false).

Lemma append_where_unfold h items w :
  append_where h items w
  = let '(r, hp1) := where_store h (heap w) in
    let new := List.filter PyStr.truthy (concat (map (flatten_item hp1) items)) in
    let hp2 := <[r := heap_get hp1 r ++ new]> hp1 in
    Ok (set_param h "where" (VStr (conjunction (heap_get hp2 r))))
       (mk_world hp2 (conns w) (trace w) (server w)).
Proof.
  unfold append_where, append_where_value, where_store, as_list.
  destruct (get_param h "where") as [[s|r]|]; reflexivity.
Qed.

Lemma nonblank_truthy x : nonblank x = true -> PyStr.truthy x = true.
Proof. destruct x; [discriminate | reflexivity]. Qed.

(** A string that is nothing but white space is made of bytes of
    white-space characters. *)
Lemma all_space_bytes n : forall s,
  String.length s <= n -> PyStr.all_space s = true ->
  PyStr.all_chars PyStr.space_byte s = true.
Proof.
  unfold PyStr.all_space.
  induction n as [|n IH]; intros s Hl H.
  - destruct s; [reflexivity | simpl in Hl; lia].
  - destruct s as [|c s1]; [reflexivity|].
    cbn [PyStr.lstrip] in H. cbn [PyStr.all_chars]. unfold PyStr.space_byte at 1.
    destruct (PyStr.is_space c) eqn:E1.
    { cbn [orb andb]. apply IH; [simpl in Hl; lia | exact H]. }
    destruct s1 as [|d s2]; [discriminate H|].
    destruct (PyStr.is_space2 c d) eqn:E2.
    { unfold PyStr.is_space2 in E2.
      apply andb_true_iff in E2 as [Ec Ed]. apply Nat.eqb_eq in Ec.
      cbn [PyStr.all_chars]. unfold PyStr.space_byte at 1 2. rewrite Ec.
      assert (Hd : (128 <=? nat_of_ascii d)%nat = true).
      { apply Nat.leb_le. apply orb_true_iff in Ed as [Ed|Ed];
          apply Nat.eqb_eq in Ed; lia. }
      rewrite Hd, !orb_true_r. cbn [andb Nat.leb].
      apply IH; [simpl in Hl; lia | exact H]. }
    destruct s2 as [|e s3]; [discriminate H|].
    destruct (PyStr.is_space3 c d e) eqn:E3; [|discriminate H].
    assert (B : (128 <= nat_of_ascii c /\ 128 <= nat_of_ascii d /\
                 128 <= nat_of_ascii e)%nat).
    { unfold PyStr.is_space3 in E3.
      repeat match type of E3 with
             | (_ || _ = true) => apply orb_true_iff in E3 as [E3|E3]
             end;
        repeat match goal with
               | H : (_ && _ = true) |- _ => apply andb_true_iff in H as [? ?]
               | H : (_ || _ = true) |- _ => apply orb_true_iff in H as [?|?]
               | H : (_ =? _)%nat = true |- _ => apply Nat.eqb_eq in H
               | H : (_ <=? _)%nat = true |- _ => apply Nat.leb_le in H
               end; lia. }
    destruct B as (Bc & Bd & Be).
    cbn [PyStr.all_chars]. unfold PyStr.space_byte at 1 2 3.
    apply Nat.leb_le in Bc, Bd, Be. rewrite Bc, Bd, Be, !orb_true_r.
    cbn [andb]. apply IH; [simpl in Hl; lia | exact H].
Qed.

Lemma all_chars_app_r p a b :
  PyStr.all_chars p (a +:+ b) = true -> PyStr.all_chars p b = true.
Proof.
  induction a as [|c a IH]; [trivial|].
  change (String c a +:+ b) with (String c (a +:+ b)).
  cbn [PyStr.all_chars]. intros H. apply andb_true_iff in H as [_ H]. now apply IH.
Qed.

(** A string with a byte of no white-space character is not blank. *)
Lemma not_all_space a c b :
  PyStr.space_byte c = false -> PyStr.all_space (a +:+ String c b) = false.
Proof.
  intros Hc. destruct (PyStr.all_space (a +:+ String c b)) eqn:E; [|reflexivity].
  apply (all_space_bytes _ _ (Nat.le_refl _)) in E.
  apply all_chars_app_r in E. cbn [PyStr.all_chars] in E.
  rewrite Hc in E. discriminate E.
Qed.

Lemma lstrip_plain c s :
  PyStr.space_byte c = false -> PyStr.lstrip (String c s) = String c s.
Proof.
  unfold PyStr.space_byte. intros H. apply orb_false_iff in H as [H1 H2].
  apply Nat.leb_gt in H2.
  cbn [PyStr.lstrip]. rewrite H1.
  destruct s as [|d s2]; [reflexivity|].
  assert (E2 : PyStr.is_space2 c d = false).
  { unfold PyStr.is_space2. apply andb_false_iff. left.
    apply Nat.eqb_neq. lia. }
  rewrite E2. destruct s2 as [|e s3]; [reflexivity|].
  assert (E3 : PyStr.is_space3 c d e = false).
  { unfold PyStr.is_space3.
    assert (N : forall k, (128 <= k)%nat -> (nat_of_ascii c =? k)%nat = false).
    { intros k Hk. apply Nat.eqb_neq. lia. }
    rewrite !N by lia. reflexivity. }
  now rewrite E3.
Qed.

Lemma rstrip_nonempty c s :
  PyStr.space_byte c = false -> PyStr.rstrip (String c s) <> "".
Proof.
  intros H. cbn [PyStr.rstrip].
  pose proof (not_all_space "" c s H) as E.
  change ("" +:+ String c s) with (String c s) in E.
  rewrite E. discriminate.
Qed.

Lemma nonblank_parenthesize x : nonblank (parenthesize x) = true.
Proof.
  unfold nonblank, PyStr.strip, parenthesize.
  change ("(" +:+ x +:+ ")") with (String "(" (x +:+ ")")).
  rewrite lstrip_plain by reflexivity.
  pose proof (rstrip_nonempty "(" (x +:+ ")") eq_refl) as H.
  destruct (PyStr.rstrip (String "(" (x +:+ ")"))); [contradiction | reflexivity].
Qed.

Lemma length_append_string (s t : string) :
  String.length (s +:+ t) = String.length s + String.length t.
Proof. induction s; simpl; [reflexivity | now rewrite IHs]. Qed.

Lemma parenthesize_length x :
  String.length (parenthesize x) = S (S (String.length x)).
Proof.
  unfold parenthesize. rewrite !length_append_string. simpl. lia.
Qed.

Lemma parenthesize_twice_differs x :
  String.eqb (parenthesize x) (parenthesize (parenthesize x)) = false.
Proof.
  apply String.eqb_neq. intros H.
  apply (f_equal String.length) in H. rewrite !parenthesize_length in H. lia.
Qed.

Lemma append_where_first h w x :
  get_param h "where" = None ->
  nonblank x = true ->
  append_where h [IStr x] w
  = Ok (set_param h "where" (VStr (parenthesize x)))
       (mk_world (<[length (heap w) := [x]]> (heap w ++ [[]]))
                 (conns w) (trace w) (server w)).
Proof.
  intros Hw Hx. pose proof (nonblank_truthy x Hx) as Ht.
  rewrite append_where_unfold. unfold where_store. rewrite Hw.
  cbv zeta iota beta. rewrite heap_get_alloc. simpl. rewrite Ht. simpl.
  rewrite heap_get_write by (rewrite length_app; simpl; lia).
  unfold conjunction. simpl. rewrite Hx. reflexivity.
Qed.

Lemma append_where_next h w s x :
  get_param h "where" = Some (VStr s) ->
  nonblank x = true ->
  append_where h [IStr x] w
  = Ok (set_param h "where" (VStr (conjunction [s; x])))
       (mk_world (<[length (heap w) := [s; x]]> (heap w ++ [[s]]))
                 (conns w) (trace w) (server w)).
Proof.
  intros Hw Hx. pose proof (nonblank_truthy x Hx) as Ht.
  rewrite append_where_unfold. unfold where_store. rewrite Hw.
  cbv zeta iota beta. rewrite heap_get_alloc. simpl. rewrite Ht. simpl.
  rewrite heap_get_write by (rewrite length_app; simpl; lia).
  reflexivity.
Qed.

Lemma append_assoc_string (a b c : string) :
  (a +:+ b) +:+ c = a +:+ (b +:+ c).
Proof.
  induction a as [|ch a IH]; [reflexivity|].
  change (String ch ((a +:+ b) +:+ c) = String ch (a +:+ (b +:+ c))).
  now rewrite IH.
Qed.

Lemma conjunction_repeated x :
  nonblank x = true ->
  conjunction [parenthesize x; x]
  = "((" +:+ x +:+ ")) and (" +:+ x +:+ ")".
Proof.
  intros Hx. unfold conjunction.
  cbn [List.filter]. rewrite nonblank_parenthesize, Hx.
  cbn [map]. unfold _get_unique. cbn [get_unique_from mem existsb andb orb].
  rewrite parenthesize_twice_differs. cbn [orb PyStr.join].
  unfold parenthesize. rewrite !append_assoc_string. reflexivity.
Qed.

(** C2 (the code at the failing input).  On a handle without a filter,
    a first [append_where(x)] stores [(x)]; a second call with the same
    text wraps the stored filter once more before the duplicates are
    looked for, so both copies are kept: the filter becomes
    [((x)) and (x)], where the condition occurs twice. *)
Theorem repeated_filter_kept_twice (h : handle) (w : world) (x : string) :
  get_param h "where" = None ->
  nonblank x = true ->
  exists h1 w1 h2 w2,
    append_where h [IStr x] w = Ok h1 w1 /\
    get_param h1 "where" = Some (VStr ("(" +:+ x +:+ ")")) /\
    append_where h1 [IStr x] w1 = Ok h2 w2 /\
    get_param h2 "where"
    = Some (VStr ("((" +:+ x +:+ ")) and (" +:+ x +:+ ")")).
Proof.
  intros Hw Hx.
  eexists _, _, _, _. split; [now apply append_where_first|].
  split; [apply get_param_set_param|].
  split; [apply append_where_next; [apply get_param_set_param | exact Hx]|].
  rewrite get_param_set_param. now rewrite conjunction_repeated.
Qed.

(** ** Equality of handles (C6) *)

(** Two bundles are equal: every key is bound in both or in neither, to
    the same value. *)
Definition bundle_equal (p q : list (string * rvalue)) : Prop :=
  forall k, ParamManager.get k p = ParamManager.get k q.

Lemma rvalue_eqb_eq a b : rvalue_eqb a b = true <-> a = b.
Proof.
  destruct a as [x|x], b as [y|y]; simpl; split; try discriminate.
  - intros H. apply String.eqb_eq in H. now subst.
  - intros [= ->]. apply String.eqb_refl.
  - intros H. apply bool_decide_eq_true in H. now subst.
  - intros [= ->]. now apply bool_decide_eq_true.
Qed.

Lemma get_key_eqb {V} k k' (p : list (string * V)) :
  ParamManager.key_eqb k k' = true ->
  ParamManager.get k p = ParamManager.get k' p.
Proof.
  unfold ParamManager.key_eqb. intros H. apply String.eqb_eq in H.
  induction p as [|[k0 v0] p IH]; simpl; [reflexivity|].
  unfold ParamManager.key_eqb. now rewrite H, IH.
Qed.

Lemma get_some_key {V} k (p : list (string * V)) v :
  ParamManager.get k p = Some v ->
  exists k', In k' (map fst p) /\ ParamManager.key_eqb k k' = true.
Proof.
  induction p as [|[k0 v0] p IH]; simpl; [discriminate|].
  destruct (ParamManager.key_eqb k k0) eqn:E.
  - intros _. exists k0. split; [now left | exact E].
  - intros H. destruct (IH H) as (k' & Hin & Hk). exists k'. split; [now right | exact Hk].
Qed.

Lemma same_at_spec p q k :
  same_at p q k = true <-> ParamManager.get k p = ParamManager.get k q.
Proof.
  unfold same_at.
  destruct (ParamManager.get k p) as [a|], (ParamManager.get k q) as [b|];
    split; try discriminate; try reflexivity.
  - intros H. apply rvalue_eqb_eq in H. now subst.
  - intros [= ->]. now apply rvalue_eqb_eq.
Qed.

Lemma params_eqb_spec p q : params_eqb p q = true <-> bundle_equal p q.
Proof.
  unfold params_eqb, bundle_equal. rewrite andb_true_iff, !forallb_forall. split.
  - intros [Hp Hq] k.
    destruct (ParamManager.get k p) as [a|] eqn:Ep.
    + destruct (get_some_key _ _ _ Ep) as (k' & Hin & Hk).
      rewrite <- Ep, (get_key_eqb k k' p Hk), (get_key_eqb k k' q Hk).
      apply same_at_spec. now apply Hp.
    + destruct (ParamManager.get k q) as [b|] eqn:Eq; [|reflexivity].
      destruct (get_some_key _ _ _ Eq) as (k' & Hin & Hk).
      rewrite <- Ep, <- Eq, (get_key_eqb k k' p Hk), (get_key_eqb k k' q Hk).
      apply same_at_spec. now apply Hq.
  - intros H. split; intros k _; apply same_at_spec, H.
Qed.

(** C6 (amended).  For two handles that are tables and not columns,
    [a == b] is [True] exactly when their parameter bundles are equal
    (same keys, same values, lists compared by content).  As soon as one
    operand is a column, [==] is the element-wise comparison of
    [CASColumn.__eq__]: it never answers with a truth value. *)
Theorem table_equality (a : handle) (printed_a : string) (other : pyobj)
    (w : world) :
  (is_column a = false ->
   forall b printed_b, is_column b = false -> other = Table b printed_b ->
     exists r, equals a printed_a other w = Ok (EqBool r) w /\
       (r = true <-> bundle_equal (snapshot (heap w) (params a))
                                  (snapshot (heap w) (params b)))) /\
  (is_column a = true \/ (exists c, other = Column c) ->
   forall r w', equals a printed_a other w <> Ok (EqBool r) w').
Proof.
  split.
  - intros Ha b pb _ ->. unfold equals. rewrite Ha.
    eexists. split; [reflexivity|]. apply params_eqb_spec.
  - intros Hc r w'. unfold equals.
    destruct (is_column a).
    + unfold bind. destruct (CASColumn___eq__ a other w); discriminate.
    + destruct Hc as [Hc|(c & ->)]; [discriminate|].
      unfold bind. destruct (CASColumn___eq__ c (Table a printed_a) w); discriminate.
Qed.

(** ** Normal bundles and construction *)

Definition keys {V} (p : list (string * V)) : list string :=
  map (fun kv => PyStr.lower (fst kv)) p.

(** No two keys of the bundle are equal up to case. *)
Definition normal {V} (p : list (string * V)) : Prop := NoDup (keys p).

Lemma key_eqb_true k k' :
  ParamManager.key_eqb k k' = true <-> PyStr.lower k = PyStr.lower k'.
Proof. unfold ParamManager.key_eqb. apply String.eqb_eq. Qed.

Lemma key_eqb_false k k' :
  ParamManager.key_eqb k k' = false <-> PyStr.lower k <> PyStr.lower k'.
Proof. unfold ParamManager.key_eqb. apply String.eqb_neq. Qed.

Lemma keys_set_in {V} k (v : V) p :
  PyStr.lower k ∈ keys p -> keys (ParamManager.set k v p) = keys p.
Proof.
  induction p as [|[k' v'] p IH]; intros H.
  - now apply elem_of_nil in H.
  - cbn [ParamManager.set]. destruct (ParamManager.key_eqb k k') eqn:E.
    + reflexivity.
    + apply key_eqb_false in E. unfold keys in *. cbn [map fst] in *.
      apply elem_of_cons in H as [H|H]; [contradiction|].
      now rewrite IH.
Qed.

Lemma set_fresh {V} k (v : V) p :
  PyStr.lower k ∉ keys p -> ParamManager.set k v p = p ++ [(k, v)].
Proof.
  induction p as [|[k' v'] p IH]; intros H; [reflexivity|].
  unfold keys in H. cbn [map fst] in H.
  apply not_elem_of_cons in H as [H1 H2].
  apply key_eqb_false in H1. cbn [ParamManager.set]. rewrite H1.
  now rewrite IH.
Qed.

Lemma normal_set {V} k (v : V) p : normal p -> normal (ParamManager.set k v p).
Proof.
  unfold normal. intros H.
  destruct (decide (PyStr.lower k ∈ keys p)) as [Hin|Hout].
  - now rewrite keys_set_in.
  - rewrite (set_fresh _ _ _ Hout). unfold keys. rewrite map_app.
    apply NoDup_app. split; [exact H|]. split.
    + intros x Hx Hx'. cbn in Hx'. apply list_elem_of_singleton in Hx'. now subst.
    + apply NoDup_singleton.
Qed.

Lemma normal_fold {V} (l : list (string * V)) acc :
  normal acc ->
  normal (fold_left (fun p kv => ParamManager.set (fst kv) (snd kv) p) l acc).
Proof.
  revert acc. induction l as [|[k v] l IH]; intros acc H; simpl; [exact H|].
  apply IH. now apply normal_set.
Qed.

Lemma normal_of_kwargs {V} (l : list (string * V)) :
  normal (ParamManager.of_kwargs l).
Proof. apply normal_fold. apply NoDup_nil_2. Qed.

Lemma fold_set_normal {V} (l : list (string * V)) acc :
  normal (acc ++ l) ->
  fold_left (fun p kv => ParamManager.set (fst kv) (snd kv) p) l acc = acc ++ l.
Proof.
  revert acc. induction l as [|[k v] l IH]; intros acc H; simpl.
  - now rewrite app_nil_r.
  - assert (Hk : PyStr.lower k ∉ keys acc).
    { unfold normal, keys in H. rewrite map_app in H. simpl in H.
      apply NoDup_app in H as (_ & H & _). intros Hin.
      apply (H _ Hin). apply list_elem_of_here. }
    rewrite (set_fresh _ _ _ Hk). rewrite IH.
    + now rewrite <- app_assoc.
    + now rewrite <- app_assoc.
Qed.

Lemma of_kwargs_normal {V} (l : list (string * V)) :
  normal l -> ParamManager.of_kwargs l = l.
Proof. intros H. unfold ParamManager.of_kwargs. now rewrite fold_set_normal. Qed.

Lemma fold_set_head {V} (l : list (string * V)) k v acc :
  exists v' tail,
    fold_left (fun p kv => ParamManager.set (fst kv) (snd kv) p) l ((k, v) :: acc)
    = (k, v') :: tail.
Proof.
  revert v acc. induction l as [|[k1 v1] l IH]; intros v acc; simpl.
  - now exists v, acc.
  - destruct (ParamManager.key_eqb k1 k); apply IH.
Qed.

Lemma of_kwargs_head {V} (l : list (string * V)) k v :
  exists v' tail, ParamManager.of_kwargs ((k, v) :: l) = (k, v') :: tail.
Proof.
  unfold ParamManager.of_kwargs. simpl. apply fold_set_head.
Qed.

Lemma pop_exact_some {V} k (p : list (string * V)) :
  k ∈ map fst p -> exists v rest, pop_exact k p = Some (v, rest).
Proof.
  induction p as [|[k' v'] p IH]; simpl; intros H.
  - now apply elem_of_nil in H.
  - destruct (String.eqb_spec k k') as [->|Hne]; [now eexists _, _|].
    apply elem_of_cons in H as [H|H]; [contradiction|].
    destruct (IH H) as (v & rest & ->). now eexists _, _.
Qed.

(** ** Copies *)

(** The world [w] with more list objects at the end of the store. *)
Definition grown (w : world) (extra : list (list string)) : world :=
  mk_world (heap w ++ extra) (conns w) (trace w) (server w).

Lemma grown_nil w : grown w [] = w.
Proof. destruct w. unfold grown. simpl. now rewrite app_nil_r. Qed.

Lemma grown_grown w e e' : grown (grown w e) e' = grown w (e ++ e').
Proof. unfold grown. simpl. now rewrite app_assoc. Qed.

Lemma alloc_grown l w : alloc l w = Ok (length (heap w)) (grown w [l]).
Proof. reflexivity. Qed.

Lemma deepcopy_params_total p : forall memo w,
  exists p' extra,
    deepcopy_params memo p w = Ok p' (grown w extra) /\
    map fst p' = map fst p.
Proof.
  induction p as [|[k v] p IH]; intros memo w.
  - exists [], []. now rewrite grown_nil.
  - cbn [deepcopy_params]. destruct v as [s|r].
    + destruct (IH memo w) as (p' & extra & H & Hk).
      exists ((k, VStr s) :: p'), extra. split; [|now simpl; rewrite Hk].
      mcbv. cbn [deepcopy_value]. mcbv. cbn [fst snd].
      now rewrite H.
    + unfold deepcopy_value.
      destruct (list_find (λ m : nat * nat, m.1 = r) memo) as [[i [r0 r']]|].
      * destruct (IH memo w) as (p' & extra & H & Hk).
        exists ((k, VList r') :: p'), extra. split; [|now simpl; rewrite Hk].
        mcbv. cbn [fst snd]. now rewrite H.
      * destruct (IH ((r, length (heap w)) :: memo) (grown w [heap_get (heap w) r]))
          as (p' & extra & H & Hk).
        exists ((k, VList (length (heap w))) :: p'), ([heap_get (heap w) r] ++ extra).
        split; [|now simpl; rewrite Hk].
        mcbv. unfold read, alloc. cbn [fst snd].
        fold (grown w [heap_get (heap w) r]). rewrite H.
        now rewrite grown_grown.
Qed.

Lemma share_connection_ok a b w :
  exists b', share_connection a b w = Ok b' w /\
    h_kind b' = h_kind b /\ params b' = params b /\
    _action_params b' = _action_params b.
Proof.
  unfold share_connection.
  pose proof (get_connection_world a w) as Hw.
  destruct (get_connection a w) as [c w'|e w'] eqn:E; simpl in Hw; subst w'.
  - now eexists.
  - assert (He : is_swat_error e = true).
    { unfold get_connection, bind, deref in E.
      destruct (_connection a) as [c|]; simpl in E.
      - destruct (conns w !! c) as [cn|]; [destruct (alive cn)|];
          inversion E; reflexivity.
      - inversion E. reflexivity. }
    rewrite He. now eexists.
Qed.

Lemma __deepcopy___ok self w :
  "name" ∈ map fst (params self) ->
  exists out extra p' v rest,
    __deepcopy__ self w = Ok out (grown w extra) /\
    deepcopy_params [] (params self) w = Ok p' (grown w extra) /\
    pop_exact "name" p' = Some (v, rest) /\
    h_kind out = h_kind self /\
    params out = ParamManager.of_kwargs (("name", v) :: rest) /\
    _action_params out = _action_params self.
Proof.
  intros Hn.
  destruct (deepcopy_params_total (params self) [] w) as (p' & extra & H & Hk).
  rewrite <- Hk in Hn. destruct (pop_exact_some _ _ Hn) as (v & rest & Hp).
  unfold __deepcopy__. unfold bind at 1. rewrite H.
  unfold init. rewrite Hp. mcbv.
  match goal with |- context [share_connection self ?b _] =>
    destruct (share_connection_ok self b (grown w extra)) as (b' & -> & H1 & H2 & H3)
  end.
  exists b', extra, p', v, rest. repeat split; assumption.
Qed.

(** ** Selection of one column by name (C10) *)

(** [_to_column] with a name succeeds on every handle that has its
    [name] parameter, and the column it builds bears the name asked
    for. *)
Lemma _to_column_named self s w :
  "name" ∈ map fst (params self) ->
  exists c w2, _to_column self (Some s) w = Ok c w2 /\
    h_kind c = CASColumn /\ name c w2 = Ok s w2 /\
    trace w2 = trace w /\ conns w2 = conns w.
Proof.
  intros Hn.
  destruct (__deepcopy___ok self w Hn)
    as (table & extra & p' & v & rest & Hd & _ & _ & Hk & Hp & Ha).
  unfold _to_column. unfold bind at 1. rewrite Hd.
  unfold bind at 1. unfold bind at 1. rewrite alloc_grown. mcbv.
  destruct (of_kwargs_head rest "name" v) as (v' & tail & Ht).
  pose proof (normal_of_kwargs (("name", v) :: rest)) as Hnorm.
  rewrite Hp, Ht in *. clear Hp Ht.
  set (X := VList (length (heap (grown w extra)))).
  change (ParamManager.set "varlist" X (("name", v') :: tail))
    with (("name", v') :: ParamManager.set "varlist" X tail).
  unfold init. cbn [pop_exact String.eqb Ascii.eqb Bool.eqb].
  mcbv.
  assert (Hn' : normal (("name", v') :: ParamManager.set "varlist" X tail)).
  { change (normal (ParamManager.set "varlist" X (("name", v') :: tail))).
    now apply normal_set. }
  rewrite (of_kwargs_normal _ Hn').
  match goal with |- context [share_connection table ?b ?w0] =>
    destruct (share_connection_ok table b w0) as (c & -> & H1 & H2 & H3)
  end.
  eexists c, _. split; [reflexivity|]. split; [exact H1|].
  split; [|split; reflexivity].
  unfold name, get_param. rewrite H2. cbn [params].
  change (ParamManager.get "varlist" (("name", v') :: ParamManager.set "varlist" X tail))
    with (ParamManager.get "varlist" (ParamManager.set "varlist" X tail)).
  rewrite get_set_same. unfold X. mcbv. unfold read.
  change (heap (grown (grown w extra) [[s]])) with (heap (grown w extra) ++ [[s]]).
  now rewrite heap_get_alloc.
Qed.

(** C10.  On a table that is not a column, [tbl[key]] with a string
    key first determines the visible columns; when the key matches none
    of them, case aside, it raises [KeyError(key)]; otherwise it returns
    a column handle whose [name] is the key as it was asked for. *)
Theorem getitem_column_name (self : handle) (s : string) (w w1 : world)
    (cols : list string) :
  is_column self = false ->
  columns self w = Ok cols w1 ->
  (mem (str_lower s) (map str_lower cols) = false ->
   __getitem__ self (KName s) w = Raise (KeyError (PStr s)) w1) /\
  (mem (str_lower s) (map str_lower cols) = true ->
   "name" ∈ map fst (params self) ->
   exists c w2,
     __getitem__ self (KName s) w = Ok (Handle c) w2 /\
     h_kind c = CASColumn /\
     name c w2 = Ok s w2 /\
     trace w2 = trace w1).
Proof.
  intros Hk Hc. unfold __getitem__. rewrite Hk. split.
  - intros Hm. unfold bind. now rewrite Hc, Hm.
  - intros Hm Hn.
    destruct (_to_column_named self s w1 Hn) as (c & w2 & Ht & Hkind & Hname & Htr & _).
    exists c, w2. split; [|now repeat split].
    unfold bind at 1. rewrite Hc, Hm. unfold bind. now rewrite Ht.
Qed.

(** ** References into the store *)

(** Every list object the bundle refers to satisfies [P]. *)
Definition all_refs (P : nat -> Prop) (p : list (string * pvalue)) : Prop :=
  Forall (fun kv => match snd kv with VList r => P r | VStr _ => True end) p.

(** The bundle only refers to list objects of the store. *)
Definition well_formed (hp : list (list string)) (p : list (string * pvalue))
  : Prop :=
  all_refs (fun r => r < length hp) p.

Lemma all_refs_impl (P Q : nat -> Prop) p :
  (forall r, P r -> Q r) -> all_refs P p -> all_refs Q p.
Proof.
  intros H Hp. unfold all_refs in *. eapply Forall_impl; [exact Hp|].
  intros [k [s|r]]; simpl; auto.
Qed.

Lemma all_refs_get P p k r :
  all_refs P p -> ParamManager.get k p = Some (VList r) -> P r.
Proof.
  induction p as [|[k' v'] p IH]; simpl; [discriminate|].
  intros H. inversion H as [|? ? Hv Hp]; subst.
  destruct (ParamManager.key_eqb k k').
  - intros [= ->]. exact Hv.
  - now apply IH.
Qed.

Lemma all_refs_set P p k v :
  all_refs P p -> match v with VList r => P r | VStr _ => True end ->
  all_refs P (ParamManager.set k v p).
Proof.
  intros Hp Hv. induction p as [|[k' v'] p IH]; simpl.
  - constructor; [exact Hv | constructor].
  - inversion Hp as [|? ? H1 H2]; subst.
    destruct (ParamManager.key_eqb k k').
    + constructor; [exact Hv | exact H2].
    + constructor; [exact H1 | now apply IH].
Qed.

Lemma resolve_agree hp hp' v :
  match v with VList r => heap_get hp' r = heap_get hp r | VStr _ => True end ->
  resolve hp' v = resolve hp v.
Proof. destruct v; simpl; [reflexivity | now intros ->]. Qed.

Lemma snapshot_agree hp hp' p :
  all_refs (fun r => heap_get hp' r = heap_get hp r) p ->
  snapshot hp' p = snapshot hp p.
Proof.
  induction 1 as [|[k v] p Hv Hp IH]; simpl; [reflexivity|].
  rewrite IH. f_equal. f_equal. now apply resolve_agree.
Qed.

Lemma snapshot_grow hp extra p :
  well_formed hp p -> snapshot (hp ++ extra) p = snapshot hp p.
Proof.
  intros H. apply snapshot_agree. revert H. apply all_refs_impl.
  intros r Hr. unfold heap_get. now rewrite lookup_app_l.
Qed.

Lemma get_snapshot hp p k :
  ParamManager.get k (snapshot hp p) = resolve hp <$> ParamManager.get k p.
Proof.
  induction p as [|[k' v'] p IH]; simpl; [reflexivity|].
  destruct (ParamManager.key_eqb k k'); [reflexivity | exact IH].
Qed.

(** The memo of a deep copy in progress: it maps objects of the source,
    below [n], to their copies, which are new and hold the same items. *)
Definition memo_ok (n : nat) (hp : list (list string)) (memo : list (nat * nat))
  : Prop :=
  Forall (fun m => fst m < n /\ n <= snd m < length hp /\
                   heap_get hp (snd m) = heap_get hp (fst m)) memo.

Lemma memo_ok_grow n hp l memo :
  n <= length hp -> memo_ok n hp memo -> memo_ok n (hp ++ [l]) memo.
Proof.
  intros Hn Hm. unfold memo_ok in *. eapply Forall_impl; [exact Hm|].
  intros [r r']; simpl. intros (H1 & [H2 H3] & H4).
  rewrite length_app. simpl. repeat split; try lia.
  rewrite !heap_get_alloc_old by lia. exact H4.
Qed.

Lemma deepcopy_params_fresh p : forall memo w n,
  n <= length (heap w) ->
  all_refs (fun r => r < n) p ->
  memo_ok n (heap w) memo ->
  exists p' extra,
    deepcopy_params memo p w = Ok p' (grown w extra) /\
    map fst p' = map fst p /\
    all_refs (fun r => n <= r < length (heap w ++ extra)) p' /\
    snapshot (heap w ++ extra) p' = snapshot (heap w) p.
Proof.
  induction p as [|[k v] p IH]; intros memo w n Hn Hp Hm.
  - exists [], []. rewrite grown_nil. repeat split. constructor.
  - inversion Hp as [|? ? Hv Hp']; subst. cbn [deepcopy_params].
    destruct v as [s|r].
    + destruct (IH memo w n Hn Hp' Hm) as (p' & extra & H & Hk & Hr & Hs).
      exists ((k, VStr s) :: p'), extra.
      split; [mcbv; cbn [deepcopy_value]; mcbv; cbn [fst snd]; now rewrite H|].
      split; [now simpl; rewrite Hk|].
      split; [constructor; [exact I | exact Hr]|].
      simpl. now rewrite Hs.
    + simpl in Hv. unfold deepcopy_value.
      destruct (list_find (λ m : nat * nat, m.1 = r) memo) as [[i [r0 r']]|] eqn:Ef.
      * apply list_find_Some in Ef as (Hi & Hr0 & _). simpl in Hr0. subst r0.
        apply list_elem_of_lookup_2 in Hi.
        pose proof Hm as Hm0. unfold memo_ok in Hm0. rewrite Forall_forall in Hm0.
        destruct (Hm0 _ Hi) as (_ & [Hb1 Hb2] & Hc). simpl in Hb1, Hb2, Hc.
        destruct (IH memo w n Hn Hp' Hm) as (p' & extra & H & Hk & Hr & Hs).
        exists ((k, VList r') :: p'), extra.
        split; [mcbv; cbn [fst snd]; now rewrite H|].
        split; [now simpl; rewrite Hk|].
        split; [constructor; [simpl; rewrite length_app; lia | exact Hr]|].
        simpl. rewrite Hs. f_equal. f_equal. f_equal.
        unfold heap_get at 1. rewrite lookup_app_l by lia.
        exact Hc.
      * set (l := heap_get (heap w) r).
        assert (Hm' : memo_ok n (heap (grown w [l])) ((r, length (heap w)) :: memo)).
        { constructor.
          - simpl. rewrite length_app. simpl. repeat split; try lia.
            rewrite heap_get_alloc. rewrite heap_get_alloc_old by lia. reflexivity.
          - now apply memo_ok_grow. }
        assert (Hn' : n <= length (heap (grown w [l]))).
        { simpl. rewrite length_app. lia. }
        destruct (IH _ _ n Hn' Hp' Hm') as (p' & extra & H & Hk & Hr & Hs).
        exists ((k, VList (length (heap w))) :: p'), ([l] ++ extra).
        split.
        { mcbv. unfold read, alloc. cbn [fst snd]. fold l. fold (grown w [l]).
          rewrite H. now rewrite grown_grown. }
        split; [now simpl; rewrite Hk|].
        change (heap (grown w [l])) with (heap w ++ [l]) in Hr, Hs.
        rewrite <- app_assoc in Hr, Hs.
        split.
        { constructor; [|exact Hr]. cbn [snd]. rewrite !length_app.
          cbn [length]. lia. }
        cbn [snapshot map fst snd]. fold (snapshot (heap w ++ [l] ++ extra) p').
        fold (snapshot (heap w) p). rewrite Hs. f_equal.
        { f_equal. cbn [resolve]. f_equal. unfold heap_get at 1.
          rewrite lookup_app_r by lia. now rewrite Nat.sub_diag. }
        apply snapshot_grow. eapply all_refs_impl; [|exact Hp'].
        cbn beta. intros; lia.
Qed.

Lemma pop_exact_perm {V} k (p : list (string * V)) v rest :
  pop_exact k p = Some (v, rest) -> p ≡ₚ (k, v) :: rest.
Proof.
  revert rest. induction p as [|[k' v'] p IH]; simpl; intros rest; [discriminate|].
  destruct (String.eqb_spec k k') as [->|Hne].
  - now intros [= -> ->].
  - destruct (pop_exact k p) as [[x r]|]; [|discriminate].
    intros [= -> <-]. rewrite (IH r eq_refl). apply Permutation_swap.
Qed.

Lemma normal_perm {V} (p q : list (string * V)) :
  p ≡ₚ q -> normal p -> normal q.
Proof. unfold normal, keys. intros H. now rewrite H. Qed.

Lemma all_refs_perm P p q : p ≡ₚ q -> all_refs P p -> all_refs P q.
Proof. unfold all_refs. intros H. now rewrite H. Qed.

Lemma get_none_keys {V} k (p : list (string * V)) :
  ParamManager.get k p = None <-> PyStr.lower k ∉ keys p.
Proof.
  induction p as [|[k' v'] p IH]; simpl.
  - split; [intros _; apply not_elem_of_nil | reflexivity].
  - destruct (ParamManager.key_eqb k k') eqn:E.
    + apply key_eqb_true in E. split; [discriminate|].
      intros H. exfalso. apply H. rewrite E. apply list_elem_of_here.
    + apply key_eqb_false in E. rewrite IH. unfold keys. simpl.
      rewrite not_elem_of_cons. tauto.
Qed.

Lemma get_perm {V} (p q : list (string * V)) k :
  normal p -> p ≡ₚ q -> ParamManager.get k p = ParamManager.get k q.
Proof.
  intros Hn Hpq. revert Hn. induction Hpq as [|[k' v'] p q Hpq IH|[k1 v1] [k2 v2] p|p q r H1 IH1 H2 IH2];
    intros Hn.
  - reflexivity.
  - simpl. destruct (ParamManager.key_eqb k k'); [reflexivity|].
    apply IH. unfold normal, keys in *. simpl in Hn. now apply NoDup_cons_1_2 in Hn.
  - simpl. destruct (ParamManager.key_eqb k k1) eqn:E1,
      (ParamManager.key_eqb k k2) eqn:E2; try reflexivity.
    apply key_eqb_true in E1, E2. unfold normal, keys in Hn. simpl in Hn.
    apply NoDup_cons_1_1 in Hn. exfalso. apply Hn.
    rewrite <- E2, E1. apply list_elem_of_here.
  - rewrite IH1 by exact Hn. apply IH2. now apply (normal_perm p q).
Qed.

(** ** Computations that leave the store alone *)

Definition keeps_store {A} (m : M A) : Prop :=
  forall w, heap (world_of (m w)) = heap w.

Lemma keeps_store_bind {A B} (m : M A) (k : A -> M B) :
  keeps_store m -> (forall a, keeps_store (k a)) -> keeps_store (bind m k).
Proof.
  intros Hm Hk w. unfold bind. specialize (Hm w).
  destruct (m w) as [a w'|e w']; simpl in *; [|exact Hm].
  now rewrite Hk.
Qed.

Lemma keeps_store_columns h : keeps_store (columns h).
Proof.
  unfold columns, truthy, _columninfo, _retrieve, retrieve.
  repeat first
    [ apply keeps_store_bind; [|intros]
    | match goal with
      | |- keeps_store (match ?x with _ => _ end) => destruct x
      end
    | intros w; reflexivity
    | intros w; apply (f_equal heap (get_connection_world h w)) ].
Qed.

Lemma columns_store h w cols w' :
  columns h w = Ok cols w' -> heap w' = heap w.
Proof.
  intros H. pose proof (keeps_store_columns h w) as Hk. now rewrite H in Hk.
Qed.

(** A deep copy of a handle with a normal, well-formed bundle: new list
    objects only, and an equal bundle. *)
Lemma __deepcopy___spec self w out w1 :
  normal (params self) ->
  well_formed (heap w) (params self) ->
  __deepcopy__ self w = Ok out w1 ->
  exists extra,
    w1 = grown w extra /\
    h_kind out = h_kind self /\
    _action_params out = _action_params self /\
    normal (params out) /\
    "name" ∈ map fst (params out) /\
    all_refs (fun r => length (heap w) <= r < length (heap w ++ extra))
             (params out) /\
    bundle_equal (snapshot (heap w ++ extra) (params out))
                 (snapshot (heap w) (params self)).
Proof.
  intros Hnorm Hwf H.
  destruct (deepcopy_params_fresh (params self) [] w (length (heap w)))
    as (p' & extra & Hd & Hk & Hr & Hs); [lia | exact Hwf | constructor |].
  unfold __deepcopy__ in H. unfold bind at 1 in H. rewrite Hd in H.
  unfold init in H.
  destruct (pop_exact "name" p') as [[v rest]|] eqn:Hp; [|discriminate H].
  pose proof (pop_exact_perm _ _ _ _ Hp) as Hperm.
  assert (Hn' : normal p').
  { unfold normal, keys in *.
    replace (map (λ kv, PyStr.lower kv.1) p') with (map PyStr.lower (map fst p'))
      by now rewrite map_map.
    rewrite Hk, map_map. exact Hnorm. }
  assert (Hn2 : normal (("name", v) :: rest)) by now apply (normal_perm p').
  rewrite (of_kwargs_normal _ Hn2) in H.
  cbv beta iota zeta delta [bind ret raise] in H.
  match type of H with context [share_connection self ?b ?w0] =>
    destruct (share_connection_ok self b w0) as (b' & Hsh & H1 & H2 & H3)
  end.
  rewrite Hsh in H. injection H as Ho Hw. subst out w1.
  exists extra. split; [reflexivity|]. split; [exact H1|]. split; [exact H3|].
  rewrite H2. cbn [params].
  split; [exact Hn2|]. split; [apply list_elem_of_here|].
  split; [now apply (all_refs_perm _ p')|].
  intros k. rewrite <- Hs.
  rewrite !get_snapshot. f_equal. symmetry. now apply get_perm.
Qed.

(** ** What the [append_*] methods do to the store *)

(** From [hp] to [hp'], list objects were added, and among the old ones
    only those in [S] may have changed. *)
Definition changed_only (S : nat -> Prop) (hp hp' : list (list string)) : Prop :=
  length hp <= length hp' /\
  forall l, l < length hp -> ~ S l -> hp' !! l = hp !! l.

Lemma changed_only_refl S hp : changed_only S hp hp.
Proof. split; [lia | reflexivity]. Qed.

Lemma changed_only_trans S a b c :
  changed_only S a b -> changed_only S b c -> changed_only S a c.
Proof.
  intros [L1 H1] [L2 H2]. split; [lia|].
  intros l Hl HS. rewrite H2 by (try lia; exact HS). now apply H1.
Qed.

Lemma changed_only_app S hp hp1 extra :
  changed_only S hp hp1 -> changed_only S hp (hp1 ++ extra).
Proof.
  intros [L H]. split; [rewrite length_app; lia|].
  intros l Hl HS. rewrite lookup_app_l by lia. now apply H.
Qed.

Lemma changed_only_insert (S : nat -> Prop) hp hp1 r x :
  changed_only S hp hp1 -> S r \/ length hp <= r ->
  changed_only S hp (<[r := x]> hp1).
Proof.
  intros [L H] Hr. split; [rewrite length_insert; lia|].
  intros l Hl HS. rewrite list_lookup_insert_ne; [now apply H|].
  intros ->. destruct Hr; [auto | lia].
Qed.

(** The list object a method works on, and the store once it exists. *)
Definition store_of (v : option pvalue) (hp : list (list string))
  : nat * list (list string) :=
  match v with
  | Some (VList r) => (r, hp)
  | Some (VStr s) => (length hp, hp ++ [[s]])
  | None => (length hp, hp ++ [[]])
  end.

(** The store after the truthy items have been appended to object [r]. *)
Definition appended (hp : list (list string)) (r : nat) (items : list item)
  : list (list string) :=
  <[r := heap_get hp r ++
         List.filter PyStr.truthy (concat (map (flatten_item hp) items))]> hp.


Lemma append_names_unfold key_ h items w :
  append_names_value key_ h items w
  = let '(r, hp1) := store_of (get_param h key_) (heap w) in
    let hp2 := appended hp1 r items in
    Ok (length hp2)
       (mk_world (hp2 ++ [_get_unique (heap_get hp2 r) true])
                 (conns w) (trace w) (server w)).
Proof.
  unfold append_names_value, store_of, as_list.
  destruct (get_param h key_) as [[s|r]|]; reflexivity.
Qed.

Lemma append_comppgm_unfold h items w :
  append_comppgm h items w
  = let '(r, hp1) := store_of (get_param h "comppgm") (heap w) in
    let hp2 := appended hp1 r items in
    let hp3 := <[r := map terminate (heap_get hp2 r)]> hp2 in
    Ok (set_param h "comppgm"
          (VStr (PyStr.join "" (_get_unique (heap_get hp3 r) false))))
       (mk_world hp3 (conns w) (trace w) (server w)).
Proof.
  unfold append_comppgm, append_comppgm_value, store_of, as_list.
  destruct (get_param h "comppgm") as [[s|r]|]; reflexivity.
Qed.

Lemma append_where_store h items w :
  append_where h items w
  = let '(r, hp1) := store_of (get_param h "where") (heap w) in
    let hp2 := appended hp1 r items in
    Ok (set_param h "where" (VStr (conjunction (heap_get hp2 r))))
       (mk_world hp2 (conns w) (trace w) (server w)).
Proof.
  unfold append_where, append_where_value, store_of, as_list.
  destruct (get_param h "where") as [[s|r]|]; reflexivity.
Qed.








(** ** Copies and shared list objects (C8) *)




Lemma get_set_other {V} k k' (v : V) p :
  ParamManager.key_eqb k k' = false ->
  ParamManager.get k (ParamManager.set k' v p) = ParamManager.get k p.
Proof.
  intros E. induction p as [|[k0 v0] p IH]; simpl.
  - now rewrite E.
  - destruct (ParamManager.key_eqb k' k0) eqn:E0; simpl.
    + destruct (ParamManager.key_eqb k k0) eqn:E1; [|reflexivity].
      apply key_eqb_true in E0, E1. apply key_eqb_false in E. congruence.
    + now rewrite IH.
Qed.

Lemma get_snapshot_set hp p k k' v :
  ParamManager.key_eqb k k' = false ->
  ParamManager.get k (snapshot hp (ParamManager.set k' v p))
  = ParamManager.get k (snapshot hp p).
Proof. intros E. rewrite !get_snapshot. now rewrite get_set_other. Qed.

Lemma get_set_cases {V} k k' (v : V) p :
  ParamManager.get k (ParamManager.set k' v p)
  = if ParamManager.key_eqb k k' then Some v else ParamManager.get k p.
Proof.
  destruct (ParamManager.key_eqb k k') eqn:E.
  - rewrite (get_key_eqb k k' _ E). apply get_set_same.
  - now apply get_set_other.
Qed.






(** A shallow copy: the same values under the same keys. *)
Lemma __copy___spec self w cp w1 :
  normal (params self) ->
  __copy__ self w = Ok cp w1 ->
  w1 = w /\ h_kind cp = h_kind self /\
  forall k, get_param cp k = get_param self k.
Proof.
  intros Hn H. unfold __copy__, init in H.
  destruct (pop_exact "name" (params self)) as [[v rest]|] eqn:Hp; [|discriminate H].
  pose proof (pop_exact_perm _ _ _ _ Hp) as Hperm.
  assert (Hn2 : normal (("name", v) :: rest)) by now apply (normal_perm (params self)).
  rewrite (of_kwargs_normal _ Hn2) in H.
  cbv beta iota zeta delta [bind ret raise] in H.
  match type of H with context [share_connection self ?b ?w0] =>
    destruct (share_connection_ok self b w0) as (b' & Hsh & H1 & H2 & H3)
  end.
  rewrite Hsh in H. injection H as Ho Hw. subst cp w1.
  split; [reflexivity|]. split; [exact H1|].
  intros k. unfold get_param. rewrite H2. cbn [params].
  symmetry. now apply get_perm.
Qed.

(** The table [cars] restricted to the columns [a] and [b], the list of
    which is object 0 of the store. *)
Definition ab_table : handle :=
  mk_handle CASTable [("name", VStr "cars"); ("varlist", VList 0)] [] (Some 0).

Definition ab_session : world :=
  mk_world [["a"; "b"]] [mk_conn true 0] [] cars_server.




(** ** Selection by a list (C9) *)

Lemma mem_In x l : mem x l = true <-> In x l.
Proof.
  unfold mem. rewrite existsb_exists. split.
  - intros (y & Hy & E). apply String.eqb_eq in E. now subst.
  - intros H. exists x. split; [exact H | apply String.eqb_refl].
Qed.

(** With [lowercase], [_get_unique] keeps, for every item, the item or
    its lower-case form. *)
Lemma get_unique_from_covers seen seq x :
  In x seq ->
  (In x (get_unique_from true seen seq) \/
   In (str_lower x) (get_unique_from true seen seq)) \/
  In x seen \/ In (str_lower x) seen.
Proof.
  revert seen. induction seq as [|a seq IH]; intros seen Hx; [destruct Hx|].
  simpl. destruct (mem a seen || mem (str_lower a) seen) eqn:E.
  - destruct Hx as [->|Hx]; [|now apply IH].
    right. apply orb_true_iff in E as [E|E]; [left; now apply mem_In|].
    right. now apply mem_In.
  - destruct Hx as [->|Hx]; [left; left; now left|].
    destruct (IH (a :: seen) Hx) as [[Hy|Hy]|[Hs|Hs]].
    + left. left. now right.
    + left. right. now right.
    + destruct Hs as [->|Hs]; [left; left; now left | right; now left].
    + destruct Hs as [Ha|Hs]; [|right; now right].
      left. right. left. exact Ha.
Qed.

Lemma get_unique_covers seq x :
  In x seq ->
  In x (_get_unique seq true) \/ In (str_lower x) (_get_unique seq true).
Proof.
  intros H. destruct (get_unique_from_covers [] seq x H) as [H'|[[]|[]]].
  exact H'.
Qed.

(** Without [lowercase], every item is kept once. *)
Lemma get_unique_from_keeps seen seq x :
  In x seq -> In x (get_unique_from false seen seq) \/ In x seen.
Proof.
  revert seen. induction seq as [|a seq IH]; intros seen Hx; [destruct Hx|].
  simpl. rewrite orb_false_r. destruct (mem a seen) eqn:E.
  - destruct Hx as [->|Hx]; [right; now apply mem_In | now apply IH].
  - destruct Hx as [->|Hx]; [left; now left|].
    destruct (IH (a :: seen) Hx) as [H|[->|H]].
    + left. now right.
    + left. now left.
    + now right.
Qed.

Lemma get_unique_keeps seq x : In x seq -> In x (_get_unique seq false).
Proof.
  intros H. destruct (get_unique_from_keeps [] seq x H) as [H'|[]]. exact H'.
Qed.

Lemma ends_with_semicolon_app a b :
  PyStr.ends_with_semicolon b = true ->
  PyStr.ends_with_semicolon (a +:+ b) = true.
Proof.
  intros H. induction a as [|c a IH]; [exact H|].
  change (String c a +:+ b) with (String c (a +:+ b)).
  cbn [PyStr.ends_with_semicolon]. rewrite IH. apply orb_true_r.
Qed.

Lemma ends_with_semicolon_stmt s : PyStr.ends_with_semicolon (s +:+ "; ") = true.
Proof. now apply ends_with_semicolon_app. Qed.

Lemma missing_stmt_shape col : exists s, missing_stmt col = s +:+ "; ".
Proof.
  exists (_nlit col +:+ " = ."). unfold missing_stmt.
  now rewrite append_assoc_string.
Qed.

Lemma terminate_missing_stmt col : terminate (missing_stmt col) = missing_stmt col.
Proof.
  destruct (missing_stmt_shape col) as [s ->]. unfold terminate.
  now rewrite ends_with_semicolon_stmt.
Qed.

Lemma truthy_missing_stmt col : PyStr.truthy (missing_stmt col) = true.
Proof.
  unfold missing_stmt. destruct (_nlit col); reflexivity.
Qed.

Lemma flatten_strings hp l :
  concat (map (flatten_item hp) [IList (map IStr l)]) = l.
Proof.
  simpl. rewrite app_nil_r. induction l as [|x l IH]; simpl; [reflexivity|].
  now rewrite IH.
Qed.

Lemma filter_truthy_all l :
  Forall (fun x => PyStr.truthy x = true) l -> List.filter PyStr.truthy l = l.
Proof.
  induction 1 as [|x l Hx Hl IH]; simpl; [reflexivity|]. now rewrite Hx, IH.
Qed.

Lemma heap_get_appended hp r items :
  r < length hp ->
  heap_get (appended hp r items) r
  = heap_get hp r ++
    List.filter PyStr.truthy (concat (map (flatten_item hp) items)).
Proof. intros H. unfold appended. now rewrite heap_get_write. Qed.

(** The list object behind a parameter, once [store_of] has made sure
    there is one. *)
Definition old_items (v : option pvalue) (hp : list (list string)) : list string :=
  match v with
  | Some (VList r) => heap_get hp r
  | Some (VStr s) => [s]
  | None => []
  end.

Lemma store_of_spec v hp :
  (forall r, v = Some (VList r) -> r < length hp) ->
  let '(r, hp1) := store_of v hp in
  r < length hp1 /\ heap_get hp1 r = old_items v hp /\
  changed_only (fun l => v = Some (VList l)) hp hp1 /\
  (v = Some (VList r) \/ length hp <= r).
Proof.
  intros Hv. destruct v as [[s|r]|]; simpl.
  - rewrite length_app, heap_get_alloc. simpl.
    split; [lia|]. split; [reflexivity|].
    split; [apply changed_only_app, changed_only_refl | right; lia].
  - split; [now apply Hv|]. split; [reflexivity|].
    split; [apply changed_only_refl | now left].
  - rewrite length_app, heap_get_alloc. simpl.
    split; [lia|]. split; [reflexivity|].
    split; [apply changed_only_app, changed_only_refl | right; lia].
Qed.

Lemma append_compvars_names h names w :
  (forall r, get_param h "compvars" = Some (VList r) -> r < length (heap w)) ->
  exists hp',
    append_compvars h [IList (map IStr names)] w
    = Ok (set_param h "compvars" (VList (length hp')))
         (mk_world
            (hp' ++ [_get_unique (old_items (get_param h "compvars") (heap w)
                                  ++ List.filter PyStr.truthy names) true])
            (conns w) (trace w) (server w)) /\
    changed_only (fun l => get_param h "compvars" = Some (VList l)) (heap w) hp'.
Proof.
  intros Hv. unfold append_compvars. unfold bind.
  rewrite append_names_unfold.
  pose proof (store_of_spec (get_param h "compvars") (heap w) Hv) as H.
  destruct (store_of (get_param h "compvars") (heap w)) as [r hp1].
  destruct H as (Hr & Hold & Hch & Hor). cbv zeta. unfold ret.
  exists (appended hp1 r [IList (map IStr names)]).
  rewrite heap_get_appended by exact Hr.
  rewrite flatten_strings, Hold. split; [reflexivity|].
  unfold appended. apply changed_only_insert; [exact Hch | exact Hor].
Qed.

Lemma append_comppgm_stmts h stmts w :
  (forall r, get_param h "comppgm" = Some (VList r) -> r < length (heap w)) ->
  exists hp',
    append_comppgm h [IList (map IStr stmts)] w
    = Ok (set_param h "comppgm"
            (VStr (PyStr.join ""
               (_get_unique
                  (map terminate
                     (old_items (get_param h "comppgm") (heap w)
                      ++ List.filter PyStr.truthy stmts)) false))))
         (mk_world hp' (conns w) (trace w) (server w)) /\
    changed_only (fun l => get_param h "comppgm" = Some (VList l)) (heap w) hp'.
Proof.
  intros Hv. rewrite append_comppgm_unfold.
  pose proof (store_of_spec (get_param h "comppgm") (heap w) Hv) as H.
  destruct (store_of (get_param h "comppgm") (heap w)) as [r hp1].
  destruct H as (Hr & Hold & Hch & Hor). cbv zeta.
  eexists. split.
  - rewrite heap_get_write by (unfold appended; rewrite length_insert; exact Hr).
    rewrite heap_get_appended by exact Hr.
    rewrite flatten_strings, Hold. reflexivity.
  - apply changed_only_insert; [|exact Hor].
    unfold appended. apply changed_only_insert; [exact Hch | exact Hor].
Qed.

Lemma key_eqb_literal a b :
  PyStr.lower a <> PyStr.lower b -> ParamManager.key_eqb a b = false.
Proof.
  intros H. destruct (ParamManager.key_eqb a b) eqn:E; [|reflexivity].
  apply key_eqb_true in E. contradiction.
Qed.

(** The part of a list selection that follows the copy: the names
    become the column list, the unknown ones are declared. *)
Lemma declare_spec (P : nat -> Prop) out names compvars w :
  all_refs P (params out) ->
  (forall r, P r -> r < length (heap w)) ->
  exists res hp',
    (let out := set_param out "varlist" (VList (length (heap w))) in
     match compvars with
     | [] => ret (Handle out)
     | _ =>
         out <- append_computed_columns out
                  (IList (map IStr compvars))
                  (IList (map IStr (map missing_stmt compvars))) ;;
         ret (Handle out)
     end) (grown w [names])
    = Ok (Handle res) (mk_world hp' (conns w) (trace w) (server w)) /\
    changed_only P (heap w) hp' /\
    all_refs (fun r => P r \/ length (heap w) <= r) (params res) /\
    get_param res "varlist" = Some (VList (length (heap w))) /\
    heap_get hp' (length (heap w)) = names /\
    (compvars <> [] ->
     exists rc old oldpgm,
       get_param res "compvars" = Some (VList rc) /\
       heap_get hp' rc
       = _get_unique (old ++ List.filter PyStr.truthy compvars) true /\
       get_param res "comppgm"
       = Some (VStr (PyStr.join ""
            (_get_unique
               (map terminate
                  (oldpgm ++ List.filter PyStr.truthy (map missing_stmt compvars)))
               false)))).
Proof.
  intros Hrefs Hbound. cbv zeta.
  set (n1 := length (heap w)).
  set (h := set_param out "varlist" (VList n1)).
  assert (Hh : forall k, ParamManager.key_eqb k "varlist" = false ->
                 get_param h k = get_param out k).
  { intros k Hk. unfold h, get_param, set_param. cbn [params].
    now apply get_set_other. }
  assert (Hout : forall k r, get_param out k = Some (VList r) -> P r).
  { intros k r Hk. eapply all_refs_get; [exact Hrefs | exact Hk]. }
  assert (Hfresh : all_refs (fun r => P r \/ n1 <= r) (params h)).
  { unfold h, set_param. cbn [params]. apply all_refs_set; [|right; lia].
    revert Hrefs. apply all_refs_impl. tauto. }
  destruct compvars as [|c0 cs].
  - exists h, (heap w ++ [names]). split; [reflexivity|].
    split; [apply changed_only_app, changed_only_refl|].
    split; [exact Hfresh|].
    split; [apply get_param_set_param|].
    split; [apply heap_get_alloc | intros H; now contradiction H].
  - set (compvars := c0 :: cs).
    unfold append_computed_columns.
    destruct (append_compvars_names h compvars (grown w [names]))
      as (hp1 & H1 & C1).
    { intros r Hr. rewrite Hh in Hr by reflexivity.
      apply Hout, Hbound in Hr. simpl. rewrite length_app. lia. }
    set (h1 := set_param h "compvars" (VList (length hp1))) in *.
    match type of H1 with _ = Ok _ ?x => set (w1 := x) in * end.
    assert (Hh1 : forall k, ParamManager.key_eqb k "compvars" = false ->
                   get_param h1 k = get_param h k).
    { intros k Hk. unfold h1, get_param, set_param. cbn [params].
      now apply get_set_other. }
    assert (L1 : n1 + 1 <= length hp1).
    { destruct C1 as [L _]. simpl in L. rewrite length_app in L. exact L. }
    destruct (append_comppgm_stmts h1 (map missing_stmt compvars) w1)
      as (hp2 & H2 & C2).
    { intros r Hr. rewrite Hh1, Hh in Hr by reflexivity.
      apply Hout, Hbound in Hr. unfold w1. simpl. rewrite length_app.
      fold n1 in Hr. lia. }
    eexists _, hp2. unfold bind at 1. unfold bind at 1. rewrite H1.
    unfold bind. rewrite H2. unfold ret, w1. cbn [conns trace server grown].
    split; [reflexivity|].
    assert (Hpgm : forall l, get_param h1 "comppgm" = Some (VList l) -> P l).
    { intros l Hl. rewrite Hh1, Hh in Hl by reflexivity. now apply Hout in Hl. }
    assert (Hcv : forall l, get_param h "compvars" = Some (VList l) -> P l).
    { intros l Hl. rewrite Hh in Hl by reflexivity. now apply Hout in Hl. }
    destruct C1 as [_ C1]. destruct C2 as [L2 C2].
    unfold w1 in L2, C2. cbn [heap] in L2, C2. rewrite length_app in L2.
    simpl in L2. cbn [grown heap] in C1.
    assert (Keep : forall l, l < n1 + 1 -> ~ P l ->
              hp2 !! l = (heap w ++ [names]) !! l).
    { intros l Hl HP. rewrite C2.
      - rewrite lookup_app_l by lia. apply C1.
        + rewrite length_app. simpl. fold n1. lia.
        + intros Hc. apply HP, Hcv, Hc.
      - rewrite length_app. simpl. lia.
      - intros Hc. apply HP, Hpgm, Hc. }
    split.
    { split; [fold n1; lia|]. intros l Hl HP.
      rewrite Keep by (fold n1 in Hl; lia || exact HP).
      now rewrite lookup_app_l. }
    split.
    { unfold set_param. cbn [params]. apply all_refs_set; [|exact I].
      unfold h1, set_param. cbn [params].
      apply all_refs_set; [exact Hfresh | right; lia]. }
    split.
    { unfold get_param, set_param. cbn [params].
      rewrite get_set_other by reflexivity.
      change (get_param h1 "varlist" = Some (VList n1)).
      rewrite Hh1 by reflexivity. apply get_param_set_param. }
    split.
    { unfold heap_get. rewrite Keep.
      - rewrite lookup_app_r by (fold n1; lia). fold n1.
        now rewrite Nat.sub_diag.
      - lia.
      - intros Hc. apply Hbound in Hc. fold n1 in Hc. lia. }
    intros _. eexists (length hp1), _, _. split.
    { unfold get_param, set_param. cbn [params].
      rewrite get_set_other by reflexivity. apply get_param_set_param. }
    split; [|apply get_param_set_param].
    unfold heap_get. rewrite C2.
    + rewrite lookup_app_r by lia. rewrite Nat.sub_diag. reflexivity.
    + rewrite length_app. simpl. lia.
    + intros Hc. apply Hpgm, Hbound in Hc. fold n1 in Hc. lia.
Qed.

Lemma unknown_nil colset names k :
  unknown colset names = [] -> In k names ->
  mem (str_lower k) colset = true.
Proof.
  unfold unknown. induction names as [|a l IH]; simpl; [contradiction|].
  destruct (mem (str_lower a) colset) eqn:E; simpl; [|discriminate].
  intros H [<-|Hk]; [exact E | now apply IH].
Qed.

Lemma unknown_In colset names k :
  In k names -> mem (str_lower k) colset = false -> PyStr.truthy k = true ->
  In k (List.filter PyStr.truthy (unknown colset names)).
Proof.
  intros Hk Hm Ht. apply List.filter_In. split; [|exact Ht].
  apply List.filter_In. split; [exact Hk | now rewrite Hm].
Qed.

(** On any column handle, a list key falls through to the final
    [raise KeyError(key)]. *)
Lemma list_selection_column (self : handle) (keys_ : list colkey) (w : world) :
  is_column self = true ->
  __getitem__ self (KList keys_) w = Raise (KeyError PObj) w.
Proof. intros H. unfold __getitem__. now rewrite H. Qed.

(** C9 (amended).  On a table handle that is not a column handle,
    whose visible columns can be determined and whose integer positions
    lie within them, [tbl[[k1, ..., kn]]] returns a handle whose
    [varlist] is exactly the requested names in the requested order,
    positions resolved to names.  Every non-empty name whose lower-case
    form is not the lower-case form of a visible column is among the
    computed variables of the result, as it is written or in its
    lower-case form, and the computed program has the statement that
    binds it to a missing value.  The bundle of the source is as
    before, the result refers to new list objects only, and nothing is
    sent to the server beyond the request for the columns. *)
Theorem list_selection (self out : handle) (keys_ : list colkey)
    (w w1 w2 : world) (cols names : list string) :
  is_column self = false ->
  normal (params self) ->
  well_formed (heap w) (params self) ->
  __deepcopy__ self w = Ok out w1 ->
  columns out w1 = Ok cols w2 ->
  resolve_keys cols keys_ = Some names ->
  exists res w3,
    __getitem__ self (KList keys_) w = Ok (Handle res) w3 /\
    resolve (heap w3) <$> get_param res "varlist" = Some (RList names) /\
    (forall k, In k names -> PyStr.truthy k = true ->
       mem (str_lower k) (map str_lower cols) = false ->
       (exists l, resolve (heap w3) <$> get_param res "compvars"
                  = Some (RList l) /\
                  (In k l \/ In (str_lower k) l)) /\
       (exists blocks, get_param res "comppgm"
                       = Some (VStr (PyStr.join "" blocks)) /\
                       In (missing_stmt k) blocks)) /\
    snapshot (heap w3) (params self) = snapshot (heap w) (params self) /\
    all_refs (fun r => length (heap w) <= r) (params res) /\
    trace w3 = trace w2.
Proof.
  intros Hk Hnorm Hwf Hd Hc Hr.
  destruct (__deepcopy___spec self w out w1 Hnorm Hwf Hd)
    as (extra & -> & _ & _ & _ & _ & Hrefs & _).
  pose proof (columns_store _ _ _ _ Hc) as Hheap. cbn [grown heap] in Hheap.
  set (P := fun r => length (heap w) <= r < length (heap w ++ extra)) in Hrefs.
  destruct (declare_spec P out names (unknown (map str_lower cols) names) w2
              Hrefs)
    as (res & hp' & Hsel & Hch & Hfresh & Hvar & Hnames & Hcomp).
  { intros r [_ Hlt]. now rewrite Hheap. }
  exists res, (mk_world hp' (conns w2) (trace w2) (server w2)).
  split.
  { unfold __getitem__. rewrite Hk. unfold bind at 1. rewrite Hd.
    unfold bind at 1. rewrite Hc, Hr. unfold bind at 1.
    rewrite alloc_grown. exact Hsel. }
  cbn [heap trace]. split.
  { rewrite Hvar. simpl. now rewrite Hnames. }
  split.
  { intros k Hin Ht Hm.
    destruct Hcomp as (rc & old & oldpgm & Hcv & Hrc & Hpgm).
    { intros E. pose proof (unknown_nil _ _ k E Hin) as E'. congruence. }
    pose proof (unknown_In _ _ _ Hin Hm Ht) as Hu.
    split.
    - pose proof (get_unique_covers (old ++ List.filter PyStr.truthy
                    (unknown (map str_lower cols) names)) k) as Hl.
      exists (heap_get hp' rc). rewrite Hcv. simpl.
      split; [reflexivity|]. rewrite Hrc. apply Hl.
      apply in_or_app. now right.
    - eexists. split; [exact Hpgm|].
      apply get_unique_keeps.
      rewrite <- (terminate_missing_stmt k). apply in_map.
      apply in_or_app. right. apply List.filter_In.
      split; [|apply truthy_missing_stmt].
      apply in_map. apply List.filter_In in Hu. tauto. }
  split; [|split; [|reflexivity]].
  2: { revert Hfresh. apply all_refs_impl. unfold P. rewrite Hheap.
       rewrite length_app. lia. }
  apply snapshot_agree. revert Hwf. apply all_refs_impl.
  intros r Hlt. unfold heap_get. destruct Hch as [_ Hch].
  rewrite Hheap in Hch. rewrite Hch.
  - now rewrite lookup_app_l.
  - rewrite length_app. lia.
  - unfold P. lia.
Qed.

(** * Further properties of the code *)

(** ** [_get_unique] *)

Lemma get_unique_from_notin b seen seq x :
  In x (get_unique_from b seen seq) -> In x seq /\ ~ In x seen.
Proof.
  revert seen. induction seq as [|a seq IH]; intros seen; simpl; [tauto|].
  destruct (mem a seen || b && mem (str_lower a) seen) eqn:E.
  - intros H. destruct (IH _ H). tauto.
  - apply orb_false_iff in E. destruct E as [E _].
    intros [->|H].
    + split; [now left|]. rewrite <- mem_In. now rewrite E.
    + destruct (IH _ H) as [H1 H2]. split; [now right|].
      intros Hs. apply H2. now right.
Qed.

Lemma get_unique_from_NoDup b seen seq :
  NoDup (get_unique_from b seen seq).
Proof.
  revert seen. induction seq as [|a seq IH]; intros seen; simpl.
  - constructor.
  - destruct (mem a seen || b && mem (str_lower a) seen); [apply IH|].
    constructor; [|apply IH].
    rewrite list_elem_of_In. intros H.
    apply get_unique_from_notin in H. destruct H as [_ H]. apply H. now left.
Qed.

Lemma get_unique_from_sublist b seen seq :
  sublist (get_unique_from b seen seq) seq.
Proof.
  revert seen. induction seq as [|a seq IH]; intros seen; simpl.
  - constructor.
  - destruct (mem a seen || b && mem (str_lower a) seen).
    + apply sublist_cons, IH.
    + apply sublist_skip, IH.
Qed.

(** What has been seen after a prefix: the result for a list is the
    result for the prefix, followed by the result for the rest with the
    items of the prefix seen as well. *)
Lemma get_unique_from_app seen l1 rest :
  exists seen',
    get_unique_from false seen (l1 ++ rest)
    = get_unique_from false seen l1 ++ get_unique_from false seen' rest /\
    (forall y, In y seen' <-> In y seen \/ In y l1).
Proof.
  revert seen. induction l1 as [|a l1 IH]; intros seen.
  - exists seen. split; [reflexivity|]. simpl. tauto.
  - simpl. rewrite orb_false_r. destruct (mem a seen) eqn:E.
    + destruct (IH seen) as (seen' & H & Hs). exists seen'.
      split; [exact H|]. intros y. rewrite Hs.
      apply mem_In in E. split; [tauto|].
      intros [Hy|[<-|Hy]]; tauto.
    + destruct (IH (a :: seen)) as (seen' & H & Hs). exists seen'.
      split; [simpl; now rewrite H|]. intros y. rewrite Hs. simpl. tauto.
Qed.

(** X1.  [_get_unique(seq)]: every item of [seq] once, at the place of its
    first occurrence: where [x] occurs for the first time in [seq], after
    the items [l1], the result is the result for [l1], then [x], then
    what the rest of [seq] adds. *)
Theorem get_unique_exact (seq : list string) :
  NoDup (_get_unique seq false) /\
  (forall x, In x (_get_unique seq false) <-> In x seq) /\
  sublist (_get_unique seq false) seq /\
  (forall l1 x l2, seq = l1 ++ x :: l2 -> ~ In x l1 ->
     exists r, _get_unique seq false = _get_unique l1 false ++ x :: r /\
               sublist r l2).
Proof.
  unfold _get_unique. split; [apply get_unique_from_NoDup|].
  split; [|split; [apply get_unique_from_sublist|]].
  - intros x. split.
    + intros H. now apply get_unique_from_notin in H.
    + apply get_unique_keeps.
  - intros l1 x l2 -> Hx.
    destruct (get_unique_from_app [] l1 (x :: l2)) as (seen' & H & Hs).
    rewrite H. simpl. rewrite orb_false_r.
    destruct (mem x seen') eqn:E.
    + apply mem_In, Hs in E. simpl in E. tauto.
    + eexists. split; [reflexivity | apply get_unique_from_sublist].
Qed.

Lemma get_unique_from_idem b seq : forall seen,
  get_unique_from b seen (get_unique_from b seen seq)
  = get_unique_from b seen seq.
Proof.
  induction seq as [|a seq IH]; intros seen; simpl; [reflexivity|].
  destruct (mem a seen || b && mem (str_lower a) seen) eqn:E.
  - apply IH.
  - simpl. rewrite E. f_equal. apply IH.
Qed.

(** X2.  [_get_unique] applied to its own result changes nothing, in both
    modes. *)
Theorem get_unique_idempotent (seq : list string) (lowercase : bool) :
  _get_unique (_get_unique seq lowercase) lowercase = _get_unique seq lowercase.
Proof. apply get_unique_from_idem. Qed.

(** X3.  [_get_unique(seq, lowercase=True)]: no item twice, in the order
    of [seq], and every item of [seq] is kept as it is written or in its
    lower-case form.  The test is made against the items as written: an
    item is dropped when its lower-case form was kept before it, not when
    another spelling was. *)
Theorem get_unique_lowercase (seq : list string) :
  NoDup (_get_unique seq true) /\
  sublist (_get_unique seq true) seq /\
  (forall x, In x seq ->
     In x (_get_unique seq true) \/ In (str_lower x) (_get_unique seq true)) /\
  (forall x y, str_lower x = y -> str_lower y = y -> x <> y ->
     _get_unique [y; x] true = [y] /\
     _get_unique [x; y] true = [x; y]).
Proof.
  split; [apply get_unique_from_NoDup|].
  split; [apply get_unique_from_sublist|].
  split; [intros x; apply get_unique_covers|].
  intros x y Hx Hy Hn. unfold _get_unique. simpl.
  assert (E1 : String.eqb x y = false) by now apply String.eqb_neq.
  assert (E2 : String.eqb y x = false).
  { apply String.eqb_neq. congruence. }
  rewrite Hx, Hy, ?E1, ?E2, ?String.eqb_refl. simpl.
  rewrite ?E1, ?E2, ?String.eqb_refl. simpl.
  rewrite ?Hx, ?Hy, ?E1, ?E2, ?String.eqb_refl. simpl.
  split; reflexivity.
Qed.

(** ** [_escape_string] and [_nlit] *)

Lemma double_quotes_inj s : forall t,
  PyStr.double_quotes s = PyStr.double_quotes t -> s = t.
Proof.
  induction s as [|c s IH]; intros [|d t]; simpl.
  - reflexivity.
  - destruct (Ascii.eqb d PyStr.dquote); discriminate.
  - destruct (Ascii.eqb c PyStr.dquote); discriminate.
  - destruct (Ascii.eqb c PyStr.dquote) eqn:Ec,
             (Ascii.eqb d PyStr.dquote) eqn:Ed.
    + apply Ascii.eqb_eq in Ec, Ed. subst. intros [= H]. f_equal. now apply IH.
    + intros [= <- H]. rewrite Ascii.eqb_refl in Ed. discriminate.
    + intros [= -> H]. rewrite Ascii.eqb_refl in Ec. discriminate.
    + intros [= -> H]. f_equal. now apply IH.
Qed.

Lemma append_inj_r (s t u : string) : s +:+ u = t +:+ u -> s = t.
Proof.
  intros H.
  assert (L : String.length s = String.length t).
  { apply (f_equal String.length) in H.
    rewrite !length_append_string in H. lia. }
  revert t H L. induction s as [|c s IH]; intros [|d t]; simpl;
    try reflexivity; try discriminate.
  intros [= -> H] [= L]. f_equal. now apply IH.
Qed.

(** X4.  Two different names never yield the same name literal: a name that
    begins with a letter or an underscore is its own literal, any other
    one is quoted, its double quotes doubled, and marked with [n]. *)
Theorem _nlit_injective (a b : string) : _nlit a = _nlit b -> a = b.
Proof.
  assert (Q : forall s c r, _nlit s = String c r ->
              (PyStr.is_alpha c || Ascii.eqb c "_" = true /\ s = String c r) \/
              (c = PyStr.dquote /\
               r = _escape_string s +:+ String PyStr.dquote "n")).
  { intros [|x s] c r; unfold _nlit.
    - intros [= <- <-]. right. split; reflexivity.
    - destruct (PyStr.is_alpha x || Ascii.eqb x "_") eqn:E.
      + intros [= <- <-]. left. now split.
      + intros [= <- <-]. right. now split. }
  assert (N : forall s, exists c r, _nlit s = String c r).
  { intros [|x s]; unfold _nlit; [now eexists _, _|].
    destruct (PyStr.is_alpha x || Ascii.eqb x "_"); now eexists _, _. }
  intros H. destruct (N a) as (c & r & Ha). rewrite Ha in H. symmetry in H.
  destruct (Q a c r Ha) as [[Ea Sa]|[Ca Ra]];
    destruct (Q b c r H) as [[Eb Sb]|[Cb Rb]].
  - congruence.
  - subst c. discriminate Ea.
  - subst c. discriminate Eb.
  - rewrite Ra in Rb. apply append_inj_r in Rb.
    now apply double_quotes_inj.
Qed.

(** ** Repeated code blocks *)

Lemma append_comppgm_flat h items new w :
  (forall r, get_param h "comppgm" = Some (VList r) -> r < length (heap w)) ->
  (forall hp, concat (map (flatten_item hp) items) = new) ->
  exists hp',
    append_comppgm h items w
    = Ok (set_param h "comppgm"
            (VStr (PyStr.join ""
               (_get_unique
                  (map terminate
                     (old_items (get_param h "comppgm") (heap w)
                      ++ List.filter PyStr.truthy new)) false))))
         (mk_world hp' (conns w) (trace w) (server w)) /\
    changed_only (fun l => get_param h "comppgm" = Some (VList l)) (heap w) hp'.
Proof.
  intros Hv Hflat. rewrite append_comppgm_unfold.
  pose proof (store_of_spec (get_param h "comppgm") (heap w) Hv) as H.
  destruct (store_of (get_param h "comppgm") (heap w)) as [r hp1].
  destruct H as (Hr & Hold & Hch & Hor). cbv zeta.
  eexists. split.
  - rewrite heap_get_write by (unfold appended; rewrite length_insert; exact Hr).
    rewrite heap_get_appended by exact Hr.
    rewrite Hflat, Hold. reflexivity.
  - apply changed_only_insert; [|exact Hor].
    unfold appended. apply changed_only_insert; [exact Hch | exact Hor].
Qed.

Lemma terminate_ends x : PyStr.ends_with_semicolon (terminate x) = true.
Proof.
  unfold terminate. destruct (PyStr.ends_with_semicolon x) eqn:E; [exact E|].
  apply ends_with_semicolon_stmt.
Qed.

Lemma terminate_idempotent x : terminate (terminate x) = terminate x.
Proof. unfold terminate at 1. now rewrite terminate_ends. Qed.

(** X5.  [append_comppgm] with a code block the handle already has changes
    nothing: on a handle without a program, a block appended once gives
    the block closed by a semicolon, and appending it again gives the same
    program. *)
Theorem append_comppgm_repeated (h : handle) (w : world) (x : string) :
  get_param h "comppgm" = None ->
  PyStr.truthy x = true ->
  exists h1 w1 h2 w2,
    append_comppgm h [IStr x] w = Ok h1 w1 /\
    get_param h1 "comppgm" = Some (VStr (terminate x)) /\
    append_comppgm h1 [IStr x] w1 = Ok h2 w2 /\
    get_param h2 "comppgm" = Some (VStr (terminate x)).
Proof.
  intros Hn Hx.
  destruct (append_comppgm_flat h [IStr x] [x] w) as (hp1 & H1 & _).
  { intros r Hr. congruence. }
  { reflexivity. }
  rewrite Hn in H1. cbn [old_items app List.filter] in H1. rewrite Hx in H1.
  unfold _get_unique in H1. cbn [map get_unique_from mem existsb orb andb PyStr.join] in H1.
  set (h1 := set_param h "comppgm" (VStr (terminate x))) in *.
  set (w1 := mk_world hp1 (conns w) (trace w) (server w)) in *.
  assert (G1 : get_param h1 "comppgm" = Some (VStr (terminate x)))
    by apply get_param_set_param.
  destruct (append_comppgm_flat h1 [IStr x] [x] w1) as (hp2 & H2 & _).
  { intros r Hr. congruence. }
  { reflexivity. }
  rewrite G1 in H2. cbn [old_items app List.filter] in H2. rewrite Hx in H2.
  unfold _get_unique in H2.
  cbn [map get_unique_from mem existsb orb andb] in H2.
  rewrite terminate_idempotent, String.eqb_refl in H2.
  cbn [orb PyStr.join] in H2.
  eexists h1, w1, _, _. split; [exact H1|]. split; [exact G1|].
  split; [exact H2|]. apply get_param_set_param.
Qed.

(** ** Removing a column *)

Lemma filter_length_all {A} (f : A -> bool) l :
  length (List.filter f l) = length l -> List.filter f l = l.
Proof.
  induction l as [|a l IH]; simpl; [reflexivity|].
  pose proof (List.filter_length_le f l) as Hle.
  destruct (f a); simpl; intros H.
  - f_equal. apply IH. lia.
  - lia.
Qed.

Lemma filter_sublist {A} (f : A -> bool) l : sublist (List.filter f l) l.
Proof.
  induction l as [|a l IH]; simpl; [constructor|].
  destruct (f a); [now apply sublist_skip | now apply sublist_cons].
Qed.

(** X8.  [del tbl[colname]]: once the visible columns are known, the call
    raises [KeyError(colname)] when none of them is [colname] up to case;
    otherwise the new [varlist] is a new list with the other columns, in
    their order, and nothing more is asked of the server. *)
Theorem delitem_removes_column (self : handle) (colname : string)
    (w w1 : world) (cols : list string) :
  columns self w = Ok cols w1 ->
  ((forall x, In x cols -> str_lower x <> str_lower colname) ->
   __delitem__ self colname w = Raise (KeyError (PStr colname)) w1) /\
  ((exists x, In x cols /\ str_lower x = str_lower colname) ->
   exists out w2 l,
     __delitem__ self colname w = Ok out w2 /\
     resolve (heap w2) <$> get_param out "varlist" = Some (RList l) /\
     (forall x, In x l <-> In x cols /\ str_lower x <> str_lower colname) /\
     sublist l cols /\
     trace w2 = trace w1).
Proof.
  intros Hc.
  set (keep := fun x => negb (String.eqb (str_lower x) (str_lower colname))).
  assert (Hd : __delitem__ self colname w
               = if Nat.eqb (length (List.filter keep cols)) (length cols)
                 then Raise (KeyError (PStr colname)) w1
                 else Ok (set_param self "varlist" (VList (length (heap w1))))
                         (grown w1 [List.filter keep cols])).
  { unfold __delitem__. unfold bind at 1. rewrite Hc. fold keep.
    now destruct (Nat.eqb (length (List.filter keep cols)) (length cols)). }
  rewrite Hd. clear Hd.
  assert (Hkeep : forall x, keep x = true <-> str_lower x <> str_lower colname).
  { intros x. unfold keep. rewrite negb_true_iff. apply String.eqb_neq. }
  split.
  - intros Hno.
    assert (E : List.filter keep cols = cols).
    { apply forallb_filter_id. apply forallb_forall. intros x Hx.
      apply Hkeep. now apply Hno. }
    rewrite E, Nat.eqb_refl. reflexivity.
  - intros (x & Hx & Hl).
    destruct (Nat.eqb (length (List.filter keep cols)) (length cols)) eqn:E.
    + apply Nat.eqb_eq, filter_length_all in E.
      assert (Hin : In x (List.filter keep cols)) by now rewrite E.
      apply List.filter_In in Hin. destruct Hin as [_ Hk].
      apply Hkeep in Hk. contradiction.
    + eexists _, _, (List.filter keep cols).
      split; [reflexivity|]. cbn [heap trace grown].
      rewrite get_param_set_param. cbn [fmap option_fmap option_map resolve].
      rewrite heap_get_alloc.
      split; [reflexivity|]. split; [|split; [apply filter_sublist | reflexivity]].
      intros y. rewrite List.filter_In, Hkeep. reflexivity.
Qed.

(** ** Single values *)

Lemma __copy___ok self w :
  "name" ∈ map fst (params self) -> exists cp, __copy__ self w = Ok cp w.
Proof.
  intros Hn. destruct (pop_exact_some _ _ Hn) as (v & rest & Hp).
  unfold __copy__, init. rewrite Hp. mcbv.
  match goal with |- context [share_connection self ?b ?w0] =>
    destruct (share_connection_ok self b w0) as (b' & -> & _)
  end.
  now exists b'.
Qed.

Lemma get_connection_heap h w hp :
  get_connection h (mk_world hp (conns w) (trace w) (server w))
  = match get_connection h w with
    | Ok c _ => Ok c (mk_world hp (conns w) (trace w) (server w))
    | Raise e _ => Raise e (mk_world hp (conns w) (trace w) (server w))
    end.
Proof.
  cbv beta iota delta [get_connection bind deref conns].
  destruct (_connection h) as [c|]; [|reflexivity].
  change (let (_, conns, _, _) := w in conns) with (conns w).
  destruct (conns w !! c) as [cn|]; [|reflexivity].
  destruct (alive cn); reflexivity.
Qed.

Lemma get_connection_grown h w c extra :
  get_connection h w = Ok c w ->
  get_connection h (grown w extra) = Ok c (grown w extra).
Proof.
  intros H. unfold grown. rewrite get_connection_heap. now rewrite H.
Qed.

Lemma request_of_grown c h w extra action kwargs :
  well_formed (heap w) (params h) ->
  request_of c h (grown w extra) action kwargs = request_of c h w action kwargs.
Proof.
  intros H. unfold request_of. cbn [grown heap]. now rewrite snapshot_grow.
Qed.

Lemma request_of_record c h w rq action kwargs :
  request_of c h (record rq w) action kwargs = request_of c h w action kwargs.
Proof. reflexivity. Qed.

Lemma get_groupby_vars_world h w :
  exists l, get_groupby_vars h w = Ok l w.
Proof.
  unfold get_groupby_vars, truthy, bind, read, ret.
  destruct (get_param h "groupby") as [[s|r]|].
  - destruct (PyStr.truthy s); now eexists.
  - destruct (heap_get (heap w) r); now eexists.
  - now eexists.
Qed.

Definition value_request (c : nat) (h : handle) (w : world) (row : Z) : request :=
  request_of c h w "table.fetch"
    [("noindex", ABool true); ("sastypes", ABool false);
     ("from_", AInt (row + 1)); ("to", AInt (row + 1))].

Lemma _fetch_ok h w c kwargs :
  get_connection h w = Ok c w ->
  let rq := request_of c h w "table.fetch"
              (("noindex", ABool true) :: ("sastypes", ABool false) :: kwargs) in
  (severity (server w rq) <= 1)%nat ->
  _fetch h kwargs w = Ok (tables (server w rq)) (record rq w).
Proof.
  intros Hc rq Hs. unfold _fetch.
  rewrite (bind_ok _ _ _ _ _ (_retrieve_ok _ _ _ _ _ Hc Hs)).
  destruct (get_groupby_vars_world h (record rq w)) as (l & Hl).
  rewrite (bind_ok _ _ _ _ _ Hl). reflexivity.
Qed.

(** X12.  [get_value(index, col)] for a column given by name, on a connected
    handle: the row count is asked; an index at or beyond it, on either
    side, raises [IndexError] and nothing is fetched; otherwise the one row
    at the index, counted from the end when negative, is fetched through
    the handle itself. *)
Theorem get_value_bounds (self : handle) (index : Z) (s : string)
    (w : world) (c : nat) (n : Z) :
  "name" ∈ map fst (params self) ->
  well_formed (heap w) (params self) ->
  get_connection self w = Ok c w ->
  let ask := request_of c self w "simple.numrows" [] in
  (severity (server w ask) <= 1)%nat ->
  numrows (server w ask) = Some n ->
  ((n <= Z.abs index)%Z ->
   exists w', get_value self index (CName s) w
              = Raise (out_of_bounds index n) w' /\
              trace w' = trace w ++ [ask]) /\
  ((Z.abs index < n)%Z ->
   let row := if (index <? 0)%Z then (index + n)%Z else index in
   let rq := value_request c self w row in
   (severity (server w rq) <= 1)%nat ->
   exists w', get_value self index (CName s) w
              = Ok (tables (server w rq), s) w' /\
              trace w' = trace w ++ [ask; rq]).
Proof.
  intros Hn Hwf Hc ask Hs Hnum.
  destruct (__copy___ok self w Hn) as (cp & Hcp).
  set (w2 := grown w [[s]]).
  assert (Hc2 : get_connection self w2 = Ok c w2) by now apply get_connection_grown.
  assert (Hask : request_of c self w2 "simple.numrows" [] = ask)
    by now apply request_of_grown.
  assert (Hrows : _numrows self w2 = Ok n (record ask w2)).
  { rewrite <- Hask. apply _numrows_ok; [exact Hc2 | |]; rewrite Hask; assumption. }
  assert (Hstart : get_value self index (CName s) w
                   = (if (n <=? Z.abs index)%Z then raise (out_of_bounds index n)
                      else
                        let index := if (index <? 0)%Z then (index + n)%Z else index in
                        out <- _fetch self [("from_", AInt (index + 1));
                                            ("to", AInt (index + 1))] ;;
                        ret (out, s)) (record ask w2)).
  { unfold get_value. mret. unfold copy. mrun Hcp.
    unfold bind at 1. rewrite alloc_grown. fold w2.
    unfold bind at 1. rewrite Hrows. reflexivity. }
  rewrite Hstart. clear Hstart. split.
  - intros Hout. apply Z.leb_le in Hout. rewrite Hout.
    eexists. split; [reflexivity|]. reflexivity.
  - intros Hin row rq Hsev. apply Z.leb_gt in Hin. rewrite Hin. cbv zeta.
    fold row.
    assert (Hc3 : get_connection self (record ask w2) = Ok c (record ask w2))
      by now apply get_connection_record.
    assert (Hrq : request_of c self (record ask w2) "table.fetch"
                    [("noindex", ABool true); ("sastypes", ABool false);
                     ("from_", AInt (row + 1)); ("to", AInt (row + 1))] = rq).
    { rewrite request_of_record. now apply request_of_grown. }
    pose proof (_fetch_ok self (record ask w2) c
                  [("from_", AInt (row + 1)); ("to", AInt (row + 1))] Hc3) as Hf.
    cbv zeta in Hf. rewrite Hrq in Hf.
    rewrite (bind_ok _ _ _ _ _ (Hf Hsev)).
    eexists. split; [reflexivity|]. cbn [record trace grown w2].
    now rewrite <- app_assoc.
Qed.

(** X13.  The label accessor [at] refuses a negative row without asking the
    server anything, and a row at or beyond the row count once it has
    asked for it: both raise [KeyError] with the position. *)
Theorem at_refuses_rows (tbl : handle) (row : Z) (col : colkey) (w : world) :
  let pos := if is_column tbl then PInt row else PObj in
  ((row < 0)%Z -> at_ tbl row col w = Raise (KeyError pos) w) /\
  (forall c n,
     (0 <= row)%Z ->
     get_connection tbl w = Ok c w ->
     let ask := request_of c tbl w "simple.numrows" [] in
     (severity (server w ask) <= 1)%nat ->
     numrows (server w ask) = Some n ->
     (n <= row)%Z ->
     at_ tbl row col w = Raise (KeyError pos) (record ask w)).
Proof.
  intros pos. split.
  - intros Hneg. unfold at_. apply Z.ltb_lt in Hneg. now rewrite Hneg.
  - intros c n H0 Hc ask Hs Hn Hle. unfold at_.
    apply Z.ltb_ge in H0. rewrite H0.
    unfold bind at 1. unfold bind at 1.
    rewrite (_numrows_ok tbl w c n Hc Hs Hn).
    apply Z.leb_le in Hle. now rewrite Hle.
Qed.

(** ** Copies and the connection *)

Lemma share_connection_spec a b w :
  share_connection a b w
  = Ok match get_connection a w with
       | Ok c _ => set_connection b (Some c)
       | Raise _ _ => b
       end w.
Proof.
  unfold share_connection.
  pose proof (get_connection_world a w) as Hw.
  destruct (get_connection a w) as [c w'|e w'] eqn:E; simpl in Hw; subst w'.
  - reflexivity.
  - assert (He : is_swat_error e = true).
    { unfold get_connection, bind, deref in E.
      destruct (_connection a) as [c|]; simpl in E.
      - destruct (conns w !! c) as [cn|]; [destruct (alive cn)|];
          inversion E; reflexivity.
      - inversion E. reflexivity. }
    now rewrite He.
Qed.

Definition connection_of (h : handle) (w : world) : option nat :=
  match get_connection h w with
  | Ok c _ => Some c
  | Raise _ _ => None
  end.

Lemma connection_of_grown h w extra :
  connection_of h (grown w extra) = connection_of h w.
Proof.
  unfold connection_of, grown. rewrite get_connection_heap.
  now destruct (get_connection h w).
Qed.

(** X11.  A copy, shallow or deep, of a handle that has its [name] never
    fails and sends nothing: it is bound to the connection of the source
    when that one is registered and alive, and to none otherwise, the
    [SWATError] of the missing connection being passed over. *)
Theorem copy_shares_connection (self : handle) (deep : bool) (w : world) :
  "name" ∈ map fst (params self) ->
  exists cp w',
    copy self deep w = Ok cp w' /\
    _connection cp = connection_of self w /\
    h_kind cp = h_kind self /\
    _action_params cp = _action_params self /\
    trace w' = trace w /\ conns w' = conns w.
Proof.
  intros Hn. destruct deep; unfold copy.
  - destruct (deepcopy_params_total (params self) [] w) as (p' & extra & H & Hk).
    rewrite <- Hk in Hn. destruct (pop_exact_some _ _ Hn) as (v & rest & Hp).
    unfold __deepcopy__. unfold bind at 1. rewrite H.
    unfold init. rewrite Hp. mcbv. rewrite share_connection_spec.
    eexists _, _. split; [reflexivity|].
    pose proof (connection_of_grown self w extra) as Hg.
    unfold connection_of in *.
    destruct (get_connection self (grown w extra));
      repeat split; try reflexivity; exact Hg.
  - destruct (pop_exact_some _ _ Hn) as (v & rest & Hp).
    unfold __copy__, init. rewrite Hp. mcbv. rewrite share_connection_spec.
    eexists _, _. split; [reflexivity|].
    unfold connection_of.
    destruct (get_connection self w); repeat split; reflexivity.
Qed.

(** ** Column operators *)

Lemma unconnected_heap w h hp :
  unconnected w h ->
  unconnected (mk_world hp (conns w) (trace w) (server w)) h.
Proof. intros H. exact H. Qed.

(** X19.  Building a computed column draws its name from the connection: on a
    handle that has no live connection, [_compute] raises the [SWATError]
    of [get_connection] and sends nothing, and so does every comparison
    of a column that has a name. *)
Theorem computed_columns_need_connection (self : handle) (w : world) :
  "name" ∈ map fst (params self) ->
  unconnected w self ->
  (forall funcname code use_quotes extra_compvars extra_comppgm add_length
          dtype_ kwargs,
     exists w',
       _compute self funcname code use_quotes extra_compvars extra_comppgm
                add_length dtype_ kwargs w
       = Raise no_connection w' /\ trace w' = trace w) /\
  (forall n operator other,
     name self w = Ok n w ->
     (forall c, other <> Column c) ->
     exists w', _compare self operator other w = Raise no_connection w' /\
                trace w' = trace w).
Proof.
  intros Hn Hu.
  assert (Hcomp : forall w0 funcname code use_quotes extra_compvars
                    extra_comppgm add_length dtype_ kwargs,
            heap w0 = heap w -> conns w0 = conns w -> trace w0 = trace w ->
            server w0 = server w ->
            exists w',
              _compute self funcname code use_quotes extra_compvars
                       extra_comppgm add_length dtype_ kwargs w0
              = Raise no_connection w' /\ trace w' = trace w).
  { intros w0 funcname code use_quotes ev ep al dt kw Hh Hcn Htr Hsv.
    assert (w0 = w) as -> by (destruct w0, w; simpl in *; congruence).
    destruct (__deepcopy___ok self w Hn)
      as (out & extra & p' & v & rest & Hd & _).
    unfold _compute. unfold bind at 1. rewrite Hd.
    unfold bind at 1.
    rewrite (get_connection_unconnected self (grown w extra)
               (unconnected_heap w self _ Hu)).
    eexists. split; reflexivity. }
  split.
  - intros. now apply Hcomp.
  - intros n operator other Hname Hother. unfold _compare, _to_expression.
    unfold bind at 1. unfold bind at 1. rewrite Hname. mcbv.
    destruct other as [c|t p|s|p]; [now contradiction (Hother c)| | |];
      now apply Hcomp.
Qed.

Lemma numeric_only_character self error funcname code other w c col type_ rest :
  get_connection self w = Ok c w ->
  let ask := request_of c self w "table.columninfo" [] in
  (severity (server w ask) <= 1)%nat ->
  ColumnInfo (server w ask) = Some ((col, type_) :: rest) ->
  In type_ character_types ->
  numeric_only self error funcname code other w
  = Raise (AttributeError error) (record ask w).
Proof.
  intros Hc ask Hs Hci Ht.
  unfold numeric_only, _is_character, dtype.
  unfold bind at 1. unfold bind at 1. unfold bind at 1.
  rewrite (_columninfo_ok _ _ _ _ Hc Hs Hci). mcbv.
  simpl in Ht. destruct Ht as [<-|[<-|[<-|[<-|[]]]]]; reflexivity.
Qed.

(** X20.  On a column that the server reports as character-typed, division,
    integer division, the remainder and the power are refused with an
    [AttributeError] that names the operator, once the type has been
    asked for and before anything is built. *)
Theorem division_refuses_character_column (self : handle) (other : pyobj)
    (w : world) (c : nat) (col type_ : string) (rest : list (string * string)) :
  get_connection self w = Ok c w ->
  let ask := request_of c self w "table.columninfo" [] in
  (severity (server w ask) <= 1)%nat ->
  ColumnInfo (server w ask) = Some ((col, type_) :: rest) ->
  In type_ ["char"; "varchar"; "binary"; "varbinary"] ->
  div self other w = Raise (AttributeError "div") (record ask w) /\
  truediv self other w = Raise (AttributeError "div") (record ask w) /\
  floordiv self other w = Raise (AttributeError "floordiv") (record ask w) /\
  mod_ self other w = Raise (AttributeError "mod") (record ask w) /\
  pow self other w = Raise (AttributeError "pow") (record ask w).
Proof.
  intros Hc ask Hs Hci Ht.
  repeat split; eapply numeric_only_character; eauto.
Qed.

(** ** Taking a column out *)

(** X9.  [pop(colname)] first builds the column from a deep copy of the
    handle, which never fails on a handle that has its [name], sends
    nothing and gives a column named [colname], whether or not the table
    has such a column; the outcome is then the one of [del tbl[colname]],
    with the column beside the new handle when it succeeds. *)
Theorem pop_builds_then_deletes (self : handle) (colname : string) (w : world) :
  "name" ∈ map fst (params self) ->
  exists out w2,
    h_kind out = CASColumn /\
    name out w2 = Ok colname w2 /\
    trace w2 = trace w /\ conns w2 = conns w /\
    pop self colname w
    = match __delitem__ self colname w2 with
      | Ok s w3 => Ok (out, s) w3
      | Raise e w3 => Raise e w3
      end.
Proof.
  intros Hn.
  destruct (__deepcopy___ok self w Hn)
    as (cp & extra & p' & v & rest & Hd & _ & _ & _ & Hp & _).
  assert (Hcp : "name" ∈ map fst (params cp)).
  { destruct (of_kwargs_head rest "name" v) as (v' & tail & Ht).
    rewrite Hp, Ht. apply list_elem_of_here. }
  destruct (_to_column_named cp colname (grown w extra) Hcp)
    as (out & w2 & Ht & Hkind & Hname & Htr & Hcn).
  exists out, w2. split; [exact Hkind|]. split; [exact Hname|].
  split; [exact Htr|]. split; [exact Hcn|].
  unfold pop, copy. unfold bind at 1. rewrite Hd.
  unfold bind at 1. rewrite Ht. unfold bind.
  now destruct (__delitem__ self colname w2).
Qed.

(** ** The first column *)

Lemma deepcopy_varlist self w out w1 r :
  normal (params self) ->
  well_formed (heap w) (params self) ->
  __deepcopy__ self w = Ok out w1 ->
  get_param self "varlist" = Some (VList r) ->
  exists r', get_param out "varlist" = Some (VList r') /\
             heap_get (heap w1) r' = heap_get (heap w) r /\
             r' < length (heap w1).
Proof.
  intros Hn Hwf Hd Hv.
  destruct (__deepcopy___spec self w out w1 Hn Hwf Hd)
    as (extra & -> & _ & _ & _ & _ & Hrefs & Hb).
  specialize (Hb "varlist"). rewrite !get_snapshot in Hb.
  unfold get_param in *. rewrite Hv in Hb. simpl in Hb.
  destruct (ParamManager.get "varlist" (params out)) as [[s|r']|] eqn:E;
    simpl in Hb; try discriminate.
  injection Hb as Hb. exists r'. split; [reflexivity|]. split; [exact Hb|].
  pose proof (all_refs_get _ _ _ _ Hrefs E) as Hr. simpl in Hr. simpl. lia.
Qed.

(** X10.  [_to_column()] without a name, on a handle whose [varlist] is a
    stored list that is not empty: the column is a deep copy restricted to
    the first entry of that list, and building it sends nothing.  The
    other parameters of the column are those of the handle. *)
Theorem to_column_takes_first (self : handle) (w : world) (r : nat)
    (x : string) (others : list string) :
  "name" ∈ map fst (params self) ->
  normal (params self) ->
  well_formed (heap w) (params self) ->
  get_param self "varlist" = Some (VList r) ->
  heap_get (heap w) r = x :: others ->
  exists c w2,
    _to_column self None w = Ok c w2 /\
    h_kind c = CASColumn /\
    name c w2 = Ok x w2 /\
    resolve (heap w2) <$> get_param c "varlist" = Some (RList [x]) /\
    snapshot (heap w2) (params self) = snapshot (heap w) (params self) /\
    trace w2 = trace w /\
    (forall k, ParamManager.key_eqb k "varlist" = false ->
       ParamManager.get k (snapshot (heap w2) (params c))
       = ParamManager.get k (snapshot (heap w) (params self))).
Proof.
  intros Hname Hn Hwf Hv Hx.
  destruct (__deepcopy___ok self w Hname)
    as (table & extra0 & p' & v & rest & Hd & _ & _ & Hk & Hp & Ha).
  destruct (__deepcopy___spec self w table _ Hn Hwf Hd)
    as (extra & Heq & _ & _ & _ & _ & Hrefs & Hb).
  rewrite Heq in Hd. clear Heq extra0.
  destruct (deepcopy_varlist self w table _ r Hn Hwf Hd Hv)
    as (r' & Hv' & Hr' & _).
  unfold _to_column. unfold bind at 1. rewrite Hd.
  unfold get_param in Hv'. rewrite Hv'.
  unfold bind at 1. unfold bind at 1. unfold read at 1. rewrite Hr', Hx.
  unfold bind at 1. rewrite alloc_grown. mcbv.
  destruct (of_kwargs_head rest "name" v) as (v' & tail & Ht).
  pose proof (normal_of_kwargs (("name", v) :: rest)) as Hnorm.
  rewrite Hp, Ht in *. clear Hp Ht.
  set (X := VList (length (heap (grown w extra)))).
  change (ParamManager.set "varlist" X (("name", v') :: tail))
    with (("name", v') :: ParamManager.set "varlist" X tail).
  unfold init. cbn [pop_exact String.eqb Ascii.eqb Bool.eqb].
  mcbv.
  assert (Hn' : normal (("name", v') :: ParamManager.set "varlist" X tail)).
  { change (normal (ParamManager.set "varlist" X (("name", v') :: tail))).
    now apply normal_set. }
  rewrite (of_kwargs_normal _ Hn').
  match goal with |- context [share_connection table ?b ?w0] =>
    destruct (share_connection_ok table b w0) as (c & -> & H1 & H2 & H3)
  end.
  assert (Hget : get_param c "varlist" = Some X).
  { unfold get_param. rewrite H2. cbn [params].
    change (ParamManager.get "varlist"
              (("name", v') :: ParamManager.set "varlist" X tail))
      with (ParamManager.get "varlist" (ParamManager.set "varlist" X tail)).
    apply get_set_same. }
  assert (Hheap : heap_get (heap (grown (grown w extra) [[x]]))
                           (length (heap (grown w extra))) = [x]).
  { change (heap (grown (grown w extra) [[x]]))
      with (heap (grown w extra) ++ [[x]]).
    apply heap_get_alloc. }
  eexists c, _. split; [reflexivity|]. split; [exact H1|].
  split; [|split; [|split; [|split; [reflexivity|]]]].
  - unfold name. rewrite Hget. unfold X. mcbv. unfold read.
    now rewrite Hheap.
  - rewrite Hget. unfold X. cbn [fmap option_fmap option_map resolve].
    now rewrite Hheap.
  - rewrite grown_grown. cbn [grown heap]. now apply snapshot_grow.
  - intros k Hk'. rewrite H2. cbn [params].
    change (("name", v') :: ParamManager.set "varlist" X tail)
      with (ParamManager.set "varlist" X (("name", v') :: tail)).
    rewrite get_snapshot_set by exact Hk'.
    rewrite <- (Hb k). f_equal.
    change (heap (grown (grown w extra) [[x]])) with ((heap w ++ extra) ++ [[x]]).
    apply snapshot_grow. revert Hrefs. apply all_refs_impl.
    intros l [_ Hl]. exact Hl.
Qed.

(** ** Positions the location accessors refuse *)

(** X14.  The location accessors [ix], [iloc] and [loc] never return for a
    slice of rows, whatever its ends and whatever the columns that come
    with it, on a table as on a column: the call raises.  On a table, a
    list of rows and a slice with a step other than 0 or 1 are refused
    with a [TypeError] before anything is asked of the server. *)
Theorem accessors_refuse_row_slices (acc : accessor) (table : handle)
    (w : world) :
  (forall s r w', accessor_getitem acc table (PosSlice s) w <> Ok r w') /\
  (forall s cols r w',
     accessor_getitem acc table (PosTuple (RowSlice s) cols) w <> Ok r w') /\
  (is_column table = false ->
   (forall cols,
      accessor_getitem acc table (PosTuple RowList cols) w
      = Raise (TypeError "Selecting and array of indexes is not supported") w) /\
   (forall s cols, bad_step (rstep s) = true ->
      accessor_getitem acc table (PosTuple (RowSlice s) cols) w
      = Raise (TypeError "Step values in slices are not supported") w) /\
   (forall s, bad_step (rstep s) = true ->
      accessor_getitem acc table (PosSlice s) w
      = Raise (TypeError "Step values in row slices are not supported") w)).
Proof.
  split; [|split].
  - intros s r w'. apply accessor_refuses_slice.
  - intros s cols r w' H. unfold accessor_getitem in H.
    destruct (is_column table) eqn:Hk; [discriminate H|].
    revert H. mret. unfold bind at 1.
    destruct (_get_table_selection table (PosTuple (RowSlice s) cols) w)
      as [[sel dt] w1|e w1] eqn:E; [|discriminate].
    apply selection_of_slice in E. now destruct E as [-> | ->].
  - intros Hk. unfold accessor_getitem, _get_table_selection. rewrite Hk.
    split; [|split].
    + reflexivity.
    + intros s cols Hs. mcbv. now rewrite Hs.
    + intros s Hs. mcbv. now rewrite Hs.
Qed.

(** ** The loop of [slice] *)

Lemma slice_group_plain start stop out g w c :
  (0 <= start)%Z -> (0 <= stop)%Z ->
  get_connection g w = Ok c w ->
  slice_group (start, Some stop, out) g w
  = match _retrieve g "table.fetch" (slice_kwargs start stop) w with
    | Ok r w' => Ok (start, Some stop, out ++ tables r) w'
    | Raise e w' => Raise e w'
    end.
Proof.
  intros H0 H1 Hc. unfold slice_group. simpl default.
  destruct (Z.ltb_spec start 0); [lia|].
  destruct (Z.ltb_spec stop 0); [lia|]. simpl orb. cbv iota.
  mret. unfold bind, ret.
  now destruct (_retrieve g "table.fetch" (slice_kwargs start stop) w).
Qed.

Lemma slice_group_next start stop out g w c :
  (0 <= start)%Z -> (0 <= stop)%Z ->
  get_connection g w = Ok c w ->
  (severity (server w (fetch_rows c g w start stop)) <= 1)%nat ->
  slice_group (start, Some stop, out) g w
  = Ok (start, Some stop, out ++ tables (server w (fetch_rows c g w start stop)))
       (record (fetch_rows c g w start stop) w).
Proof.
  intros H0 H1 Hc Hs. rewrite (slice_group_plain _ _ _ _ _ c H0 H1 Hc).
  unfold fetch_rows in *. fold (slice_kwargs start stop) in *.
  now rewrite (_retrieve_ok _ _ _ _ _ Hc Hs).
Qed.

Lemma slice_group_resolve start stop out g w c n :
  (start < 0)%Z -> (stop < 0)%Z ->
  get_connection g w = Ok c w ->
  let ask := request_of c g w "simple.numrows" [] in
  let rq := fetch_rows c g w (n + start) (n + stop) in
  (severity (server w ask) <= 1)%nat ->
  numrows (server w ask) = Some n ->
  (severity (server w rq) <= 1)%nat ->
  slice_group (start, Some stop, out) g w
  = Ok ((n + start)%Z, Some (n + stop)%Z, out ++ tables (server w rq))
       (record rq (record ask w)).
Proof.
  intros H0 H1 Hc ask rq Hs Hn Hs'. unfold slice_group. simpl default.
  destruct (Z.ltb_spec start 0); [|lia].
  destruct (Z.ltb_spec stop 0); [|lia]. simpl orb. cbv iota.
  unfold bind at 1. unfold bind at 1.
  rewrite (_numrows_ok _ _ _ _ Hc Hs Hn).
  unfold ret at 1. cbv beta iota. fold ask.
  assert (Hc1 : get_connection g (record ask w) = Ok c (record ask w))
    by now apply get_connection_record.
  assert (Hs1 : (severity (server (record ask w)
                   (request_of c g (record ask w) "table.fetch"
                      (slice_kwargs (n + start) (n + stop)))) <= 1)%nat)
    by exact Hs'.
  unfold bind at 1. rewrite (_retrieve_ok _ _ _ _ _ Hc1 Hs1). reflexivity.
Qed.

(** X15.  The loop of [slice] over the groups of a grouped table keeps its
    two positions from one group to the next: negative positions are
    resolved against the row count of the first group, and the second
    group is fetched at the positions so obtained, without its own row
    count being asked for. *)
Theorem slice_resolves_against_first_group (g1 g2 : handle) (w : world)
    (c1 c2 : nat) (start stop n : Z) :
  (start < 0)%Z -> (stop < 0)%Z ->
  (0 <= n + start)%Z -> (0 <= n + stop)%Z ->
  get_connection g1 w = Ok c1 w ->
  get_connection g2 w = Ok c2 w ->
  let ask := request_of c1 g1 w "simple.numrows" [] in
  let rq1 := fetch_rows c1 g1 w (n + start) (n + stop) in
  let rq2 := fetch_rows c2 g2 w (n + start) (n + stop) in
  (severity (server w ask) <= 1)%nat ->
  numrows (server w ask) = Some n ->
  (severity (server w rq1) <= 1)%nat ->
  (severity (server w rq2) <= 1)%nat ->
  exists w',
    foldM slice_group (start, Some stop, []) [g1; g2] w
    = Ok ((n + start)%Z, Some (n + stop)%Z,
          tables (server w rq1) ++ tables (server w rq2)) w' /\
    trace w' = trace w ++ [ask; rq1; rq2].
Proof.
  intros H0 H1 H2 H3 Hc1 Hc2 ask rq1 rq2 Hs Hn Hs1 Hs2.
  cbn [foldM]. unfold bind at 1.
  rewrite (slice_group_resolve start stop [] g1 w c1 n H0 H1 Hc1 Hs Hn Hs1).
  fold ask. fold rq1. set (w1 := record rq1 (record ask w)).
  assert (Hc2' : get_connection g2 w1 = Ok c2 w1).
  { unfold w1. now do 2 apply get_connection_record. }
  unfold bind at 1.
  rewrite (slice_group_next _ _ _ g2 w1 c2 H2 H3 Hc2' Hs2).
  eexists. split; [reflexivity|].
  cbn [record trace w1]. now rewrite <- !app_assoc.
Qed.

(** ** Errors of the server *)

(** X16.  An action that the server answers with a severity above 1 raises a
    [SWATError] that carries the status of the answer, after that one
    request: so do the row count, the column information and a [slice]
    of non-negative rows on a handle without group-by variables. *)
Theorem server_error_is_raised (h : handle) (w : world) (c : nat) :
  get_connection h w = Ok c w ->
  (let ask := request_of c h w "simple.numrows" [] in
   (1 < severity (server w ask))%nat ->
   _numrows h w = Raise (SWATError (status (server w ask))) (record ask w)) /\
  (let ask := request_of c h w "table.columninfo" [] in
   (1 < severity (server w ask))%nat ->
   _columninfo h w = Raise (SWATError (status (server w ask))) (record ask w)) /\
  (forall start stop,
     let rq := fetch_rows c h w start stop in
     get_groupby_vars h w = Ok [] w ->
     (0 <= start)%Z -> (0 <= stop)%Z ->
     (1 < severity (server w rq))%nat ->
     slice h start (Some stop) None w
     = Raise (SWATError (status (server w rq))) (record rq w)).
Proof.
  intros Hc. split; [|split].
  - intros ask Hs. unfold _numrows.
    now rewrite (bind_raise _ _ _ _ _ (_retrieve_failed _ _ _ _ _ Hc Hs)).
  - intros ask Hs. unfold _columninfo.
    now rewrite (bind_raise _ _ _ _ _ (_retrieve_failed _ _ _ _ _ Hc Hs)).
  - intros start stop rq Hg H0 H1 Hs. unfold slice.
    mret. unfold bind at 1. rewrite Hg. mret.
    cbn [foldM]. unfold bind at 1. unfold bind at 1.
    rewrite (slice_group_plain _ _ _ _ _ c H0 H1 Hc).
    unfold rq, fetch_rows in *. fold (slice_kwargs start stop) in *.
    now rewrite (_retrieve_failed _ _ _ _ _ Hc Hs).
Qed.

(** A server that refuses every action. *)
Definition refusing_server (rq : request) : response :=
  mk_response 2 "ERROR: The table could not be found." None None None [].

Definition refused_session : world :=
  mk_world [] [mk_conn true 0] [] refusing_server.

(** ** Sort keys *)

Lemma get_app {V} k (a b : list (string * V)) :
  ParamManager.get k (a ++ b)
  = match ParamManager.get k a with
    | Some v => Some v
    | None => ParamManager.get k b
    end.
Proof.
  induction a as [|[k' v'] a IH]; simpl; [reflexivity|].
  destruct (ParamManager.key_eqb k k'); [reflexivity | exact IH].
Qed.

Lemma get_fold_set {V} k (l : list (string * V)) : forall acc,
  normal l ->
  ParamManager.get k
    (fold_left (fun p kv => ParamManager.set (fst kv) (snd kv) p) l acc)
  = match ParamManager.get k l with
    | Some v => Some v
    | None => ParamManager.get k acc
    end.
Proof.
  induction l as [|[k1 v1] l IH] using rev_ind; intros acc Hn; [reflexivity|].
  rewrite fold_left_app. cbn [fold_left fst snd].
  rewrite get_set_cases, get_app. cbn [ParamManager.get].
  assert (Hl : normal l).
  { unfold normal, keys in *. rewrite map_app in Hn.
    now apply NoDup_app in Hn as (H & _ & _). }
  rewrite (IH acc Hl).
  destruct (ParamManager.key_eqb k k1) eqn:E.
  - destruct (ParamManager.get k l) as [v|] eqn:G; [|reflexivity].
    exfalso. unfold normal, keys in Hn. rewrite map_app in Hn.
    apply NoDup_app in Hn as (_ & Hd & _).
    apply (Hd (PyStr.lower k1)).
    + apply key_eqb_true in E. rewrite <- E.
      clear -G. induction l as [|[k' v'] l IH]; simpl in *; [discriminate|].
      destruct (ParamManager.key_eqb k k') eqn:E'.
      * apply key_eqb_true in E'. rewrite E'. apply list_elem_of_here.
      * apply list_elem_of_further. now apply IH.
    + simpl. apply list_elem_of_here.
  - now destruct (ParamManager.get k l).
Qed.

(** The sort keys a handle carries for [table.fetch]. *)
Definition sort_keys (h : handle) : list sortspec :=
  match ParamManager.get "sortby" (get_action_params h "table.fetch") with
  | Some (ASorts l) => l
  | _ => []
  end.

Definition sort_key (col_asc : string * bool) : sortspec :=
  mk_sortspec (fst col_asc)
    (if snd col_asc then "ASCENDING" else "DESCENDING") "RAW".

Definition sortable (h : handle) : Prop :=
  normal (get_action_params h "table.fetch") /\
  forall a, ParamManager.get "sortby" (get_action_params h "table.fetch")
            <> Some (AArg a).

Lemma get_action_params_set h name_ kw :
  get_action_params (set_action_params h name_ kw) name_
  = fold_left (fun p kv => ParamManager.set (fst kv) (snd kv) p) kw
      (get_action_params h name_).
Proof.
  unfold get_action_params at 1, set_action_params. cbn [_action_params].
  now rewrite get_set_same.
Qed.

Lemma sort_step_spec out col_asc w :
  sortable out ->
  exists out',
    sort_step out col_asc w = Ok out' w /\
    sortable out' /\
    sort_keys out' = sort_keys out ++ [sort_key col_asc] /\
    params out' = params out /\ h_kind out' = h_kind out /\
    _connection out' = _connection out.
Proof.
  intros [Hn Hs]. unfold sort_step, sort_keys.
  set (fetch := get_action_params out "table.fetch") in *.
  fold (sort_key col_asc).
  assert (Hstep : forall l,
            let out' := set_action_params out "table.fetch"
                          (ParamManager.set "sortby" (ASorts l) fetch) in
            sortable out' /\
            ParamManager.get "sortby" (get_action_params out' "table.fetch")
            = Some (ASorts l)).
  { intros l out'. unfold out'. unfold sortable.
    rewrite get_action_params_set. fold fetch.
    assert (Hg : ParamManager.get "sortby"
              (fold_left (fun p kv => ParamManager.set (fst kv) (snd kv) p)
                 (ParamManager.set "sortby" (ASorts l) fetch) fetch)
            = Some (ASorts l)).
    { rewrite get_fold_set by now apply normal_set.
      now rewrite get_set_same. }
    split; [split|exact Hg].
    - now apply normal_fold.
    - intros a. rewrite Hg. discriminate. }
  destruct (ParamManager.get "sortby" fetch) as [[l|a]|] eqn:G.
  - destruct (Hstep (l ++ [sort_key col_asc])) as [H1 H2].
    eexists. split; [reflexivity|]. split; [exact H1|].
    rewrite H2. repeat split; reflexivity.
  - now contradiction (Hs a).
  - destruct (Hstep [sort_key col_asc]) as [H1 H2].
    eexists. split; [reflexivity|]. split; [exact H1|].
    rewrite H2. repeat split; reflexivity.
Qed.

Lemma sort_loop_spec l : forall out w,
  sortable out ->
  exists out',
    foldM sort_step out l w = Ok out' w /\
    sortable out' /\
    sort_keys out' = sort_keys out ++ map sort_key l /\
    params out' = params out /\ h_kind out' = h_kind out /\
    _connection out' = _connection out.
Proof.
  induction l as [|x l IH]; intros out w Hs.
  - exists out. rewrite app_nil_r. repeat split; try reflexivity; apply Hs.
  - destruct (sort_step_spec out x w Hs) as (o1 & H1 & S1 & K1 & P1 & Q1 & C1).
    destruct (IH o1 w S1) as (o2 & H2 & S2 & K2 & P2 & Q2 & C2).
    exists o2. cbn [foldM]. unfold bind. rewrite H1.
    split; [exact H2|]. split; [exact S2|].
    split; [|split; [congruence | split; congruence]].
    rewrite K2, K1. cbn [map]. now rewrite <- app_assoc.
Qed.

Lemma zip_length {A B} (a : list A) : forall (b : list B),
  length (zip a b) = Nat.min (length a) (length b).
Proof.
  induction a as [|x a IH]; intros [|y b]; simpl; try reflexivity.
  now rewrite IH.
Qed.

(** X17.  [sort_values(by, ascending, inplace=True)] adds one sort key per
    pair of a column and a flag, after the keys the handle already has and
    in the order of [by]; with a list of flags the pairs are those of
    [zip]: the columns beyond the last flag are left out.  Nothing else of
    the handle changes and nothing is sent. *)
Theorem sort_values_appends_keys (self : handle) (by_ : list string)
    (ascending : bool + list bool) (w : world) :
  sortable self ->
  let flags := match ascending with
               | inl b => repeat b (length by_)
               | inr l => l
               end in
  exists out,
    sort_values self by_ ascending true w = Ok out w /\
    sort_keys out = sort_keys self ++ map sort_key (zip by_ flags) /\
    length (sort_keys out)
    = length (sort_keys self) + Nat.min (length by_) (length flags) /\
    params out = params self.
Proof.
  intros Hs flags. unfold sort_values. mret. fold flags.
  destruct (sort_loop_spec (zip by_ flags) self w Hs)
    as (out & H & _ & K & P & _).
  exists out. split; [exact H|]. split; [exact K|]. split; [|exact P].
  rewrite K, length_app, length_map. f_equal. apply zip_length.
Qed.

(** ** Blank conditions *)

Lemma filter_truthy_one x :
  List.filter PyStr.truthy [x] = if PyStr.truthy x then [x] else [].
Proof. reflexivity. Qed.

(** X7.  A condition that is empty or blank adds nothing to the filter, yet
    the call rewrites it: a handle without a filter gets the empty filter,
    and a stored filter [s] comes back wrapped in one more pair of
    parentheses. *)
Theorem append_where_blank (h : handle) (w : world) (x : string) :
  nonblank x = false ->
  (get_param h "where" = None ->
   exists h1 w1, append_where h [IStr x] w = Ok h1 w1 /\
                 get_param h1 "where" = Some (VStr "")) /\
  (forall s, get_param h "where" = Some (VStr s) -> nonblank s = true ->
   exists h1 w1, append_where h [IStr x] w = Ok h1 w1 /\
                 get_param h1 "where" = Some (VStr (parenthesize s))).
Proof.
  intros Hx. split.
  - intros Hw. rewrite append_where_unfold. unfold where_store. rewrite Hw.
    cbv zeta iota beta. rewrite heap_get_alloc.
    eexists _, _. split; [reflexivity|]. rewrite get_param_set_param.
    do 2 f_equal.
    rewrite heap_get_write by (rewrite length_app; simpl; lia).
    cbn [map flatten_item concat app]. rewrite filter_truthy_one.
    unfold conjunction.
    destruct (PyStr.truthy x); cbn [app List.filter]; [rewrite Hx|]; reflexivity.
  - intros s Hw Hs. rewrite append_where_unfold. unfold where_store. rewrite Hw.
    cbv zeta iota beta. rewrite heap_get_alloc.
    eexists _, _. split; [reflexivity|]. rewrite get_param_set_param.
    do 2 f_equal.
    rewrite heap_get_write by (rewrite length_app; simpl; lia).
    cbn [map flatten_item concat app]. rewrite filter_truthy_one.
    unfold conjunction.
    destruct (PyStr.truthy x); cbn [app List.filter]; rewrite Hs, ?Hx;
      reflexivity.
Qed.

(** ** Code blocks after other code *)

Lemma terminate_nonempty x : terminate x <> "".
Proof.
  pose proof (terminate_ends x) as H. intros E. rewrite E in H. discriminate.
Qed.

Lemma append_longer (a b : string) : b <> "" -> a +:+ b <> a.
Proof.
  intros Hb E. apply (f_equal String.length) in E.
  rewrite length_append_string in E. destruct b; [contradiction|].
  simpl in E. lia.
Qed.

(** X6.  The stored program is compared as one block: once a second block
    [y] has been appended after [x], appending [x] again is not
    recognised as a repetition and adds the block a second time. *)
Theorem append_comppgm_not_recognised (h : handle) (w : world) (x y : string) :
  get_param h "comppgm" = None ->
  PyStr.truthy x = true -> PyStr.truthy y = true ->
  terminate x <> terminate y ->
  exists h3 w3,
    (h1 <- append_comppgm h [IStr x] ;;
     h2 <- append_comppgm h1 [IStr y] ;;
     append_comppgm h2 [IStr x]) w = Ok h3 w3 /\
    get_param h3 "comppgm"
    = Some (VStr (terminate x +:+ terminate y +:+ terminate x)).
Proof.
  intros Hn Hx Hy Hxy.
  destruct (append_comppgm_flat h [IStr x] [x] w) as (hp1 & H1 & _);
    [intros r Hr; congruence | reflexivity |].
  rewrite Hn in H1. cbn [old_items app List.filter] in H1. rewrite Hx in H1.
  unfold _get_unique in H1.
  cbn [map get_unique_from mem existsb orb andb PyStr.join] in H1.
  set (tx := terminate x) in *. set (ty := terminate y) in *.
  set (h1 := set_param h "comppgm" (VStr tx)) in *.
  set (w1 := mk_world hp1 (conns w) (trace w) (server w)) in *.
  assert (G1 : get_param h1 "comppgm" = Some (VStr tx))
    by apply get_param_set_param.
  destruct (append_comppgm_flat h1 [IStr y] [y] w1) as (hp2 & H2 & _);
    [intros r Hr; congruence | reflexivity |].
  rewrite G1 in H2. cbn [old_items app List.filter] in H2. rewrite Hy in H2.
  unfold _get_unique in H2.
  cbn [map get_unique_from mem existsb orb andb] in H2.
  assert (Tx : terminate tx = tx) by apply terminate_idempotent.
  fold ty in H2. rewrite ?Tx in H2.
  assert (E1 : String.eqb ty tx = false).
  { apply String.eqb_neq. congruence. }
  rewrite E1 in H2. cbn [orb PyStr.join] in H2.
  change (tx ++ "" ++ ty)%string with (tx +:+ ty) in H2.
  set (h2 := set_param h1 "comppgm" (VStr (tx +:+ ty))) in *.
  set (w2 := mk_world hp2 (conns w1) (trace w1) (server w1)) in *.
  assert (G2 : get_param h2 "comppgm" = Some (VStr (tx +:+ ty)))
    by apply get_param_set_param.
  destruct (append_comppgm_flat h2 [IStr x] [x] w2) as (hp3 & H3 & _);
    [intros r Hr; congruence | reflexivity |].
  rewrite G2 in H3. cbn [old_items app List.filter] in H3. rewrite Hx in H3.
  unfold _get_unique in H3.
  cbn [map get_unique_from mem existsb orb andb] in H3.
  fold tx in H3. rewrite ?Tx in H3.
  assert (T : terminate (tx +:+ ty) = tx +:+ ty).
  { unfold terminate. rewrite ends_with_semicolon_app; [reflexivity|].
    apply terminate_ends. }
  rewrite T in H3.
  assert (E2 : String.eqb tx (tx +:+ ty) = false).
  { apply String.eqb_neq. intros E. symmetry in E. revert E.
    apply append_longer, terminate_nonempty. }
  rewrite E2 in H3. cbn [orb PyStr.join] in H3.
  eexists _, _. split.
  - unfold bind. rewrite H1, H2. exact H3.
  - rewrite get_param_set_param. do 2 f_equal.
    change ((tx +:+ ty) ++ "" ++ tx)%string with ((tx +:+ ty) +:+ tx).
    apply append_assoc_string.
Qed.

(** ** Templates without fields *)










(** ** Computed columns on a plain handle *)

Lemma changed_only_none hp hp' :
  changed_only (fun _ => False) hp hp' ->
  forall l, l < length hp -> hp' !! l = hp !! l.
Proof. intros [_ H] l Hl. apply H; [exact Hl | tauto]. Qed.

Lemma changed_only_weaken (S T : nat -> Prop) hp hp' :
  (forall l, S l -> T l) -> changed_only S hp hp' -> changed_only T hp hp'.
Proof.
  intros HST [L H]. split; [exact L|]. intros l Hl HT. apply H; [exact Hl|].
  intros HS. apply HT, HST, HS.
Qed.

Lemma declare_fresh h names stmts w :
  get_param h "compvars" = None -> get_param h "comppgm" = None ->
  exists res hp' rc,
    append_computed_columns h (IList (map IStr names)) (IList (map IStr stmts)) w
    = Ok res (mk_world hp' (conns w) (trace w) (server w)) /\
    (forall l, l < length (heap w) -> hp' !! l = heap w !! l) /\
    length (heap w) <= length hp' /\
    (forall k, ParamManager.key_eqb k "compvars" = false ->
               ParamManager.key_eqb k "comppgm" = false ->
               get_param res k = get_param h k) /\
    h_kind res = h_kind h /\
    get_param res "compvars" = Some (VList rc) /\
    length (heap w) <= rc /\
    heap_get hp' rc = _get_unique (List.filter PyStr.truthy names) true /\
    get_param res "comppgm"
    = Some (VStr (PyStr.join ""
              (_get_unique (map terminate (List.filter PyStr.truthy stmts))
                           false))).
Proof.
  intros Hv Hp. unfold append_computed_columns.
  destruct (append_compvars_names h names w) as (hp1 & H1 & C1);
    [intros r Hr; congruence|].
  rewrite Hv in H1. cbn [old_items app] in H1.
  set (h1 := set_param h "compvars" (VList (length hp1))) in *.
  match type of H1 with _ = Ok _ ?x => set (w1 := x) in * end.
  assert (Hp1 : get_param h1 "comppgm" = None).
  { unfold h1, get_param, set_param. cbn [params].
    rewrite get_set_other by reflexivity. exact Hp. }
  destruct (append_comppgm_stmts h1 stmts w1) as (hp2 & H2 & C2);
    [intros r Hr; congruence|].
  rewrite Hp1 in H2. cbn [old_items app] in H2.
  assert (C1' : changed_only (fun _ => False) (heap w) hp1).
  { revert C1. apply changed_only_weaken. intros l Hl. congruence. }
  assert (C2' : changed_only (fun _ => False) (heap w1) hp2).
  { revert C2. apply changed_only_weaken. intros l Hl. congruence. }
  pose proof (changed_only_none _ _ C1') as K1.
  pose proof (changed_only_none _ _ C2') as K2.
  destruct C1' as [L1 _]. destruct C2' as [L2 _].
  unfold w1 in L2, K2. cbn [heap] in L2, K2. rewrite length_app in L2, K2.
  simpl in L2, K2.
  eexists _, hp2, (length hp1). unfold bind. rewrite H1.
  split; [exact H2|].
  split.
  { intros l Hl. rewrite K2 by lia. rewrite lookup_app_l by lia. now apply K1. }
  split; [lia|]. split.
  { intros k E1 E2. unfold h1. unfold get_param, set_param. cbn [params].
    rewrite get_set_other by exact E2. now rewrite get_set_other by exact E1. }
  split; [reflexivity|]. split.
  { unfold get_param, set_param. cbn [params].
    rewrite get_set_other by reflexivity. apply get_param_set_param. }
  split; [exact L1|]. split; [|apply get_param_set_param].
  unfold heap_get. rewrite K2 by lia.
  rewrite lookup_app_r by lia. now rewrite Nat.sub_diag.
Qed.

Lemma name_stable self w w' n :
  well_formed (heap w) (params self) ->
  name self w = Ok n w ->
  (forall r, r < length (heap w) -> heap w' !! r = heap w !! r) ->
  name self w' = Ok n w'.
Proof.
  intros Hwf Hn Hh. unfold name in *.
  destruct (get_param self "varlist") as [[s|r]|] eqn:E.
  - injection Hn as ->. reflexivity.
  - pose proof (all_refs_get _ _ _ _ Hwf E) as Hr. cbv beta in Hr.
    unfold bind, read in *. unfold heap_get in *. rewrite (Hh r Hr).
    destruct (default [] (heap w !! r)); [discriminate|].
    injection Hn as ->. reflexivity.
  - discriminate.
Qed.

Lemma deepcopy_absent self w out w1 k :
  normal (params self) ->
  well_formed (heap w) (params self) ->
  __deepcopy__ self w = Ok out w1 ->
  get_param self k = None -> get_param out k = None.
Proof.
  intros Hn Hwf Hd Hk.
  destruct (__deepcopy___spec self w out w1 Hn Hwf Hd)
    as (extra & _ & _ & _ & _ & _ & _ & Hb).
  specialize (Hb k). rewrite !get_snapshot in Hb.
  unfold get_param in *. rewrite Hk in Hb.
  now destruct (ParamManager.get k (params out)).
Qed.

Lemma _gen_id_next c w cn :
  conns w !! c = Some cn ->
  _gen_id c w
  = Ok (pretty (next_id cn))
       (mk_world (heap w) (<[c := mk_conn (alive cn) (S (next_id cn))]> (conns w))
                 (trace w) (server w)).
Proof. intros H. unfold _gen_id. now rewrite H. Qed.

(** The name [_compute] gives to the column number [id] of a function. *)
Definition computed_name (funcname : string) (id : nat) : string :=
  "_" +:+ funcname +:+ "_" +:+ pretty id +:+ "_".


(** ** Comparisons *)



(** ** Selection by a boolean column *)

Lemma store_of_prefix v hp l :
  l < length hp -> snd (store_of v hp) !! l = hp !! l.
Proof.
  intros Hl. destruct v as [[s|r]|]; simpl; try reflexivity;
    now rewrite lookup_app_l.
Qed.

Lemma append_where_flat h items new w :
  (forall r, get_param h "where" = Some (VList r) -> r < length (heap w)) ->
  (forall hp1, (forall l, l < length (heap w) -> hp1 !! l = heap w !! l) ->
               concat (map (flatten_item hp1) items) = new) ->
  exists hp',
    append_where h items w
    = Ok (set_param h "where"
            (VStr (conjunction (old_items (get_param h "where") (heap w)
                                ++ List.filter PyStr.truthy new))))
         (mk_world hp' (conns w) (trace w) (server w)) /\
    changed_only (fun l => get_param h "where" = Some (VList l)) (heap w) hp'.
Proof.
  intros Hv Hflat. rewrite append_where_store.
  pose proof (store_of_spec (get_param h "where") (heap w) Hv) as H.
  pose proof (fun l => store_of_prefix (get_param h "where") (heap w) l) as Hpre.
  destruct (store_of (get_param h "where") (heap w)) as [r hp1].
  destruct H as (Hr & Hold & Hch & Hor). cbv zeta. simpl in Hpre.
  eexists. split.
  - rewrite heap_get_appended by exact Hr.
    rewrite (Hflat hp1 Hpre), Hold. reflexivity.
  - unfold appended. apply changed_only_insert; [exact Hch | exact Hor].
Qed.

Lemma append_compvars_flat h items new w :
  (forall r, get_param h "compvars" = Some (VList r) -> r < length (heap w)) ->
  (forall hp1, (forall l, l < length (heap w) -> hp1 !! l = heap w !! l) ->
               concat (map (flatten_item hp1) items) = new) ->
  exists hp',
    append_compvars h items w
    = Ok (set_param h "compvars" (VList (length hp')))
         (mk_world
            (hp' ++ [_get_unique (old_items (get_param h "compvars") (heap w)
                                  ++ List.filter PyStr.truthy new) true])
            (conns w) (trace w) (server w)) /\
    changed_only (fun l => get_param h "compvars" = Some (VList l)) (heap w) hp'.
Proof.
  intros Hv Hflat. unfold append_compvars. unfold bind.
  rewrite append_names_unfold.
  pose proof (store_of_spec (get_param h "compvars") (heap w) Hv) as H.
  pose proof (fun l => store_of_prefix (get_param h "compvars") (heap w) l)
    as Hpre.
  destruct (store_of (get_param h "compvars") (heap w)) as [r hp1].
  destruct H as (Hr & Hold & Hch & Hor). cbv zeta. unfold ret. simpl in Hpre.
  exists (appended hp1 r items).
  rewrite heap_get_appended by exact Hr.
  rewrite (Hflat hp1 Hpre), Hold. split; [reflexivity|].
  unfold appended. apply changed_only_insert; [exact Hch | exact Hor].
Qed.

Lemma nonblank_first c s :
  PyStr.space_byte c = false -> nonblank (String c s) = true.
Proof.
  intros H. unfold nonblank, PyStr.strip. rewrite lstrip_plain by exact H.
  pose proof (rstrip_nonempty c s H) as Hne.
  destruct (PyStr.rstrip (String c s)); [contradiction | reflexivity].
Qed.

Lemma is_alpha_not_space c :
  PyStr.is_alpha c = true -> PyStr.space_byte c = false.
Proof.
  unfold PyStr.is_alpha, PyStr.space_byte, PyStr.is_space. intros H.
  apply orb_true_iff in H. apply orb_false_iff.
  destruct H as [H|H]; apply andb_true_iff in H as [H1 H2];
    apply Nat.leb_le in H1, H2; split; [apply orb_false_iff; split| |
                                        apply orb_false_iff; split|];
    try (apply andb_false_iff; rewrite !Nat.leb_gt; lia);
    apply Nat.leb_gt; lia.
Qed.

Lemma nonblank__nlit n : nonblank (_nlit n) = true.
Proof.
  destruct n as [|c s]; [reflexivity|]. unfold _nlit.
  destruct (PyStr.is_alpha c || Ascii.eqb c "_") eqn:E.
  - apply nonblank_first. apply orb_true_iff in E as [E|E].
    + now apply is_alpha_not_space.
    + apply Ascii.eqb_eq in E. now subst c.
  - now apply nonblank_first.
Qed.

(** The store [hp'] holds the first [n] objects of [hp] as they were. *)
Definition keeps_below (n : nat) (hp hp' : list (list string)) : Prop :=
  n <= length hp' /\ forall l, l < n -> hp' !! l = hp !! l.

Lemma keeps_below_step n hp hp1 hp2 (S : nat -> Prop) :
  keeps_below n hp hp1 ->
  (forall l, S l -> n <= l) ->
  changed_only S hp1 hp2 ->
  keeps_below n hp hp2.
Proof.
  intros [L1 K1] HS [L2 K2]. split; [lia|].
  intros l Hl. rewrite K2; [now apply K1 | lia |].
  intros Hc. apply HS in Hc. lia.
Qed.

Lemma keeps_below_app n hp hp1 extra :
  keeps_below n hp hp1 -> keeps_below n hp (hp1 ++ extra).
Proof.
  intros [L K]. split; [rewrite length_app; lia|].
  intros l Hl. rewrite lookup_app_l by lia. now apply K.
Qed.

Lemma keeps_below_get n hp hp' r :
  keeps_below n hp hp' -> r < n -> heap_get hp' r = heap_get hp r.
Proof. intros [_ K] Hr. unfold heap_get. now rewrite K. Qed.

Lemma keeps_below_snapshot n hp hp' p :
  keeps_below n hp hp' -> all_refs (fun r => r < n) p ->
  snapshot hp' p = snapshot hp p.
Proof.
  intros Hk Hp. apply snapshot_agree. revert Hp. apply all_refs_impl.
  intros r Hr. now apply (keeps_below_get n).
Qed.

Lemma request_of_keeps c h w w' action kwargs :
  keeps_below (length (heap w)) (heap w) (heap w') ->
  well_formed (heap w) (params h) ->
  request_of c h w' action kwargs = request_of c h w action kwargs.
Proof.
  intros Hk Hwf. unfold request_of. f_equal.
  now apply (keeps_below_snapshot (length (heap w))).
Qed.

Lemma conjunction_one x : nonblank x = true -> conjunction [x] = parenthesize x.
Proof.
  intros H. unfold conjunction. cbn [List.filter]. rewrite H. reflexivity.
Qed.

(** X24.  [tbl[col]] for a table without filter, computed columns and column
    list, and a computed column [col] that carries its variables in a list
    and its program in a string: the result is a copy whose filter is the
    name literal of [col] in parentheses, whose computed variables are
    those of [col] without repetition, whose program is the one of [col]
    closed by a semicolon, and whose column list is the one the server
    reports for the table, asked for once; its other parameters are
    those of the table, and the table itself is untouched. *)
Theorem selection_by_column (self col : handle) (w : world) (c : nat)
    (nc pg : string) (rc : nat) (ci : list (string * string)) :
  "name" ∈ map fst (params self) ->
  normal (params self) ->
  well_formed (heap w) (params self) ->
  get_param self "where" = None ->
  get_param self "compvars" = None ->
  get_param self "comppgm" = None ->
  get_param self "varlist" = None ->
  well_formed (heap w) (params col) ->
  name col w = Ok nc w ->
  get_param col "compvars" = Some (VList rc) ->
  heap_get (heap w) rc <> [] ->
  get_param col "comppgm" = Some (VStr pg) ->
  PyStr.truthy pg = true ->
  get_connection self w = Ok c w ->
  let ask := request_of c self w "table.columninfo" [] in
  (severity (server w ask) <= 1)%nat ->
  ColumnInfo (server w ask) = Some ci ->
  exists res w',
    __getitem__ self (KColumn col) w = Ok (Handle res) w' /\
    get_param res "where" = Some (VStr ("(" +:+ _nlit nc +:+ ")")) /\
    resolve (heap w') <$> get_param res "compvars"
    = Some (RList (_get_unique (List.filter PyStr.truthy (heap_get (heap w) rc))
                               true)) /\
    get_param res "comppgm" = Some (VStr (terminate pg)) /\
    resolve (heap w') <$> get_param res "varlist" = Some (RList (map fst ci)) /\
    snapshot (heap w') (params self) = snapshot (heap w) (params self) /\
    trace w' = trace w ++ [ask] /\
    (forall k,
       ParamManager.key_eqb k "where" = false ->
       ParamManager.key_eqb k "compvars" = false ->
       ParamManager.key_eqb k "comppgm" = false ->
       ParamManager.key_eqb k "varlist" = false ->
       ParamManager.get k (snapshot (heap w') (params res))
       = ParamManager.get k (snapshot (heap w) (params self))).
Proof.
  intros Hname Hn Hwf Hwh Hcv Hcp Hvl Hwfc Hnc Hccv Hlc Hccp Hpg Hc ask Hs Hci.
  set (N := length (heap w)).
  assert (Hrc : rc < N) by exact (all_refs_get _ _ _ _ Hwfc Hccv).
  (* the copy *)
  destruct (__deepcopy___ok self w Hname)
    as (out & extra0 & p' & v & rest & Hd & _).
  destruct (__deepcopy___spec self w out _ Hn Hwf Hd)
    as (extra & Heq & _ & _ & _ & _ & Hrefs & Hb).
  rewrite Heq in Hd. clear Heq extra0 p' v rest.
  pose proof (deepcopy_absent self w out _ "where" Hn Hwf Hd Hwh) as Hwh0.
  pose proof (deepcopy_absent self w out _ "compvars" Hn Hwf Hd Hcv) as Hcv0.
  pose proof (deepcopy_absent self w out _ "comppgm" Hn Hwf Hd Hcp) as Hcp0.
  pose proof (deepcopy_absent self w out _ "varlist" Hn Hwf Hd Hvl) as Hvl0.
  set (w1 := grown w extra) in *.
  assert (K1 : keeps_below N (heap w) (heap w1)).
  { split; [unfold w1; cbn [grown heap]; rewrite length_app; lia|].
    intros l Hl. unfold w1. cbn [grown heap]. now rewrite lookup_app_l. }
  assert (Hnc1 : name col w1 = Ok nc w1).
  { apply (name_stable col w w1 nc Hwfc Hnc). apply K1. }
  (* the filter *)
  set (x := _nlit nc).
  destruct (append_where_flat out [IStr x] [x] w1) as (hp2 & H2 & C2);
    [intros r Hr; congruence | reflexivity |].
  rewrite Hwh0 in H2, C2. cbn [old_items app List.filter] in H2.
  rewrite (nonblank_truthy x (nonblank__nlit nc)) in H2.
  rewrite (conjunction_one x (nonblank__nlit nc)) in H2.
  set (h1 := set_param out "where" (VStr (parenthesize x))) in *.
  set (w2 := mk_world hp2 (conns w1) (trace w1) (server w1)) in *.
  assert (K2 : keeps_below N (heap w) (heap w2)).
  { apply (keeps_below_step N _ _ _ _ K1) with (2 := C2). intros l Hl. discriminate. }
  (* the computed variables *)
  set (lc := heap_get (heap w) rc) in *.
  assert (Hread : heap_get (heap w2) rc = lc)
    by now apply (keeps_below_get N).
  assert (Hcv1 : get_param h1 "compvars" = None).
  { unfold h1, get_param, set_param. cbn [params].
    rewrite get_set_other by reflexivity. exact Hcv0. }
  destruct (append_compvars_flat h1 [IRef rc] lc w2) as (hp3 & H3 & C3).
  { intros r Hr. congruence. }
  { intros hp1 Hpre. cbn [map flatten_item concat]. rewrite app_nil_r.
    unfold heap_get. rewrite Hpre; [exact Hread|].
    destruct K2 as [L _]. cbn [heap w2] in *. lia. }
  rewrite Hcv1 in H3, C3. cbn [old_items app] in H3.
  set (h2 := set_param h1 "compvars" (VList (length hp3))) in *.
  set (vars := _get_unique (List.filter PyStr.truthy lc) true) in *.
  set (w3 := mk_world (hp3 ++ [vars]) (conns w2) (trace w2) (server w2)) in *.
  assert (K3 : keeps_below N (heap w) (heap w3)).
  { unfold w3. cbn [heap]. apply keeps_below_app.
    apply (keeps_below_step N _ _ _ _ K2) with (2 := C3). intros l Hl. discriminate. }
  (* the program *)
  assert (Hcp2 : get_param h2 "comppgm" = None).
  { unfold h2, h1. unfold get_param, set_param. cbn [params].
    rewrite !get_set_other by reflexivity. exact Hcp0. }
  destruct (append_comppgm_flat h2 [IStr pg] [pg] w3) as (hp4 & H4 & C4);
    [intros r Hr; congruence | reflexivity |].
  rewrite Hcp2 in H4, C4. cbn [old_items app List.filter] in H4.
  rewrite Hpg in H4. unfold _get_unique in H4.
  cbn [map get_unique_from mem existsb orb andb PyStr.join] in H4.
  set (h3 := set_param h2 "comppgm" (VStr (terminate pg))) in *.
  set (w4 := mk_world hp4 (conns w3) (trace w3) (server w3)) in *.
  assert (K4 : keeps_below N (heap w) (heap w4)).
  { apply (keeps_below_step N _ _ _ _ K3) with (2 := C4). intros l Hl. discriminate. }
  assert (Hvars : heap_get hp4 (length hp3) = vars).
  { destruct C3 as [L3 _]. destruct C4 as [_ C4]. unfold heap_get.
    rewrite C4.
    - unfold w3. cbn [heap]. rewrite lookup_app_r by lia.
      now rewrite Nat.sub_diag.
    - unfold w3. cbn [heap]. rewrite length_app. simpl. lia.
    - discriminate. }
  (* the columns *)
  assert (Hvl3 : get_param h3 "varlist" = None).
  { unfold h3, h2, h1. unfold get_param, set_param. cbn [params].
    rewrite !get_set_other by reflexivity. exact Hvl0. }
  assert (Hc4 : get_connection self w4 = Ok c w4).
  { change w4 with (mk_world hp4 (conns w) (trace w) (server w)).
    rewrite get_connection_heap. now rewrite Hc. }
  assert (Hask : request_of c self w4 "table.columninfo" [] = ask).
  { apply request_of_keeps; [exact K4 | exact Hwf]. }
  assert (Hcols : columns self w4 = Ok (map fst ci) (record ask w4)).
  { unfold columns. rewrite Hvl. unfold truthy. mret.
    unfold bind at 1.
    rewrite (_columninfo_ok self w4 c ci Hc4); rewrite ?Hask; try assumption.
    reflexivity. }
  set (w5 := grown (record ask w4) [map fst ci]).
  set (res := set_param h3 "varlist" (VList (length hp4))).
  exists res, w5. split.
  { unfold __getitem__.
    replace (match is_column self with true | false => _ end)
      with (out <- __deepcopy__ self ;;
            e <- _to_expression col ;;
            let '(expr, ecompvars, ecomppgm) := e in
            out <- append_where out [IStr expr] ;;
            t <- item_truthy ecompvars ;;
            out <- (if t then append_compvars out [ecompvars] else ret out) ;;
            t <- item_truthy ecomppgm ;;
            out <- (if t then append_comppgm out [ecomppgm] else ret out) ;;
            match get_param out "varlist" with
            | None =>
                cols <- columns self ;;
                r <- alloc cols ;;
                ret (Handle (set_param out "varlist" (VList r)))
            | Some _ => ret (Handle out)
            end) by now destruct (is_column self).
    unfold bind at 1. rewrite Hd.
    unfold bind at 1. unfold _to_expression. unfold bind at 1. rewrite Hnc1.
    unfold ret at 1. cbv beta iota. rewrite Hccv, Hccp. cbn [item_of].
    unfold bind at 1. fold x. rewrite H2.
    unfold bind at 1. unfold item_truthy at 1. unfold bind at 1.
    unfold read at 1. rewrite Hread. unfold ret at 1.
    destruct lc as [|l0 lc'] eqn:Elc; [contradiction|]. rewrite <- Elc in *.
    unfold bind at 1. rewrite H3.
    unfold bind at 1. unfold item_truthy at 1. unfold ret at 1. rewrite Hpg.
    unfold bind at 1. rewrite H4. rewrite Hvl3.
    unfold bind at 1. rewrite Hcols.
    unfold bind at 1. rewrite alloc_grown. reflexivity. }
  split.
  { unfold res, h3, h2. unfold get_param, set_param. cbn [params].
    rewrite !get_set_other by reflexivity. apply get_set_same. }
  split.
  { unfold res, h3. unfold get_param, set_param. cbn [params].
    rewrite !get_set_other by reflexivity.
    change (ParamManager.get "compvars" (params h2))
      with (get_param h2 "compvars").
    unfold h2. rewrite get_param_set_param.
    cbn [fmap option_fmap option_map resolve]. unfold w5.
    cbn [grown heap record]. do 2 f_equal.
    rewrite heap_get_alloc_old; [exact Hvars|].
    destruct C3 as [L3 _]. destruct C4 as [L4 _].
    unfold w3 in L4. cbn [heap] in L4. rewrite length_app in L4. simpl in L4.
    change (heap w4) with hp4. lia. }
  split.
  { unfold res. unfold get_param, set_param. cbn [params].
    rewrite get_set_other by reflexivity. apply get_param_set_param. }
  split.
  { unfold res. rewrite get_param_set_param.
    cbn [fmap option_fmap option_map resolve]. unfold w5.
    cbn [grown heap record]. now rewrite heap_get_alloc. }
  split; [|split; [reflexivity|]].
  { unfold w5. cbn [grown heap record].
    apply (keeps_below_snapshot N); [|exact Hwf].
    now apply keeps_below_app. }
  intros k E1 E2 E3 E4.
  unfold res, h3, h2, h1, set_param. cbn [params].
  rewrite !get_snapshot_set by assumption.
  rewrite <- (Hb k). f_equal.
  assert (P2 : forall l, l < length (heap w1) -> hp2 !! l = heap w1 !! l).
  { apply changed_only_none. revert C2. apply changed_only_weaken.
    intros l Hl. discriminate. }
  assert (P3 : forall l, l < length hp2 -> hp3 !! l = hp2 !! l).
  { apply changed_only_none. revert C3. apply changed_only_weaken.
    intros l Hl. discriminate. }
  assert (P4 : forall l, l < length (hp3 ++ [vars]) -> hp4 !! l = (hp3 ++ [vars]) !! l).
  { apply changed_only_none. revert C4. apply changed_only_weaken.
    intros l Hl. discriminate. }
  destruct C2 as [L2 _]. destruct C3 as [L3 _]. cbn [heap w2] in L3.
  apply snapshot_agree. revert Hrefs. apply all_refs_impl.
  intros l [_ Hl]. unfold heap_get, w5. cbn [grown heap record].
  change (heap w4) with hp4.
  assert (Hl1 : l < length (heap w1)) by (unfold w1; cbn [grown heap]; exact Hl).
  rewrite lookup_app_l by (destruct C4 as [L4 _]; cbn [heap w3] in L4;
                           rewrite length_app in L4; simpl in L4; lia).
  rewrite P4 by (rewrite length_app; simpl; lia).
  rewrite lookup_app_l by lia.
  rewrite P3 by lia. rewrite P2 by exact Hl1. reflexivity.
Qed.

(** The column [a > 3] of the table, as a comparison builds it, in a
    store that holds its name and its computed variables. *)
Definition gt_column : handle :=
  mk_handle CASColumn
    [("name", VStr "cars"); ("varlist", VList 0); ("compvars", VList 1);
     ("comppgm", VStr "_gt_0_ = (a > 3); ")] [] (Some 0).

Definition gt_session : world :=
  mk_world [["_gt_0_"]; ["_gt_0_"]] [mk_conn true 1] [] cars_server.

(** ** Defining a column *)

Lemma append_varlist_stored h r items w :
  get_param h "varlist" = Some (VList r) ->
  r < length (heap w) ->
  heap_get (heap w) r <> [] ->
  let old := heap_get (heap w) r in
  let new := List.filter PyStr.truthy (concat (map (flatten_item (heap w)) items)) in
  append_varlist h items w
  = Ok (set_param h "varlist" (VList (length (heap w))))
       (mk_world (<[r := old ++ new]> (heap w) ++ [_get_unique (old ++ new) true])
                 (conns w) (trace w) (server w)).
Proof.
  intros Hv Hr Hne old new.
  unfold append_varlist, append_varlist_value, truthy. rewrite Hv.
  unfold bind at 1. unfold bind at 1. unfold bind at 1.
  unfold read at 1. fold old.
  destruct old as [|o1 os] eqn:E; [contradiction|]. rewrite <- E in *.
  unfold ret at 1. cbv beta iota. unfold as_list.
  unfold bind at 1. unfold ret at 1. cbv beta iota.
  unfold extend, _flatten, read, write, alloc, bind, ret. cbn [heap].
  fold old. fold new.
  rewrite heap_get_write by exact Hr.
  rewrite length_insert. reflexivity.
Qed.

(** The text [__setitem__] writes for a value that is not a column. *)
Definition assigned (value : pyobj) : string :=
  match value with
  | Text s => quoted s
  | Table _ p | Other p => p
  | Column _ => ""
  end.

(** X25.  [tbl[key] = value], for a value that is not a column, on a table
    without computed columns whose column list is a stored list that is
    not empty: [key] becomes the computed variable, the program is the
    assignment of the value, a string being quoted, and the column list of
    the result is the old one followed by [key], without repetition up to
    case.  The list object that held the columns has itself been
    extended, and nothing is sent. *)
Theorem setitem_defines_column (self : handle) (key_ : string) (value : pyobj)
    (w : world) (r : nat) :
  get_param self "compvars" = None ->
  get_param self "comppgm" = None ->
  get_param self "varlist" = Some (VList r) ->
  r < length (heap w) ->
  heap_get (heap w) r <> [] ->
  PyStr.truthy key_ = true ->
  (forall c, value <> Column c) ->
  let old := heap_get (heap w) r in
  exists res w',
    __setitem__ self key_ value w = Ok res w' /\
    resolve (heap w') <$> get_param res "compvars" = Some (RList [key_]) /\
    get_param res "comppgm"
    = Some (VStr (key_ +:+ " = " +:+ assigned value +:+ "; ")) /\
    resolve (heap w') <$> get_param res "varlist"
    = Some (RList (_get_unique (old ++ [key_]) true)) /\
    heap_get (heap w') r = old ++ [key_] /\
    trace w' = trace w.
Proof.
  intros Hcv Hcp Hvl Hr Hne Hkey Hval old.
  set (stmt := key_ +:+ " = " +:+ assigned value +:+ "; ").
  assert (Hst : PyStr.truthy stmt = true).
  { unfold stmt. destruct key_; [discriminate | reflexivity]. }
  assert (Hterm : terminate stmt = stmt).
  { unfold terminate, stmt.
    replace (key_ +:+ " = " +:+ assigned value +:+ "; ")
      with ((key_ +:+ " = " +:+ assigned value) +:+ "; ")
      by now rewrite !append_assoc_string.
    now rewrite ends_with_semicolon_stmt. }
  destruct (declare_fresh self [key_] [stmt] w Hcv Hcp)
    as (h1 & hp1 & rc & H1 & Hkeep & Hlen & Hother & _ & Hcv1 & Hrc & Hcvl & Hpg).
  cbn [List.filter] in Hcvl, Hpg. rewrite Hkey in Hcvl. rewrite Hst in Hpg.
  unfold _get_unique in Hcvl, Hpg.
  cbn [map get_unique_from mem existsb orb andb PyStr.join] in Hcvl, Hpg.
  rewrite Hterm in Hpg.
  set (w1 := mk_world hp1 (conns w) (trace w) (server w)) in *.
  assert (Hvl1 : get_param h1 "varlist" = Some (VList r)).
  { rewrite Hother by reflexivity. exact Hvl. }
  assert (Hold1 : heap_get (heap w1) r = old).
  { unfold heap_get. cbn [heap w1]. now rewrite Hkeep. }
  assert (Hr1 : r < length (heap w1)) by (cbn [heap w1]; lia).
  pose proof (append_varlist_stored h1 r [IStr key_] w1 Hvl1 Hr1) as H2.
  rewrite Hold1 in H2. specialize (H2 Hne). cbv zeta in H2.
  cbn [map flatten_item concat app List.filter] in H2. rewrite Hkey in H2.
  eexists _, _. split.
  { unfold __setitem__.
    assert (Hpgm :
              (match value return M (list item) with
               | Column c =>
                   e <- _to_expression c ;;
                   let '(cexpr, _, cpgm) := e in
                   ret [cpgm; IStr (key_ +:+ " = " +:+ cexpr +:+ "; ")]
               | Text s => ret [IStr (key_ +:+ " = " +:+ quoted s +:+ "; ")]
               | Table _ p | Other p => ret [IStr (key_ +:+ " = " +:+ p +:+ "; ")]
               end) w = Ok [IStr stmt] w).
    { destruct value as [c|t p|s|p]; [now contradiction (Hval c)| | |];
        reflexivity. }
    unfold bind at 1. rewrite Hpgm.
    unfold bind at 1.
    change (IList [IStr key_]) with (IList (map IStr [key_])).
    change (IList [IStr stmt]) with (IList (map IStr [stmt])).
    rewrite H1. exact H2. }
  cbn [heap trace].
  assert (Hne_rc : r <> rc) by lia.
  split.
  { unfold get_param, set_param. cbn [params].
    rewrite get_set_other by reflexivity.
    change (ParamManager.get "compvars" (params h1))
      with (get_param h1 "compvars").
    rewrite Hcv1. cbn [fmap option_fmap option_map resolve]. do 2 f_equal.
    rewrite <- Hcvl. unfold heap_get.
    assert (Hlt : rc < length hp1).
    { destruct (hp1 !! rc) eqn:E; [now apply lookup_lt_Some in E|].
      unfold heap_get in Hcvl. rewrite E in Hcvl. discriminate. }
    rewrite lookup_app_l by (rewrite length_insert; exact Hlt).
    now rewrite list_lookup_insert_ne. }
  split.
  { unfold get_param, set_param. cbn [params].
    rewrite get_set_other by reflexivity. exact Hpg. }
  split.
  { rewrite get_param_set_param.
    cbn [fmap option_fmap option_map resolve]. do 2 f_equal.
    rewrite <- (length_insert (heap w1) r (old ++ [key_])).
    apply heap_get_alloc. }
  split; [|reflexivity].
  rewrite heap_get_alloc_old by (rewrite length_insert; exact Hr1).
  now apply heap_get_write.
Qed.

(** ** Queries *)

(** X26.  [query(expr)] refuses every engine but ['cas'], before anything is
    done.  With the default [inplace=False], on a table without a filter,
    it returns a deep copy whose filter is [expr] in parentheses and whose
    other parameters are those of the table; the table keeps its bundle
    and nothing is sent. *)
Theorem query_filters_a_copy (self : handle) (expr : string) (w : world) :
  (forall engine inplace, engine <> "cas" ->
     query self expr inplace engine w
     = Raise (SWATError "Only CAS queries are supported at this time.") w) /\
  ("name" ∈ map fst (params self) ->
   normal (params self) ->
   well_formed (heap w) (params self) ->
   get_param self "where" = None ->
   nonblank expr = true ->
   exists res w',
     query self expr false "cas" w = Ok res w' /\
     get_param res "where" = Some (VStr ("(" +:+ expr +:+ ")")) /\
     (forall k, ParamManager.key_eqb k "where" = false ->
        ParamManager.get k (snapshot (heap w') (params res))
        = ParamManager.get k (snapshot (heap w) (params self))) /\
     snapshot (heap w') (params self) = snapshot (heap w) (params self) /\
     trace w' = trace w).
Proof.
  split.
  - intros engine inplace He. unfold query.
    apply String.eqb_neq in He. now rewrite He.
  - intros Hname Hn Hwf Hwh Hx.
    destruct (__deepcopy___ok self w Hname)
      as (out & extra0 & p' & v & rest & Hd & _).
    destruct (__deepcopy___spec self w out _ Hn Hwf Hd)
      as (extra & Heq & _ & _ & _ & _ & Hrefs & Hb).
    rewrite Heq in Hd. clear Heq extra0 p' v rest.
    pose proof (deepcopy_absent self w out _ "where" Hn Hwf Hd Hwh) as Hwh0.
    set (w1 := grown w extra) in *.
    destruct (append_where_flat out [IStr expr] [expr] w1) as (hp2 & H2 & C2);
      [intros r Hr; congruence | reflexivity |].
    rewrite Hwh0 in H2, C2. cbn [old_items app List.filter] in H2.
    rewrite (nonblank_truthy expr Hx) in H2.
    rewrite (conjunction_one expr Hx) in H2.
    assert (K : forall l, l < length (heap w1) -> hp2 !! l = heap w1 !! l).
    { apply changed_only_none. revert C2. apply changed_only_weaken.
      intros l Hl. discriminate. }
    eexists _, _. split.
    { unfold query. cbn [String.eqb Ascii.eqb Bool.eqb negb].
      unfold copy. unfold bind. rewrite Hd. exact H2. }
    cbn [heap trace]. split; [apply get_param_set_param|].
    split; [|split; [|reflexivity]].
    + intros k Hk. unfold set_param. cbn [params].
      rewrite get_snapshot_set by exact Hk.
      rewrite <- Hb. f_equal. apply snapshot_agree.
      revert Hrefs. apply all_refs_impl. intros r [_ Hr]. unfold heap_get.
      now rewrite K.
    + apply snapshot_agree. revert Hwf. apply all_refs_impl.
      intros r Hr. unfold heap_get. rewrite K.
      * unfold w1. cbn [grown heap]. now rewrite lookup_app_l.
      * unfold w1. cbn [grown heap]. rewrite length_app. lia.
Qed.

(** ** Sorting a column *)

(** X18.  [col.sort_values(ascending, inplace=True)] on a column that has a
    name adds one sort key, the name of the column itself with the
    direction asked for, after the keys the handle already has. *)
Theorem column_sorts_by_its_name (self : handle) (b : bool) (w : world)
    (n : string) :
  sortable self ->
  name self w = Ok n w ->
  exists out,
    column_sort_values self (inl b) true w = Ok out w /\
    sort_keys out
    = sort_keys self
      ++ [mk_sortspec n (if b then "ASCENDING" else "DESCENDING") "RAW"] /\
    params out = params self.
Proof.
  intros Hs Hn. unfold column_sort_values. unfold bind. rewrite Hn.
  unfold sort_values. mret. cbn [length repeat zip].
  destruct (sort_loop_spec [(n, b)] self w Hs) as (out & H & _ & K & P & _).
  exists out. split; [exact H|]. split; [exact K | exact P].
Qed.

(** ** Statements of computed columns *)

(** The template as [_compute] completes it before [format]. *)
Definition completed (code : string) : string :=
  let code := if PyStr.contains "{out}" code then code
              else "{out} = " +:+ code in
  if PyStr.ends_with_semicolon code then code else code +:+ "; ".

Lemma _compute_statement self funcname code kwargs kw stmt w c cn n :
  "name" ∈ map fst (params self) ->
  normal (params self) ->
  well_formed (heap w) (params self) ->
  get_param self "compvars" = None ->
  get_param self "comppgm" = None ->
  get_connection self w = Ok c w ->
  conns w !! c = Some cn ->
  name self w = Ok n w ->
  (forall w0, render_kwargs true kwargs w0 = Ok ([], [], kw) w0) ->
  let outname := computed_name funcname (next_id cn) in
  Py.format_from (("value", _nlit n) :: ("out", outname) :: kw)
                 (completed code) None = inr stmt ->
  PyStr.truthy stmt = true ->
  terminate stmt = stmt ->
  exists res w',
    _compute self funcname code true [] [] false None kwargs w = Ok res w' /\
    h_kind res = h_kind self /\
    name res w' = Ok outname w' /\
    resolve (heap w') <$> get_param res "compvars" = Some (RList [outname]) /\
    get_param res "comppgm" = Some (VStr stmt) /\
    snapshot (heap w') (params self) = snapshot (heap w) (params self) /\
    trace w' = trace w /\
    conns w' = <[c := mk_conn (alive cn) (S (next_id cn))]> (conns w).
Proof.
  intros Hname Hn Hwf Hv Hp Hc Hcn Hnm Hkw outname Hfmt Hst Hterm.
  destruct (__deepcopy___ok self w Hname)
    as (out & extra0 & p' & v & rest & Hd & _).
  destruct (__deepcopy___spec self w out _ Hn Hwf Hd)
    as (extra & Heq & Hkind & _ & _ & _ & _ & _).
  rewrite Heq in Hd. clear Heq extra0.
  pose proof (deepcopy_absent self w out _ "compvars" Hn Hwf Hd Hv) as Hv'.
  pose proof (deepcopy_absent self w out _ "comppgm" Hn Hwf Hd Hp) as Hp'.
  set (w1 := grown w extra) in *.
  assert (Hc1 : get_connection self w1 = Ok c w1)
    by now apply get_connection_grown.
  assert (Hcn1 : conns w1 !! c = Some cn) by exact Hcn.
  set (w2 := mk_world (heap w1)
               (<[c := mk_conn (alive cn) (S (next_id cn))]> (conns w1))
               (trace w1) (server w1)).
  set (r := length (heap w2)).
  set (w3 := grown w2 [[outname]]).
  set (out2 := set_param out "varlist" (VList r)).
  assert (Hnm3 : name self w3 = Ok n w3).
  { apply (name_stable self w w3 n Hwf Hnm). intros l Hl.
    unfold w3, w2, w1. cbn [grown heap].
    rewrite !lookup_app_l; [reflexivity | lia | rewrite length_app; lia]. }
  assert (Hv2 : get_param out2 "compvars" = None).
  { unfold out2, get_param, set_param. cbn [params].
    rewrite get_set_other by reflexivity. exact Hv'. }
  assert (Hp2 : get_param out2 "comppgm" = None).
  { unfold out2, get_param, set_param. cbn [params].
    rewrite get_set_other by reflexivity. exact Hp'. }
  destruct (declare_fresh out2 [outname] [stmt] w3 Hv2 Hp2)
    as (res & hp' & rc & Hres & Hkeep & Hlen & Hother & Hk & Hcv & Hrc & Hcvl & Hpg).
  assert (Hstart : _compute self funcname code true [] [] false None kwargs w
                   = append_computed_columns out2
                       (IList (map IStr [outname])) (IList (map IStr [stmt])) w3).
  { unfold _compute. unfold bind at 1. rewrite Hd.
    unfold bind at 1. rewrite Hc1.
    unfold bind at 1. rewrite (_gen_id_next c w1 cn Hcn1). fold w2.
    fold (computed_name funcname (next_id cn)). fold outname.
    unfold bind at 1. rewrite alloc_grown. fold w3. fold r. fold out2.
    unfold bind at 1. unfold in_compvars. rewrite Hv. unfold ret at 1.
    cbv beta iota.
    unfold bind at 1. rewrite Hkw.
    unfold bind at 1. rewrite Hnm3.
    fold (completed code).
    change (_nlit outname) with outname.
    unfold Py.format. unfold bind at 1. rewrite Hfmt. unfold ret at 1.
    cbv beta iota. reflexivity. }
  rewrite Hstart, Hres.
  assert (Htruthy : PyStr.truthy outname = true) by reflexivity.
  cbn [List.filter] in Hcvl, Hpg. rewrite Htruthy in Hcvl. rewrite Hst in Hpg.
  unfold _get_unique in Hcvl, Hpg.
  cbn [map get_unique_from mem existsb orb andb PyStr.join] in Hcvl, Hpg.
  rewrite Hterm in Hpg.
  exists res, (mk_world hp' (conns w3) (trace w3) (server w3)).
  split; [reflexivity|]. split; [now rewrite Hk|].
  assert (Hvar : get_param res "varlist" = Some (VList r)).
  { rewrite Hother by reflexivity. apply get_param_set_param. }
  assert (Hat : heap_get hp' r = [outname]).
  { unfold heap_get. rewrite Hkeep.
    - unfold w3. cbn [grown heap]. fold r.
      rewrite lookup_app_r by lia. now rewrite Nat.sub_diag.
    - unfold w3. cbn [grown heap]. rewrite length_app. fold r. simpl. lia. }
  split.
  { unfold name. rewrite Hvar. unfold bind, read. cbn [heap]. now rewrite Hat. }
  split.
  { rewrite Hcv. cbn [fmap option_fmap option_map resolve heap].
    now rewrite Hcvl. }
  split; [exact Hpg|]. split; [|split; reflexivity].
  apply snapshot_agree. revert Hwf. apply all_refs_impl.
  intros l Hl. cbn [heap]. unfold heap_get. rewrite Hkeep.
  - unfold w3, w2, w1. cbn [grown heap].
    now rewrite !lookup_app_l by (rewrite ?length_app; lia).
  - unfold w3, w2, w1. cbn [grown heap]. rewrite !length_app. lia.
Qed.

Lemma terminate_statement s : terminate (s +:+ "; ") = s +:+ "; ".
Proof. unfold terminate. now rewrite ends_with_semicolon_stmt. Qed.

(** X22.  [isnull()] and [notnull()] on a plain column named [n], on a live
    connection whose next identifier is [id]: the result is the column
    [_isnull_<id>_], or [_notnull_<id>_], whose program is the one
    statement that tests the name literal of [n] for a missing value;
    nothing is sent. *)
Theorem isnull_builds_column (self : handle) (w : world) (c : nat) (cn : conn)
    (n : string) :
  "name" ∈ map fst (params self) ->
  normal (params self) ->
  well_formed (heap w) (params self) ->
  get_param self "compvars" = None ->
  get_param self "comppgm" = None ->
  get_connection self w = Ok c w ->
  conns w !! c = Some cn ->
  name self w = Ok n w ->
  (exists res w',
     isnull self w = Ok res w' /\
     name res w' = Ok (computed_name "isnull" (next_id cn)) w' /\
     get_param res "comppgm"
     = Some (VStr (computed_name "isnull" (next_id cn)
                   +:+ " = missing(" +:+ _nlit n +:+ "); ")) /\
     trace w' = trace w) /\
  (exists res w',
     notnull self w = Ok res w' /\
     name res w' = Ok (computed_name "notnull" (next_id cn)) w' /\
     get_param res "comppgm"
     = Some (VStr (computed_name "notnull" (next_id cn)
                   +:+ " = (missing(" +:+ _nlit n +:+ ") = 0); ")) /\
     trace w' = trace w).
Proof.
  intros Hname Hn Hwf Hv Hp Hc Hcn Hnm. split.
  - destruct (_compute_statement self "isnull" "missing({value})" [] []
                (computed_name "isnull" (next_id cn)
                 +:+ " = missing(" +:+ _nlit n +:+ "); ")
                w c cn n Hname Hn Hwf Hv Hp Hc Hcn Hnm)
      as (res & w' & H1 & _ & H2 & _ & H3 & _ & H4 & _).
    + reflexivity.
    + reflexivity.
    + reflexivity.
    + replace (computed_name "isnull" (next_id cn)
               +:+ " = missing(" +:+ _nlit n +:+ "); ")
        with ((computed_name "isnull" (next_id cn)
               +:+ " = missing(" +:+ _nlit n +:+ ")") +:+ "; ")
        by now rewrite !append_assoc_string.
      apply terminate_statement.
    + exists res, w'. repeat split; assumption.
  - destruct (_compute_statement self "notnull" "(missing({value}) = 0)" [] []
                (computed_name "notnull" (next_id cn)
                 +:+ " = (missing(" +:+ _nlit n +:+ ") = 0); ")
                w c cn n Hname Hn Hwf Hv Hp Hc Hcn Hnm)
      as (res & w' & H1 & _ & H2 & _ & H3 & _ & H4 & _).
    + reflexivity.
    + reflexivity.
    + reflexivity.
    + replace (computed_name "notnull" (next_id cn)
               +:+ " = (missing(" +:+ _nlit n +:+ ") = 0); ")
        with ((computed_name "notnull" (next_id cn)
               +:+ " = (missing(" +:+ _nlit n +:+ ") = 0)") +:+ "; ")
        by now rewrite !append_assoc_string.
      apply terminate_statement.
    + exists res, w'. repeat split; assumption.
Qed.

(** ** Arithmetic on a numeric column *)



(** ** The table of one group *)

Lemma _nlit_first k :
  exists c r, _nlit k = String c r /\ PyStr.space_byte c = false /\
              Ascii.eqb c "(" = false.
Proof.
  destruct k as [|c s]; [now eexists _, _|]. unfold _nlit.
  destruct (PyStr.is_alpha c || Ascii.eqb c "_") eqn:E.
  - exists c, s. split; [reflexivity|].
    apply orb_true_iff in E as [E|E].
    + split; [now apply is_alpha_not_space|].
      unfold PyStr.is_alpha in E. apply Ascii.eqb_neq. intros ->.
      discriminate E.
    + apply Ascii.eqb_eq in E. now subst c.
  - now eexists _, _.
Qed.

Lemma group_where_first k v :
  exists c r, group_where k v = String c r /\ PyStr.space_byte c = false /\
              Ascii.eqb c "(" = false.
Proof.
  destruct (_nlit_first k) as (c & r & E & H1 & H2).
  unfold group_where. destruct v; rewrite E; now eexists _, _.
Qed.

(** The filter after one more condition. *)
Definition and_also (filter : option string) (cond : string) : option string :=
  match filter with
  | None => Some ("(" +:+ cond +:+ ")")
  | Some f => Some ("(" +:+ f +:+ ") and (" +:+ cond +:+ ")")
  end.

(** A filter that is absent, or written by [append_where]. *)
Definition grouped_filter (h : handle) (f : option string) : Prop :=
  match f with
  | None => get_param h "where" = None
  | Some s => get_param h "where" = Some (VStr s) /\
              exists r, s = String "(" r
  end.

Lemma group_step h f k v w :
  grouped_filter h f ->
  exists h' w',
    append_where h [IStr (group_where k v)] w = Ok h' w' /\
    grouped_filter h' (and_also f (group_where k v)) /\
    trace w' = trace w /\ conns w' = conns w /\ server w' = server w /\
    h_kind h' = h_kind h /\
    (forall k', ParamManager.key_eqb k' "where" = false ->
                get_param h' k' = get_param h k').
Proof.
  intros Hf. destruct (group_where_first k v) as (c & r & E & H1 & H2).
  assert (Hx : nonblank (group_where k v) = true)
    by (rewrite E; now apply nonblank_first).
  assert (Ho : forall x k', ParamManager.key_eqb k' "where" = false ->
                 get_param (set_param h "where" x) k' = get_param h k').
  { intros x k' Hk. unfold get_param, set_param. cbn [params].
    now apply get_set_other. }
  destruct f as [s|]; cbn [grouped_filter and_also] in *.
  - destruct Hf as (Hw & r0 & ->).
    rewrite (append_where_next h w _ _ Hw Hx).
    eexists _, _. split; [reflexivity|].
    split; [|repeat split; try reflexivity; apply Ho].
    split; [|now eexists].
    rewrite get_param_set_param. do 2 f_equal.
    unfold conjunction. cbn [List.filter]. rewrite Hx.
    rewrite (nonblank_first "(" r0 eq_refl).
    cbn [map]. unfold _get_unique. cbn [get_unique_from mem existsb orb andb].
    assert (Hd : String.eqb (parenthesize (group_where k v))
                            (parenthesize (String "(" r0)) = false).
    { rewrite E. unfold parenthesize.
      change ("(" +:+ String c r +:+ ")") with (String "(" (String c (r +:+ ")"))).
      change ("(" +:+ String "(" r0 +:+ ")")
        with (String "(" (String "(" (r0 +:+ ")"))).
      cbn [String.eqb]. rewrite Ascii.eqb_refl. now rewrite H2. }
    rewrite Hd. cbn [orb PyStr.join]. unfold parenthesize.
    now rewrite !append_assoc_string.
  - rewrite (append_where_first h w _ Hf Hx).
    eexists _, _. split; [reflexivity|].
    split; [|repeat split; try reflexivity; apply Ho].
    split; [apply get_param_set_param | now eexists].
Qed.

Lemma group_loop l : forall h f w,
  grouped_filter h f ->
  exists h' w',
    foldM (fun g kv => append_where g [IStr (group_where (fst kv) (snd kv))])
          h l w = Ok h' w' /\
    grouped_filter h'
      (fold_left (fun f kv => and_also f (group_where (fst kv) (snd kv))) l f) /\
    trace w' = trace w /\ conns w' = conns w /\ server w' = server w /\
    h_kind h' = h_kind h /\
    (forall k', ParamManager.key_eqb k' "where" = false ->
                get_param h' k' = get_param h k').
Proof.
  induction l as [|[k v] l IH]; intros h f w Hf.
  - exists h, w. repeat split; try reflexivity. exact Hf.
  - destruct (group_step h f k v w Hf)
      as (h1 & w1 & H1 & F1 & T1 & C1 & S1 & K1 & O1).
    destruct (IH h1 _ w1 F1) as (h2 & w2 & H2 & F2 & T2 & C2 & S2 & K2 & O2).
    exists h2, w2. cbn [foldM fold_left fst snd]. unfold bind. rewrite H1.
    repeat split; try assumption; try congruence.
    intros k' Hk. rewrite O2 by exact Hk. now apply O1.
Qed.

(** X27.  [get_group(name)] on a grouped table without a filter: the table
    of the group is a copy whose filter has one condition per pair of a
    group-by column and a value of [name]: [col = .] for a missing value,
    [col = ] the quoted string or the number otherwise.  Each condition is
    joined by [and] to the filter built so far, which is put in
    parentheses once more; nothing is sent.  The copy is shallow: it has
    the class of the table and, the filter apart, the very parameters of
    the table. *)
Theorem get_group_filters (_table : handle) (_by : list string)
    (name_ : list gvalue) (w : world) :
  "name" ∈ map fst (params _table) ->
  normal (params _table) ->
  get_param _table "where" = None ->
  exists g w',
    get_group _table _by name_ w = Ok g w' /\
    (VStr <$> fold_left (fun f kv => and_also f (group_where (fst kv) (snd kv)))
                        (zip _by name_) None)
    = get_param g "where" /\
    trace w' = trace w /\
    h_kind g = h_kind _table /\
    (forall k, ParamManager.key_eqb k "where" = false ->
               get_param g k = get_param _table k).
Proof.
  intros Hname Hn Hw.
  destruct (__copy___ok _table w Hname) as (cp & Hcp).
  destruct (__copy___spec _table w cp w Hn Hcp) as (_ & Hkind & Hget).
  assert (Hf : grouped_filter cp None) by (cbn; now rewrite Hget).
  destruct (group_loop (zip _by name_) cp None w Hf)
    as (g & w' & H & F & T & _ & _ & K & O).
  exists g, w'. split.
  - unfold get_group, copy. unfold bind. now rewrite Hcp.
  - split; [|split; [exact T|split; [congruence|]]].
    + destruct (fold_left _ (zip _by name_) None) as [s|];
        cbn [grouped_filter fmap option_fmap option_map] in *.
      * now destruct F as [-> _].
      * now rewrite F.
    + intros k Hk. rewrite O by exact Hk. apply Hget.
Qed.

End Model.

(** * Worked examples *)

(** The examples are evaluated on ASCII names. *)
#[global] Instance ascii_lower : StrLower := PyStr.lower.








Lemma row_slice_refused_witness :
  __getitem__ cars (KSlice (mk_rowslice (Some (-2)%Z) (Some (-1)%Z) None)) session
  = Raise unsupported_index session /\
  __getitem__ cars (KSlice (mk_rowslice (Some 8%Z) (Some 9%Z) None)) session
  = Raise unsupported_index session /\
  trace session = [].
Proof.
  destruct (row_slice_refused cars session) as [H _].
  split; [apply H; discriminate|]. split; [apply H; discriminate | reflexivity].
Defined.

Lemma negative_positions_witness :
  slice cars (-2) (Some (-1)%Z) None session
  = Ok [[["row"]]]
       (record (fetch_rows 0 cars session 8 9)
          (record (request_of 0 cars session "simple.numrows" []) session)) /\
  slice cars 8 (Some 9%Z) None session
  = Ok [[["row"]]] (record (fetch_rows 0 cars session 8 9) session) /\
  accessor_getitem ix cars (PosInt (-2)) session
  = Raise (KeyError (PInt (-2))) session.
Proof.
  assert (H1 : (severity (server session
                  (request_of 0 cars session "simple.numrows" [])) <= 1)%nat)
    by (vm_compute; lia).
  pose proof (negative_positions cars session 0 10 eq_refl eq_refl
                H1 eq_refl) as (Hs & _ & Hix).
  destruct (Hs (-2)%Z (-1)%Z) as [Ha Hb]; try lia.
  { vm_compute. lia. }
  split; [exact Ha|]. split; [exact Hb|].
  apply Hix. lia.
Defined.

Example name_column_built :
  __getitem__ cars (KName "name") session
  = Ok (Handle name_column)
       (record (request_of 0 cars session "table.columninfo" []) name_session).
Proof. reflexivity. Qed.

(** C5 (as stated, refuted).  Subtraction on the character column [name]
    raises [AttributeError], not a [TypeError], and it has sent one
    request by then. *)
Lemma sub_character_counterexample :
  sub name_column (Other "1") name_session
  = Raise (AttributeError "sub")
          (record (request_of 0 name_column name_session "table.columninfo" [])
                  name_session) /\
  ~ (exists msg w', sub name_column (Other "1") name_session
                    = Raise (TypeError msg) w' /\
                    trace w' = trace name_session).
Proof.
  split; [reflexivity|]. intros (msg & w' & H & _). discriminate H.
Qed.

Lemma sub_character_column_witness :
  sub name_column (Other "1") name_session
  = Raise (AttributeError "sub")
          (record (request_of 0 name_column name_session "table.columninfo" [])
                  name_session).
Proof.
  apply (sub_character_column name_column (Other "1") name_session 0
           "name" "varchar" []).
  - reflexivity.
  - vm_compute. lia.
  - reflexivity.
  - simpl. right. left. reflexivity.
Defined.

(** C1 (as stated, refuted).  Subtraction on the numeric column [a], a
    construction-time operation, succeeds and has sent a request to the
    server: it is not silent. *)
Lemma arithmetic_asks_server :
  trace a_session = [] /\
  trace (world_of (sub a_column (Other "1") a_session))
  = [request_of 0 a_column a_session "table.columninfo" []] /\
  (forall e w', sub a_column (Other "1") a_session <> Raise e w') /\
  ~ silent (sub a_column (Other "1")).
Proof.
  split; [reflexivity|]. split; [reflexivity|]. split.
  - intros e w' H. vm_compute in H. discriminate H.
  - intros H. pose proof (silent_trace _ a_session H) as Ht. discriminate Ht.
Qed.

Lemma repeated_filter_kept_twice_witness :
  exists h2 w2,
    (h1 <- append_where cars [IStr "a > 1"] ;; append_where h1 [IStr "a > 1"])
      session = Ok h2 w2 /\
    get_param h2 "where" = Some (VStr "((a > 1)) and (a > 1)") /\
    PyStr.occurrences "a > 1" "((a > 1)) and (a > 1)" = 2.
Proof.
  destruct (repeated_filter_kept_twice cars session "a > 1" eq_refl eq_refl)
    as (h1 & w1 & h2 & w2 & H1 & _ & H2 & Hw).
  exists h2, w2. split; [|split; [exact Hw | reflexivity]].
  unfold bind. rewrite H1. exact H2.
Defined.

(** Two different filters accumulate into their conjunction. *)
Example filters_accumulate :
  exists h2 w2,
    (h1 <- append_where cars [IStr "a > 1"] ;; append_where h1 [IStr "b < 2"])
      session = Ok h2 w2 /\
    get_param h2 "where" = Some (VStr "((a > 1)) and (b < 2)").
Proof. eexists _, _. split; reflexivity. Qed.

(** Within one call, a repeated condition is kept once. *)
Example duplicates_in_one_call_suppressed :
  exists h1 w1,
    append_where cars [IStr "a > 1"; IStr "a > 1"] session = Ok h1 w1 /\
    get_param h1 "where" = Some (VStr "(a > 1)").
Proof. eexists _, _. split; reflexivity. Qed.

(** The sibling [append_comppgm] keeps a block repeated in a second call
    once. *)
Example repeated_code_block_suppressed :
  exists h2 w2,
    (h1 <- append_comppgm cars [IStr "x = 1; "] ;;
     append_comppgm h1 [IStr "x = 1; "]) session = Ok h2 w2 /\
    get_param h2 "comppgm" = Some (VStr "x = 1; ").
Proof. eexists _, _. split; reflexivity. Qed.

(** C6 (as stated, refuted).  A column compared with itself has equal
    bundles on both sides, yet [==] does not answer [True]: it builds
    the computed column of the element-wise comparison. *)
Lemma column_equality_counterexample :
  bundle_equal (snapshot (heap a_session) (params a_column))
               (snapshot (heap a_session) (params a_column)) /\
  (forall r w', equals a_column "CASColumn('cars')" (Column a_column) a_session
                <> Ok (EqBool r) w') /\
  match equals a_column "CASColumn('cars')" (Column a_column) a_session with
  | Ok (EqColumn c) _ => get_param c "comppgm" = Some (VStr "_eq_0_ = (a = a); ")
  | _ => False
  end.
Proof.
  split; [intros k; reflexivity|]. split.
  - intros r w' H. vm_compute in H. discriminate H.
  - vm_compute. reflexivity.
Qed.

Lemma table_equality_witness :
  exists r, equals cars "CASTable('cars')" (Table cars "CASTable('cars')") session
            = Ok (EqBool r) session /\
    (r = true <-> bundle_equal (snapshot (heap session) (params cars))
                               (snapshot (heap session) (params cars))).
Proof.
  exact (proj1 (table_equality cars "CASTable('cars')"
                  (Table cars "CASTable('cars')") session)
           eq_refl cars "CASTable('cars')" eq_refl eq_refl).
Defined.

Lemma getitem_column_name_witness :
  __getitem__ cars (KName "q") session
  = Raise (KeyError (PStr "q"))
          (record (request_of 0 cars session "table.columninfo" []) session) /\
  exists c w2, __getitem__ cars (KName "B") session = Ok (Handle c) w2 /\
    h_kind c = CASColumn /\ name c w2 = Ok "B" w2.
Proof.
  pose proof (getitem_column_name cars "q" session _ _ eq_refl eq_refl) as [Hq _].
  pose proof (getitem_column_name cars "B" session _ _ eq_refl eq_refl) as [_ HB].
  split.
  - apply Hq. reflexivity.
  - destruct (HB eq_refl) as (c & w2 & H1 & H2 & H3 & _).
    + apply list_elem_of_here.
    + exists c, w2. repeat split; assumption.
Defined.

(** In contrast, the same unknown name inside a list is accepted and
    declared as a computed column holding a missing value. *)
Example list_selection_fabricates :
  match __getitem__ cars (KList [CName "q"]) session with
  | Ok (Handle out) w' =>
      resolve (heap w') <$> get_param out "varlist" = Some (RList ["q"]) /\
      resolve (heap w') <$> get_param out "compvars" = Some (RList ["q"]) /\
      get_param out "comppgm" = Some (VStr "q = .; ")
  | _ => False
  end.
Proof. vm_compute. repeat split. Qed.



(** C9 (as stated, refuted).  A column handle is a table handle as
    well, and on it a selection by a list raises [KeyError]: no copy is
    made and nothing is declared. *)
Lemma list_selection_on_column :
  is_column name_column = true /\
  __getitem__ name_column (KList [CName "name"]) name_session
  = Raise (KeyError PObj) name_session.
Proof. split; reflexivity. Qed.

Lemma list_selection_witness :
  exists res w3,
    __getitem__ cars (KList [CName "b"; CName "zz"; CInt 0]) session
    = Ok (Handle res) w3 /\
    resolve (heap w3) <$> get_param res "varlist"
    = Some (RList ["b"; "zz"; "a"]) /\
    (exists blocks, get_param res "comppgm"
                    = Some (VStr (PyStr.join "" blocks)) /\
                    In "zz = .; " blocks) /\
    snapshot (heap w3) (params cars) = [("name", RStr "cars")].
Proof.
  assert (Hn : normal (params cars)).
  { unfold normal. vm_compute. apply NoDup_singleton. }
  assert (Hwf : well_formed (heap session) (params cars)).
  { unfold well_formed, all_refs. simpl. repeat constructor. }
  destruct (list_selection cars cars [CName "b"; CName "zz"; CInt 0]
              session session
              (record (request_of 0 cars session "table.columninfo" []) session)
              ["a"; "b"; "name"] ["b"; "zz"; "a"]
              eq_refl Hn Hwf eq_refl eq_refl eq_refl)
    as (res & w3 & H1 & H2 & H3 & H4 & _).
  exists res, w3. split; [exact H1|]. split; [exact H2|].
  split; [|exact H4].
  destruct (H3 "zz") as [_ Hb]; [simpl; tauto | reflexivity | reflexivity |].
  exact Hb.
Defined.

Lemma get_unique_lowercase_witness :
  (In "MAKE" (_get_unique ["Make"; "make"; "MAKE"] true) \/
   In "make" (_get_unique ["Make"; "make"; "MAKE"] true)) /\
  _get_unique ["make"; "Make"] true = ["make"] /\
  _get_unique ["Make"; "make"] true = ["Make"; "make"].
Proof.
  destruct (get_unique_lowercase ["Make"; "make"; "MAKE"]) as (_ & _ & H & _).
  destruct (get_unique_lowercase []) as (_ & _ & _ & A).
  split; [apply (H "MAKE"); simpl; tauto|].
  apply (A "Make" "make"); [reflexivity | reflexivity | discriminate].
Defined.

Lemma _nlit_injective_witness : "9 lives" = "9 lives".
Proof. apply (_nlit_injective "9 lives" "9 lives"). reflexivity. Defined.

Lemma append_comppgm_repeated_witness :
  exists h2 w2,
    (h1 <- append_comppgm cars [IStr "x = a + 1"] ;;
     append_comppgm h1 [IStr "x = a + 1"]) session = Ok h2 w2 /\
    get_param h2 "comppgm" = Some (VStr "x = a + 1; ").
Proof.
  destruct (append_comppgm_repeated cars session "x = a + 1" eq_refl eq_refl)
    as (h1 & w1 & h2 & w2 & H1 & _ & H2 & Hp).
  exists h2, w2. split; [|exact Hp].
  unfold bind. rewrite H1. exact H2.
Defined.

Lemma delitem_removes_column_witness :
  __delitem__ cars "q" session
  = Raise (KeyError (PStr "q"))
          (record (request_of 0 cars session "table.columninfo" []) session) /\
  exists out w2 l,
    __delitem__ cars "B" session = Ok out w2 /\
    resolve (heap w2) <$> get_param out "varlist" = Some (RList l) /\
    (forall x, In x l <-> In x ["a"; "b"; "name"] /\ PyStr.lower x <> "b").
Proof.
  pose proof (delitem_removes_column cars "q" session _ _ eq_refl) as [Hq _].
  pose proof (delitem_removes_column cars "B" session _ _ eq_refl) as [_ HB].
  split.
  - apply Hq. simpl. intros x [<-|[<-|[<-|[]]]]; discriminate.
  - destruct HB as (out & w2 & l & H1 & H2 & H3 & _).
    + exists "b". split; [simpl; tauto | reflexivity].
    + exists out, w2, l. repeat split; try assumption; apply H3; assumption.
Defined.

Lemma get_value_bounds_witness :
  (exists w', get_value cars 10 (CName "a") session
              = Raise (out_of_bounds 10 10) w' /\
              trace w' = [request_of 0 cars session "simple.numrows" []]) /\
  (exists w', get_value cars (-2) (CName "a") session
              = Ok ([[["row"]]], "a") w' /\
              trace w' = [request_of 0 cars session "simple.numrows" [];
                          value_request 0 cars session 8]).
Proof.
  assert (Hn : "name" ∈ map fst (params cars)) by apply list_elem_of_here.
  assert (Hwf : well_formed (heap session) (params cars)).
  { unfold well_formed, all_refs. simpl. repeat constructor. }
  assert (Hs : (severity (server session
                  (request_of 0 cars session "simple.numrows" [])) <= 1)%nat).
  { vm_compute. lia. }
  split.
  - destruct (get_value_bounds cars 10 "a" session 0 10 Hn Hwf eq_refl Hs eq_refl)
      as [H _].
    apply H. vm_compute. discriminate.
  - destruct (get_value_bounds cars (-2) "a" session 0 10 Hn Hwf eq_refl Hs eq_refl)
      as [_ H].
    apply H; [reflexivity | vm_compute; lia].
Defined.

Lemma at_refuses_rows_witness :
  at_ cars (-1) (CName "a") session = Raise (KeyError PObj) session /\
  at_ cars 10 (CName "a") session
  = Raise (KeyError PObj)
          (record (request_of 0 cars session "simple.numrows" []) session).
Proof.
  destruct (at_refuses_rows cars (-1) (CName "a") session) as [H1 _].
  destruct (at_refuses_rows cars 10 (CName "a") session) as [_ H2].
  split.
  - apply H1. lia.
  - apply (H2 0 10%Z); [lia | reflexivity | vm_compute; lia | reflexivity | lia].
Defined.

Lemma copy_shares_connection_witness :
  (exists cp w', copy cars true session = Ok cp w' /\ _connection cp = Some 0) /\
  (exists cp w', copy cars false closed_session = Ok cp w' /\
                 _connection cp = None).
Proof.
  assert (Hn : "name" ∈ map fst (params cars)) by apply list_elem_of_here.
  split.
  - destruct (copy_shares_connection cars true session Hn)
      as (cp & w' & H1 & H2 & _).
    exists cp, w'. split; [exact H1 | exact H2].
  - destruct (copy_shares_connection cars false closed_session Hn)
      as (cp & w' & H1 & H2 & _).
    exists cp, w'. split; [exact H1 | exact H2].
Defined.

Lemma computed_columns_need_connection_witness :
  exists w', isnull (set_connection name_column None) name_session
             = Raise no_connection w' /\ trace w' = [].
Proof.
  destruct (computed_columns_need_connection
              (set_connection name_column None) name_session) as [H _].
  - apply list_elem_of_here.
  - exact I.
  - apply H.
Defined.

Lemma division_refuses_character_column_witness :
  floordiv name_column (Other "2") name_session
  = Raise (AttributeError "floordiv")
          (record (request_of 0 name_column name_session "table.columninfo" [])
                  name_session).
Proof.
  refine (proj1 (proj2 (proj2
            (division_refuses_character_column name_column (Other "2")
               name_session 0 "name" "varchar" [] _ _ _ _)))).
  - reflexivity.
  - vm_compute. lia.
  - reflexivity.
  - simpl. right. left. reflexivity.
Defined.

Lemma pop_builds_then_deletes_witness :
  exists out w2,
    name out w2 = Ok "q" w2 /\
    pop cars "q" session
    = match __delitem__ cars "q" w2 with
      | Ok s w3 => Ok (out, s) w3
      | Raise e w3 => Raise e w3
      end.
Proof.
  destruct (pop_builds_then_deletes cars "q" session)
    as (out & w2 & _ & H1 & _ & _ & H2).
  - apply list_elem_of_here.
  - exists out, w2. split; [exact H1 | exact H2].
Defined.

Lemma to_column_takes_first_witness :
  exists c w2,
    _to_column ab_table None ab_session = Ok c w2 /\
    h_kind c = CASColumn /\
    name c w2 = Ok "a" w2.
Proof.
  assert (Hn : normal (params ab_table)).
  { unfold normal. vm_compute.
    apply NoDup_cons_2; [|apply NoDup_singleton].
    rewrite list_elem_of_singleton. discriminate. }
  assert (Hwf : well_formed (heap ab_session) (params ab_table)).
  { unfold well_formed, all_refs. simpl. repeat constructor. }
  destruct (to_column_takes_first ab_table ab_session 0 "a" ["b"])
    as (c & w2 & H1 & H2 & H3 & _);
    [apply list_elem_of_here | exact Hn | exact Hwf | reflexivity | reflexivity |].
  exists c, w2. repeat split; assumption.
Defined.

Lemma accessors_refuse_row_slices_witness :
  accessor_getitem iloc cars
    (PosTuple (RowSlice (mk_rowslice (Some 0%Z) (Some 6%Z) (Some 2%Z)))
              (ColName "a")) session
  = Raise (TypeError "Step values in slices are not supported") session.
Proof.
  destruct (accessors_refuse_row_slices iloc cars session) as (_ & _ & H).
  destruct (H eq_refl) as (_ & H2 & _).
  apply H2. reflexivity.
Defined.

Lemma slice_resolves_against_first_group_witness :
  exists w',
    foldM slice_group ((-3)%Z, Some (-1)%Z, [])
          [cars; set_param cars "where" (VStr "(a = 1)")] session
    = Ok (7%Z, Some 9%Z, [[["row"]]; [["row"]]]) w' /\
    trace w'
    = [request_of 0 cars session "simple.numrows" [];
       fetch_rows 0 cars session 7 9;
       fetch_rows 0 (set_param cars "where" (VStr "(a = 1)")) session 7 9].
Proof.
  apply (slice_resolves_against_first_group
           cars (set_param cars "where" (VStr "(a = 1)")) session 0 0
           (-3) (-1) 10); try lia; try reflexivity; vm_compute; lia.
Defined.

Lemma server_error_is_raised_witness :
  _numrows cars refused_session
  = Raise (SWATError "ERROR: The table could not be found.")
          (record (request_of 0 cars refused_session "simple.numrows" [])
                  refused_session) /\
  slice cars 0 (Some 4%Z) None refused_session
  = Raise (SWATError "ERROR: The table could not be found.")
          (record (fetch_rows 0 cars refused_session 0 4) refused_session).
Proof.
  destruct (server_error_is_raised cars refused_session 0 eq_refl)
    as (H1 & _ & H3).
  split.
  - apply H1. vm_compute. lia.
  - apply H3; [reflexivity | lia | lia | vm_compute; lia].
Defined.

Lemma sort_values_appends_keys_witness :
  exists out,
    sort_values cars ["a"; "b"; "name"] (inr [false]) true session
    = Ok out session /\
    sort_keys out = [mk_sortspec "a" "DESCENDING" "RAW"].
Proof.
  assert (Hs : sortable cars).
  { split; [apply NoDup_nil_2 | discriminate]. }
  destruct (sort_values_appends_keys cars ["a"; "b"; "name"] (inr [false])
              session Hs) as (out & H1 & H2 & _).
  exists out. split; [exact H1 | exact H2].
Defined.

Lemma append_where_blank_witness :
  exists h1 w1,
    append_where (set_param cars "where" (VStr "a > 1")) [IStr "  "] session
    = Ok h1 w1 /\
    get_param h1 "where" = Some (VStr "(a > 1)").
Proof.
  destruct (append_where_blank (set_param cars "where" (VStr "a > 1"))
              session "  " eq_refl) as [_ H].
  apply (H "a > 1"); reflexivity.
Defined.

Lemma append_comppgm_not_recognised_witness :
  exists h3 w3,
    (h1 <- append_comppgm cars [IStr "x = 1"] ;;
     h2 <- append_comppgm h1 [IStr "y = 2"] ;;
     append_comppgm h2 [IStr "x = 1"]) session = Ok h3 w3 /\
    get_param h3 "comppgm" = Some (VStr "x = 1; y = 2; x = 1; ").
Proof.
  apply (append_comppgm_not_recognised cars session "x = 1" "y = 2");
    try reflexivity.
  vm_compute. discriminate.
Defined.


Lemma selection_by_column_witness :
  exists res w',
    __getitem__ cars (KColumn gt_column) gt_session = Ok (Handle res) w' /\
    get_param res "where" = Some (VStr "(_gt_0_)") /\
    get_param res "comppgm" = Some (VStr "_gt_0_ = (a > 3); ") /\
    resolve (heap w') <$> get_param res "varlist"
    = Some (RList ["a"; "b"; "name"]).
Proof.
  assert (Hn : normal (params cars)).
  { unfold normal. vm_compute. apply NoDup_singleton. }
  assert (Hwf : well_formed (heap gt_session) (params cars)).
  { unfold well_formed, all_refs. simpl. repeat constructor. }
  assert (Hwfc : well_formed (heap gt_session) (params gt_column)).
  { unfold well_formed, all_refs. simpl. repeat constructor; simpl; lia. }
  destruct (selection_by_column cars gt_column gt_session 0 "_gt_0_"
              "_gt_0_ = (a > 3); " 1
              [("a", "double"); ("b", "double"); ("name", "varchar")])
    as (res & w' & H1 & H2 & _ & H3 & H4 & _);
    try reflexivity; try assumption.
  - apply list_elem_of_here.
  - discriminate.
  - vm_compute. lia.
  - exists res, w'. repeat split; assumption.
Defined.

Lemma setitem_defines_column_witness :
  exists res w',
    __setitem__ ab_table "Size" (Text "big") ab_session = Ok res w' /\
    get_param res "comppgm"
    = Some (VStr ("Size = " +:+ quoted "big" +:+ "; ")) /\
    resolve (heap w') <$> get_param res "varlist"
    = Some (RList ["a"; "b"; "Size"]).
Proof.
  destruct (setitem_defines_column ab_table "Size" (Text "big") ab_session 0)
    as (res & w' & H1 & _ & H2 & H3 & _);
    try reflexivity; try discriminate.
  - simpl. lia.
  - exists res, w'. repeat split; assumption.
Defined.

Lemma query_filters_a_copy_witness :
  query cars "a > 1" false "sql" session
  = Raise (SWATError "Only CAS queries are supported at this time.") session /\
  exists res w',
    query cars "a > 1" false "cas" session = Ok res w' /\
    get_param res "where" = Some (VStr "(a > 1)").
Proof.
  destruct (query_filters_a_copy cars "a > 1" session) as [H1 H2].
  split; [apply H1; discriminate|].
  destruct H2 as (res & w' & Hq & Hw & _); try reflexivity.
  - apply list_elem_of_here.
  - unfold normal. vm_compute. apply NoDup_singleton.
  - unfold well_formed, all_refs. simpl. repeat constructor.
  - exists res, w'. split; assumption.
Defined.

Lemma column_sorts_by_its_name_witness :
  exists out,
    column_sort_values a_column (inl false) true a_session = Ok out a_session /\
    sort_keys out = [mk_sortspec "a" "DESCENDING" "RAW"].
Proof.
  assert (Hs : sortable a_column).
  { split; [apply NoDup_nil_2 | discriminate]. }
  destruct (column_sorts_by_its_name a_column false a_session "a" Hs eq_refl)
    as (out & H1 & H2 & _).
  exists out. split; [exact H1 | exact H2].
Defined.

Lemma isnull_builds_column_witness :
  exists res w',
    isnull a_column a_session = Ok res w' /\
    name res w' = Ok "_isnull_0_" w' /\
    get_param res "comppgm" = Some (VStr "_isnull_0_ = missing(a); ").
Proof.
  assert (Hn : normal (params a_column)).
  { unfold normal. vm_compute.
    apply NoDup_cons_2; [|apply NoDup_singleton].
    rewrite list_elem_of_singleton. discriminate. }
  assert (Hwf : well_formed (heap a_session) (params a_column)).
  { unfold well_formed, all_refs. simpl. repeat constructor. }
  destruct (isnull_builds_column a_column a_session 0 (mk_conn true 0) "a")
    as [(res & w' & H1 & H2 & H3 & _) _];
    try reflexivity; try assumption.
  - apply list_elem_of_here.
  - exists res, w'. repeat split; assumption.
Defined.


Lemma get_group_filters_witness :
  exists g w',
    get_group cars ["a"; "name"] [GNum "3"; GNull] session = Ok g w' /\
    get_param g "where" = Some (VStr "((a = 3)) and (name = .)").
Proof.
  destruct (get_group_filters cars ["a"; "name"] [GNum "3"; GNull] session)
    as (g & w' & H1 & H2 & _).
  - apply list_elem_of_here.
  - unfold normal. vm_compute. apply NoDup_singleton.
  - reflexivity.
  - exists g, w'. split; [exact H1|]. now rewrite <- H2.
Defined.
